(** * ShareFeed: passphrase codec, partition registry, active-network
      selector and per-network share cache.

    A shallow embedding of the TypeScript modules
    [ui/src/lib/secrets.ts], [ui/src/lib/holochain/networks.ts],
    [ui/src/lib/stores/networks.ts] and the shares store, followed by the
    properties established about them.

    JavaScript strings are sequences of UTF-16 code units; they are modelled
    as [list N], one number per code unit.  [js "..."] turns a literal into
    such a sequence. *)

From Stdlib Require Import NArith Ascii String.
From Stdlib.Strings Require Import Byte.
From stdpp Require Import base option list numbers gmap pretty.

Local Open Scope N_scope.

(** ** JavaScript strings *)

Abbreviation jsstring := (list N).

Definition js (s : string) : jsstring :=
  List.map N_of_ascii (list_ascii_of_string s).

Module JsString.

(** [WhiteSpace] and [LineTerminator] code points of ECMAScript: the
    characters removed by [String.prototype.trim] and matched by the
    regular-expression class [\s]. *)
Definition isWhiteSpace (c : N) : bool :=
  (c =? 9) || (c =? 10) || (c =? 11) || (c =? 12) || (c =? 13) || (c =? 32)
  || (c =? 160) || (c =? 5760) || ((8192 <=? c) && (c <=? 8202))
  || (c =? 8232) || (c =? 8233) || (c =? 8239) || (c =? 8287)
  || (c =? 12288) || (c =? 65279).

Fixpoint trimStart (s : jsstring) : jsstring :=
  match s with
  | [] => []
  | c :: s' => if isWhiteSpace c then trimStart s' else s
  end.

Fixpoint trimEnd (s : jsstring) : jsstring :=
  match s with
  | [] => []
  | c :: s' =>
      match trimEnd s' with
      | [] => if isWhiteSpace c then [] else [c]
      | t => c :: t
      end
  end.

(** [s.trim()] *)
Definition trim (s : jsstring) : jsstring := trimEnd (trimStart s).

(** Puts one more code unit in front of the first piece of a split. *)
Definition consHead (c : N) (pieces : list jsstring) : list jsstring :=
  match pieces with
  | [] => [[c]]
  | t :: ts => (c :: t) :: ts
  end.

(** [s.split(/\s+/)]: the pieces of [s] between maximal runs of white
    space.  A run at the very start or at the very end of [s] leaves an
    empty piece there, and the empty string splits into one empty piece.
    [splitWs] scans a piece, [afterWs] is inside a run of white space. *)
Fixpoint splitWs (s : jsstring) : list jsstring :=
  match s with
  | [] => [[]]
  | c :: s' =>
      if isWhiteSpace c then [] :: afterWs s'
      else consHead c (splitWs s')
  end
with afterWs (s : jsstring) : list jsstring :=
  match s with
  | [] => [[]]
  | c :: s' =>
      if isWhiteSpace c then afterWs s'
      else consHead c (splitWs s')
  end.

(** [s.split(sep)] for a separator [sep] of one code unit. *)
Fixpoint splitOn (sep : N) (s : jsstring) : list jsstring :=
  match s with
  | [] => [[]]
  | c :: s' =>
      if c =? sep then [] :: splitOn sep s'
      else consHead c (splitOn sep s')
  end.

(** [pieces.join(sep)] *)
Fixpoint join (sep : jsstring) (pieces : list jsstring) : jsstring :=
  match pieces with
  | [] => []
  | [t] => t
  | t :: ts => t ++ sep ++ join sep ts
  end.

Fixpoint startsWith (pat s : jsstring) : bool :=
  match pat, s with
  | [], _ => true
  | _ :: _, [] => false
  | p :: pat', c :: s' => (p =? c) && startsWith pat' s'
  end.

(** [s.replace(pat, repl)] with a string pattern: only the first
    occurrence is replaced ([repl] holds no [$] pattern here). *)
Fixpoint replace (pat repl s : jsstring) : jsstring :=
  match s with
  | [] => if startsWith pat [] then repl else []
  | c :: s' =>
      if startsWith pat s then repl ++ drop (length pat) s
      else c :: replace pat repl s'
  end.

End JsString.

(** ** ui/src/lib/secrets.ts *)

Module Secrets.
Import JsString.

Definition hyphen : N := 45.
Definition space : N := 32.

(** [`sharefeed-${passphrase.trim().split(/\s+/).join('-')}`] *)
Definition passphraseToNetworkSeed (passphrase : jsstring) : jsstring :=
  js "sharefeed-" ++ join [hyphen] (splitWs (trim passphrase)).

(** [seed.replace('sharefeed-', '').split('-').join(' ')] *)
Definition networkSeedToPassphrase (seed : jsstring) : jsstring :=
  join [space] (splitOn hyphen (replace (js "sharefeed-") [] seed)).

(** The three error strings of [validatePassphrase]. *)
Inductive PassphraseError :=
| PassphraseRequired            (* 'Passphrase is required' *)
| WrongWordCount (got : nat)    (* `Passphrase must be exactly 5 words (got ${got})` *)
| EmptyWord.                    (* 'Each word must have at least one character' *)

(** The text of an error. *)
Definition errorMessage (e : PassphraseError) : jsstring :=
  match e with
  | PassphraseRequired => js "Passphrase is required"
  | WrongWordCount got =>
      js "Passphrase must be exactly 5 words (got " ++ js (pretty got) ++ js ")"
  | EmptyWord => js "Each word must have at least one character"
  end.

(** [{ valid: boolean; error?: string }] *)
Record Validation := { valid : bool; error : option PassphraseError }.

Definition validatePassphrase (passphrase : jsstring) : Validation :=
  let trimmed := trim passphrase in
  match trimmed with
  | [] => {| valid := false; error := Some PassphraseRequired |}
  | _ :: _ =>
      let words := splitWs trimmed in
      if negb (Nat.eqb (length words) 5) then
        {| valid := false; error := Some (WrongWordCount (length words)) |}
      else if negb (forallb (fun word => Nat.ltb 0 (length word)) words) then
        {| valid := false; error := Some EmptyWord |}
      else {| valid := true; error := None |}
  end.

Definition isValidPassphrase (passphrase : jsstring) : bool :=
  valid (validatePassphrase passphrase).

End Secrets.

(** ** Base64 as used for cell identifiers *)

Module Base64.

(** The standard alphabet [A-Za-z0-9+/]. *)
Definition b64Char (v : N) : N :=
  if v <? 26 then 65 + v
  else if v <? 52 then 97 + (v - 26)
  else if v <? 62 then 48 + (v - 52)
  else if v =? 62 then 43 else 47.

Definition b64Value (c : N) : option N :=
  if (65 <=? c) && (c <=? 90) then Some (c - 65)
  else if (97 <=? c) && (c <=? 122) then Some (c - 97 + 26)
  else if (48 <=? c) && (c <=? 57) then Some (c - 48 + 52)
  else if c =? 43 then Some 62
  else if c =? 47 then Some 63
  else None.

Definition pad : N := 61.

(** Padded base64 of a byte sequence, three bytes to four characters. *)
Fixpoint fromUint8ArrayStd (bytes : list byte) : jsstring :=
  match bytes with
  | [] => []
  | [a] =>
      let n := N.shiftl (Byte.to_N a) 16 in
      [b64Char (N.land (N.shiftr n 18) 63); b64Char (N.land (N.shiftr n 12) 63);
       pad; pad]
  | [a; b] =>
      let n := N.lor (N.shiftl (Byte.to_N a) 16) (N.shiftl (Byte.to_N b) 8) in
      [b64Char (N.land (N.shiftr n 18) 63); b64Char (N.land (N.shiftr n 12) 63);
       b64Char (N.land (N.shiftr n 6) 63); pad]
  | a :: b :: c :: rest =>
      let n := N.lor (N.lor (N.shiftl (Byte.to_N a) 16) (N.shiftl (Byte.to_N b) 8))
                     (Byte.to_N c) in
      [b64Char (N.land (N.shiftr n 18) 63); b64Char (N.land (N.shiftr n 12) 63);
       b64Char (N.land (N.shiftr n 6) 63); b64Char (N.land n 63)]
      ++ fromUint8ArrayStd rest
  end.

(** The URL-safe rewriting of js-base64: padding removed, [+] becomes [-]
    and [/] becomes [_]. *)
Definition urlSafe (c : N) : N :=
  if c =? 43 then 45 else if c =? 47 then 95 else c.

Definition mkUriSafe (s : jsstring) : jsstring :=
  List.map urlSafe (List.filter (fun c => negb (c =? pad)) s).

(** [Base64.fromUint8Array(bytes, true)] *)
Definition fromUint8Array (bytes : list byte) : jsstring :=
  mkUriSafe (fromUint8ArrayStd bytes).

(** [encodeHashToBase64] of @holochain/client:
    [`u${Base64.fromUint8Array(hash, true)}`]. *)
Definition encodeHashToBase64 (hash : list byte) : jsstring :=
  js "u" ++ fromUint8Array hash.

Definition isAsciiWhitespace (c : N) : bool :=
  (c =? 9) || (c =? 10) || (c =? 12) || (c =? 13) || (c =? 32).

(** Removes one or two trailing [=]. *)
Definition stripPadding (s : jsstring) : jsstring :=
  match rev s with
  | a :: b :: r => if a =? pad then (if b =? pad then rev r else rev (b :: r)) else s
  | _ => s
  end.

Fixpoint sextets (s : jsstring) : option (list N) :=
  match s with
  | [] => Some []
  | c :: s' =>
      match b64Value c, sextets s' with
      | Some v, Some vs => Some (v :: vs)
      | _, _ => None
      end
  end.

Fixpoint decodeSextets (vs : list N) : list N :=
  match vs with
  | a :: b :: c :: d :: rest =>
      let n := N.lor (N.lor (N.shiftl a 18) (N.shiftl b 12)) (N.lor (N.shiftl c 6) d) in
      [N.land (N.shiftr n 16) 255; N.land (N.shiftr n 8) 255; N.land n 255]
      ++ decodeSextets rest
  | [a; b; c] =>
      let n := N.lor (N.lor (N.shiftl a 12) (N.shiftl b 6)) c in
      [N.land (N.shiftr n 10) 255; N.land (N.shiftr n 2) 255]
  | [a; b] =>
      let n := N.lor (N.shiftl a 6) b in
      [N.land (N.shiftr n 4) 255]
  | _ => []
  end.

(** [atob(data)], the forgiving-base64 decoding of the web platform; the
    [InvalidCharacterError] it throws is [None].  The result is a binary
    string, one code unit below 256 per decoded byte. *)
Definition atob (data : jsstring) : option jsstring :=
  let data := List.filter (fun c => negb (isAsciiWhitespace c)) data in
  let data := if Nat.eqb (length data mod 4) 0 then stripPadding data else data in
  if Nat.eqb (length data mod 4) 1 then None
  else match sextets data with
       | Some vs => Some (decodeSextets vs)
       | None => None
       end.

(** A character of the URL-safe alphabet [A-Za-z0-9-_]. *)
Definition isUrlChar (c : N) : bool :=
  ((65 <=? c) && (c <=? 90)) || ((97 <=? c) && (c <=? 122))
  || ((48 <=? c) && (c <=? 57)) || (c =? 45) || (c =? 95).

(** [Uint8Array.from(str, c => c.charCodeAt(0))] *)
Definition uint8ArrayFromString (s : jsstring) : list byte :=
  List.map (fun c => default x00 (Byte.of_N (c mod 256))) s.

End Base64.

(** ** ui/src/lib/holochain/networks.ts *)

Module Registry.
Import JsString Secrets Base64.

(** [CellId = [DnaHash, AgentPubKey]], two byte arrays. *)
Definition CellId : Type := list byte * list byte.

Definition colon : N := 58.

Definition cellIdToString (cellId : CellId) : jsstring :=
  encodeHashToBase64 (fst cellId) ++ [colon] ++ encodeHashToBase64 (snd cellId).

(** [const [dnaHash, agentPubKey] = cellIdString.split(':')]: a missing
    second piece is [undefined], which [atob] reads as the string
    ["undefined"].  [None] stands for the exception of [atob]. *)
Definition cellIdFromString (cellIdString : jsstring) : option CellId :=
  let pieces := splitOn colon cellIdString in
  let dnaHash := default (js "undefined") (pieces !! 0%nat) in
  let agentPubKey := default (js "undefined") (pieces !! 1%nat) in
  match atob dnaHash with
  | None => None
  | Some dnaStr =>
      match atob agentPubKey with
      | None => None
      | Some agentStr =>
          Some (uint8ArrayFromString dnaStr, uint8ArrayFromString agentStr)
      end
  end.

(** JavaScript truthiness of a string, and [a || b] on strings. *)
Definition truthy (s : jsstring) : bool :=
  match s with [] => false | _ :: _ => true end.

Definition orElse (a b : jsstring) : jsstring := if truthy a then a else b.

(** [interface Network] *)
Record Network := {
  cellId : CellId;
  cellIdString : jsstring;
  name : jsstring;
  passphrase : jsstring;
  joinedAt : N;
  isActive : bool
}.

(** [interface NetworkLocalData] *)
Record NetworkLocalData := {
  local_cellIdString : jsstring;
  local_name : jsstring;
  local_passphrase : jsstring;
  local_joinedAt : N
}.

(** What the conductor reports of a cell.  The optional chaining of
    [cloned.dna_modifiers?.network_seed] allows both the modifiers and the
    seed to be missing. *)
Record DnaModifiers := { network_seed : option jsstring }.

Record ClonedCell := {
  cell_id : CellId;
  dna_modifiers : option DnaModifiers;
  cloned_name : jsstring
}.

Inductive CellInfo :=
| provisioned (cell : CellId)
| cloned (cell : ClonedCell)
| stem.

Definition ROLE_NAME : jsstring := js "sharefeed".

Record AppInfo := { cell_info : gmap jsstring (list CellInfo) }.

(** The two keys of [localStorage] the application uses; [None] is a key
    that is not set. *)
Record LocalStorage := {
  sharefeed_networks : option (list NetworkLocalData);
  sharefeed_active_network : option jsstring
}.

Definition loadNetworksLocally (ls : LocalStorage) : list NetworkLocalData :=
  match sharefeed_networks ls with
  | Some stored => stored
  | None => []
  end.

Definition setNetworks (data : list NetworkLocalData) (ls : LocalStorage) : LocalStorage :=
  {| sharefeed_networks := Some data;
     sharefeed_active_network := sharefeed_active_network ls |}.

Definition setActive (value : jsstring) (ls : LocalStorage) : LocalStorage :=
  {| sharefeed_networks := sharefeed_networks ls;
     sharefeed_active_network := Some value |}.

Definition sameId (k : jsstring) (n : NetworkLocalData) : bool :=
  bool_decide (local_cellIdString n = k).

(** [data.findIndex(...)] followed by [data[existing] = localData] or
    [data.push(localData)]. *)
Fixpoint replaceOrPush (localData : NetworkLocalData) (data : list NetworkLocalData)
  : list NetworkLocalData :=
  match data with
  | [] => [localData]
  | n :: rest =>
      if sameId (local_cellIdString localData) n then localData :: rest
      else n :: replaceOrPush localData rest
  end.

Definition saveNetworkLocally (network : Network) (ls : LocalStorage) : LocalStorage :=
  let data := loadNetworksLocally ls in
  let localData :=
    {| local_cellIdString := cellIdString network;
       local_name := name network;
       local_passphrase := passphrase network;
       local_joinedAt := joinedAt network |} in
  setNetworks (replaceOrPush localData data) ls.

Definition removeNetworkLocally (k : jsstring) (ls : LocalStorage) : LocalStorage :=
  let data := loadNetworksLocally ls in
  setNetworks (List.filter (fun n => negb (sameId k n)) data) ls.

(** [network.name = name] on the first record found. *)
Fixpoint renameFirst (k newName : jsstring) (data : list NetworkLocalData)
  : list NetworkLocalData :=
  match data with
  | [] => []
  | n :: rest =>
      if sameId k n then
        {| local_cellIdString := local_cellIdString n;
           local_name := newName;
           local_passphrase := local_passphrase n;
           local_joinedAt := local_joinedAt n |} :: rest
      else n :: renameFirst k newName rest
  end.

Definition updateNetworkName (k newName : jsstring) (ls : LocalStorage) : LocalStorage :=
  let data := loadNetworksLocally ls in
  match List.find (sameId k) data with
  | Some _ => setNetworks (renameFirst k newName data) ls
  | None => ls
  end.

(** The network built from a clone that the conductor returned on
    [createCloneCell]. *)
Definition networkOfClone (clonedCell : ClonedCell) (name passphrase : jsstring) (now : N)
  : Network :=
  {| cellId := cell_id clonedCell;
     cellIdString := cellIdToString (cell_id clonedCell);
     name := name;
     passphrase := passphrase;
     joinedAt := now;
     isActive := false |}.

(** [createNetwork(appClient, name, passphrase?)] once [createCloneCell]
    has answered with [clonedCell]; [generated] is what
    [generatePassphrase()] returns, [now] is [Date.now()]. *)
Definition createNetwork (name : jsstring) (passphrase : option jsstring)
    (generated : jsstring) (clonedCell : ClonedCell) (now : N) (ls : LocalStorage)
  : Network * LocalStorage :=
  let finalPassphrase :=
    match passphrase with
    | Some p => if truthy p then p else generated
    | None => generated
    end in
  let network := networkOfClone clonedCell name finalPassphrase now in
  (network, saveNetworkLocally network ls).

(** [joinNetwork(appClient, passphrase, name = 'Shared Feed')] once
    [createCloneCell] has answered. *)
Definition joinNetwork (passphrase : jsstring) (name : option jsstring)
    (clonedCell : ClonedCell) (now : N) (ls : LocalStorage)
  : Network * LocalStorage :=
  let network :=
    networkOfClone clonedCell (default (js "Shared Feed") name) passphrase now in
  (network, saveNetworkLocally network ls).

(** [disableNetwork(appClient, cellId)] once [disableCloneCell] has
    answered. *)
Definition disableNetwork (cellId : CellId) (ls : LocalStorage) : LocalStorage :=
  let cellIdString := cellIdToString cellId in
  removeNetworkLocally cellIdString ls.

(** One turn of the loop of [getNetworks]; [now] is [Date.now()] at this
    cell. *)
Definition pushNetwork (localData : list NetworkLocalData) (now : N)
    (networks : list Network) (cell : CellInfo) : list Network :=
  match cell with
  | cloned clonedCell =>
      let cellId := cell_id clonedCell in
      let cellIdString := cellIdToString cellId in
      let local := List.find (sameId cellIdString) localData in
      let passphrase := default [] (local_passphrase <$> local) in
      let passphrase :=
        match dna_modifiers clonedCell ≫= network_seed with
        | Some seed =>
            if negb (truthy passphrase) && truthy seed
            then networkSeedToPassphrase seed else passphrase
        | None => passphrase
        end in
      networks ++
      [{| cellId := cellId;
          cellIdString := cellIdString;
          name := orElse (default [] (local_name <$> local))
                         (orElse (cloned_name clonedCell) (js "Unnamed Network"));
          passphrase := passphrase;
          joinedAt := match local_joinedAt <$> local with
                      | Some t => if t =? 0 then now else t
                      | None => now
                      end;
          isActive := false |}]
  | _ => networks
  end.

Fixpoint getNetworksLoop (localData : list NetworkLocalData) (now : nat → N)
    (i : nat) (cells : list CellInfo) (networks : list Network) : list Network :=
  match cells with
  | [] => networks
  | cell :: rest =>
      getNetworksLoop localData now (S i) rest
        (pushNetwork localData (now i) networks cell)
  end.

(** [getNetworks(appClient)] once [appClient.appInfo()] has answered with
    [appInfo]; [now i] is the clock at the [i]-th reported cell. *)
Definition getNetworks (appInfo : option AppInfo) (ls : LocalStorage) (now : nat → N)
  : list Network :=
  match appInfo with
  | None => []
  | Some appInfo =>
      let cells := default [] (cell_info appInfo !! ROLE_NAME) in
      let localData := loadNetworksLocally ls in
      getNetworksLoop localData now 0 cells []
  end.

End Registry.

(** ** The session: connection, durable store, the two stores *)

Module Session.
Import JsString Registry.

(** [export const ZOME_NAME = 'sharefeed'] of
    [ui/src/lib/holochain/client.ts], next to [ROLE_NAME]. *)
Definition ZOME_NAME : jsstring := js "sharefeed".

(** Modelled from the spec: the field [client_cellId].  Both stores drive
    the client through [setCellId] and [hasCellId], which [class
    ShareFeedClient] of [ui/src/lib/holochain/client.ts] at hand does not
    define; section 6 of the specification gives their contract,
    [retarget(partitionId)].  The field is the cell last handed to
    [setCellId], none at first; no method of the class at hand reads it.
    The fields [roleName] and [zomeName] are those of the class; its
    [client : AppClient] is the connection to the conductor. *)
Record ShareFeedClient := {
  roleName : jsstring;
  zomeName : jsstring;
  client_cellId : option CellId
}.

(** [new ShareFeedClient(client)], as [connect] of
    [ui/src/lib/holochain/connection.ts] builds it: the role and the zome
    are the defaults of the constructor. *)
Definition newShareFeedClient : ShareFeedClient :=
  {| roleName := ROLE_NAME; zomeName := ZOME_NAME; client_cellId := None |}.

(** Modelled from the spec: [setCellId], missing from [client.ts]; the
    [retarget(partitionId)] of section 6.  The networks store also passes
    [null] when no network is left. *)
Definition setCellId (cellId : option CellId) (c : ShareFeedClient) : ShareFeedClient :=
  {| roleName := roleName c; zomeName := zomeName c; client_cellId := cellId |}.

(** Modelled from the spec: [hasCellId], missing from [client.ts]; whether
    the client has been retargeted to a partition. *)
Definition hasCellId (c : ShareFeedClient) : bool :=
  match client_cellId c with Some _ => true | None => false end.

(** [interface AppCallZomeRequest], as [callZome] fills it in: the call is
    addressed by the name of a role, and no field names a cell. *)
Record AppCallZomeRequest (Payload : Type) := {
  role_name : jsstring;
  zome_name : jsstring;
  fn_name : jsstring;
  payload : Payload
}.
Arguments role_name {Payload} _.
Arguments zome_name {Payload} _.
Arguments fn_name {Payload} _.
Arguments payload {Payload} _.

(** [callZome(fnName, payload)] of [class ShareFeedClient], up to
    [this.client.callZome(req)]: the request handed to the conductor. *)
Definition callZome {Payload : Type} (this : ShareFeedClient) (fnName : jsstring)
    (payload : Payload) : AppCallZomeRequest Payload :=
  {| role_name := roleName this; zome_name := zomeName this;
     fn_name := fnName; payload := payload |}.

(** The calls of the shares store, up to the same point.
    [getRecentShares()] passes [null] as payload. *)
Definition createShareItem {ShareItem : Type} (this : ShareFeedClient)
    (shareItem : ShareItem) : AppCallZomeRequest ShareItem :=
  callZome this (js "create_share_item") shareItem.
Definition deleteShareItem {ActionHash : Type} (this : ShareFeedClient)
    (actionHash : ActionHash) : AppCallZomeRequest ActionHash :=
  callZome this (js "delete_share_item") actionHash.

(** A rejected promise: [Some message] when the reason is an [Error]. *)
Definition Rejection : Type := option jsstring.

(** [err instanceof Error ? err.message : fallback] *)
Definition messageOf (err : Rejection) (fallback : jsstring) : jsstring :=
  default fallback err.

(** How an awaited promise settles. *)
Inductive Settled (A : Type) :=
| Fulfilled (value : A)
| Rejected (err : Rejection).
Arguments Fulfilled {A} value.
Arguments Rejected {A} err.

(** [interface NetworksStoreState] *)
Record NetworksStoreState := {
  networks : list Network;
  activeNetworkId : option jsstring;
  loading : bool;
  error : option jsstring
}.

Definition initialState : NetworksStoreState :=
  {| networks := []; activeNetworkId := None; loading := false; error := None |}.

Section State.
Context {ShareItem : Type}.

(** The writable stores and closure variables of [createSharesStore]. *)
Record SharesStoreState := {
  _shares : list ShareItem;
  _loading : bool;
  _error : option jsstring;
  _connected : bool;
  _hasNetwork : bool;
  _cache : gmap jsstring (list ShareItem);
  _currentNetworkId : option jsstring;
  client : bool          (* the store holds the [ShareFeedClient] *)
}.

(** An operation suspended at an [await] on the conductor, with the
    values its continuation has captured. *)
Inductive Pending :=
| AwaitGetNetworks
| AwaitCreateNetwork (name : jsstring) (passphrase : option jsstring)
| AwaitJoinNetwork (passphrase : jsstring) (name : option jsstring)
| AwaitDisableNetwork (cellIdString : jsstring) (network : Network)
| AwaitConnect (connected : bool)
| AwaitFetchAndCache (cellIdString : jsstring) (target : option CellId)
| AwaitRefreshInBackground (cellIdString : jsstring) (target : option CellId)
| AwaitRefresh (target : option CellId)
| AwaitCreateShare (target : option CellId)
| AwaitDeleteShare (id : jsstring) (currentShares : list ShareItem)
                   (target : option CellId).

Record World := {
  shareFeedClient : option ShareFeedClient;   (* connection.ts *)
  localStorage : LocalStorage;
  _state : NetworksStoreState;                (* stores/networks.ts *)
  sharesStore : SharesStoreState;             (* stores/shares.ts *)
  pending : list Pending
}.

Definition initialShares : SharesStoreState :=
  {| _shares := []; _loading := true; _error := None; _connected := false;
     _hasNetwork := false; _cache := ∅; _currentNetworkId := None;
     client := false |}.

(** The session when the page loads: only the durable store carries over. *)
Definition initialWorld (ls : LocalStorage) : World :=
  {| shareFeedClient := None; localStorage := ls; _state := initialState;
     sharesStore := initialShares; pending := [] |}.

(** *** Field updates *)

Definition set_shares (v : list ShareItem) (s : SharesStoreState) :=
  {| _shares := v; _loading := _loading s; _error := _error s;
     _connected := _connected s; _hasNetwork := _hasNetwork s; _cache := _cache s;
     _currentNetworkId := _currentNetworkId s; client := client s |}.
Definition set_loading (v : bool) (s : SharesStoreState) :=
  {| _shares := _shares s; _loading := v; _error := _error s;
     _connected := _connected s; _hasNetwork := _hasNetwork s; _cache := _cache s;
     _currentNetworkId := _currentNetworkId s; client := client s |}.
Definition set_error (v : option jsstring) (s : SharesStoreState) :=
  {| _shares := _shares s; _loading := _loading s; _error := v;
     _connected := _connected s; _hasNetwork := _hasNetwork s; _cache := _cache s;
     _currentNetworkId := _currentNetworkId s; client := client s |}.
Definition set_connected (v : bool) (s : SharesStoreState) :=
  {| _shares := _shares s; _loading := _loading s; _error := _error s;
     _connected := v; _hasNetwork := _hasNetwork s; _cache := _cache s;
     _currentNetworkId := _currentNetworkId s; client := client s |}.
Definition set_hasNetwork (v : bool) (s : SharesStoreState) :=
  {| _shares := _shares s; _loading := _loading s; _error := _error s;
     _connected := _connected s; _hasNetwork := v; _cache := _cache s;
     _currentNetworkId := _currentNetworkId s; client := client s |}.
Definition set_cache (v : gmap jsstring (list ShareItem)) (s : SharesStoreState) :=
  {| _shares := _shares s; _loading := _loading s; _error := _error s;
     _connected := _connected s; _hasNetwork := _hasNetwork s; _cache := v;
     _currentNetworkId := _currentNetworkId s; client := client s |}.
Definition set_currentNetworkId (v : option jsstring) (s : SharesStoreState) :=
  {| _shares := _shares s; _loading := _loading s; _error := _error s;
     _connected := _connected s; _hasNetwork := _hasNetwork s; _cache := _cache s;
     _currentNetworkId := v; client := client s |}.
Definition set_client (v : bool) (s : SharesStoreState) :=
  {| _shares := _shares s; _loading := _loading s; _error := _error s;
     _connected := _connected s; _hasNetwork := _hasNetwork s; _cache := _cache s;
     _currentNetworkId := _currentNetworkId s; client := v |}.

Definition with_shareFeedClient (v : option ShareFeedClient) (w : World) :=
  {| shareFeedClient := v; localStorage := localStorage w; _state := _state w;
     sharesStore := sharesStore w; pending := pending w |}.
Definition with_localStorage (v : LocalStorage) (w : World) :=
  {| shareFeedClient := shareFeedClient w; localStorage := v; _state := _state w;
     sharesStore := sharesStore w; pending := pending w |}.
Definition with_state (v : NetworksStoreState) (w : World) :=
  {| shareFeedClient := shareFeedClient w; localStorage := localStorage w;
     _state := v; sharesStore := sharesStore w; pending := pending w |}.
Definition with_sharesStore (v : SharesStoreState) (w : World) :=
  {| shareFeedClient := shareFeedClient w; localStorage := localStorage w;
     _state := _state w; sharesStore := v; pending := pending w |}.
Definition with_pending (v : list Pending) (w : World) :=
  {| shareFeedClient := shareFeedClient w; localStorage := localStorage w;
     _state := _state w; sharesStore := sharesStore w; pending := v |}.

(** [_state.update(f)] and the same for the shares store. *)
Definition update (f : NetworksStoreState → NetworksStoreState) (w : World) : World :=
  with_state (f (_state w)) w.
Definition updateShares (f : SharesStoreState → SharesStoreState) (w : World) : World :=
  with_sharesStore (f (sharesStore w)) w.

(** The operation suspends: its continuation joins the pending ones. *)
Definition await (p : Pending) (w : World) : World :=
  with_pending (pending w ++ [p]) w.

(** The [i]-th pending operation is taken up again. *)
Definition resume (i : nat) (w : World) : World :=
  with_pending (delete i (pending w)) w.

(** [getClient()] and [client?.setCellId(cellId)] on the one client of the
    connection. *)
Definition getClient (w : World) : option ShareFeedClient := shareFeedClient w.
Definition getAppClient (w : World) : bool :=
  match shareFeedClient w with Some _ => true | None => false end.
Definition clientSetCellId (cellId : option CellId) (w : World) : World :=
  with_shareFeedClient (setCellId cellId <$> shareFeedClient w) w.

(** Modelled from the spec: the cell the client of the connection was last
    retargeted to, which a call of the shares store carries along while it
    is suspended.  [callZome] does not read it. *)
Definition currentTarget (w : World) : option CellId :=
  shareFeedClient w ≫= client_cellId.

End State.

Arguments SharesStoreState : clear implicits.
Arguments Pending : clear implicits.
Arguments World : clear implicits.

End Session.

(** ** The shares store, with its per-network cache *)

Module SharesStore.
Import JsString Registry Session.

Section Store.
Context {ShareItemInfo ShareItem : Type}.
Variable toShareItem : ShareItemInfo → ShareItem.
Variable shareId : ShareItem → jsstring.     (* [ShareItem.id] *)
Variable browser : bool.

Local Abbreviation World := (World ShareItem).
Local Abbreviation SharesStoreState := (SharesStoreState ShareItem).

(** [if (!client) { client = getClient(); if (!client) return; }]:
    [None] is the early return. *)
Definition acquireClient (w : World) : option World :=
  if client (sharesStore w) then Some w
  else match getClient w with
       | Some _ => Some (updateShares (set_client true) w)
       | None => None
       end.

Definition displayed (k : jsstring) (w : World) : bool :=
  bool_decide (_currentNetworkId (sharesStore w) = Some k).

Definition cachePut (k : jsstring) (shares : list ShareItem) (w : World) : World :=
  updateShares (fun s => set_cache (<[k := shares]> (_cache s)) s) w.

Definition init (w : World) : World :=
  if negb browser then w
  else
    let w := updateShares (set_loading true) w in
    let w := updateShares (set_error None) w in
    let w := updateShares (set_hasNetwork false) w in
    await (AwaitConnect (getAppClient w)) w.

(** [client = await connect()] has settled.  [connect] hands out the
    client it found when it was called, or installs a new one. *)
Definition init_resumed (connected : bool) (outcome : Settled ()) (w : World) : World :=
  let w :=
    match outcome with
    | Fulfilled _ =>
        let w := if connected then w
                 else with_shareFeedClient (Some newShareFeedClient) w in
        let w := updateShares (set_client true) w in
        updateShares (set_connected true) w
    | Rejected err =>
        let w := updateShares
                   (set_error (Some (messageOf err (js "Failed to connect to Holochain")))) w in
        updateShares (set_connected false) w
    end in
  updateShares (set_loading false) w.

(** [fetchAndCacheShares] up to its [await client.getRecentShares()]. *)
Definition fetchAndCacheShares (cellIdString : jsstring) (w : World) : World :=
  if negb (client (sharesStore w)) then w
  else await (AwaitFetchAndCache cellIdString (currentTarget w)) w.

Definition fetchAndCacheShares_resumed (cellIdString : jsstring)
    (outcome : Settled (list ShareItemInfo)) (w : World) : World :=
  match outcome with
  | Fulfilled shareInfos =>
      let shares := List.map toShareItem shareInfos in
      let w := if displayed cellIdString w
               then updateShares (set_loading false) (updateShares (set_shares shares) w)
               else w in
      cachePut cellIdString shares w
  | Rejected err =>
      if displayed cellIdString w
      then updateShares (set_loading false)
             (updateShares (set_error (Some (messageOf err (js "Failed to load shares")))) w)
      else w
  end.

(** [refreshInBackground] up to its [await client.getRecentShares()]. *)
Definition refreshInBackground (cellIdString : jsstring) (w : World) : World :=
  if negb (client (sharesStore w)) then w
  else await (AwaitRefreshInBackground cellIdString (currentTarget w)) w.

Definition refreshInBackground_resumed (cellIdString : jsstring)
    (outcome : Settled (list ShareItemInfo)) (w : World) : World :=
  match outcome with
  | Fulfilled shareInfos =>
      let shares := List.map toShareItem shareInfos in
      let w := if displayed cellIdString w
               then updateShares (set_shares shares) w
               else w in
      cachePut cellIdString shares w
  | Rejected err => w        (* only logged *)
  end.

(** [switchNetwork] up to the first suspension. *)
Definition switchNetwork (cellIdString : jsstring) (w : World) : World :=
  match acquireClient w with
  | None => w
  | Some w =>
      let w := updateShares (set_currentNetworkId (Some cellIdString)) w in
      let w := updateShares (set_hasNetwork true) w in
      let w := updateShares (set_error None) w in
      match _cache (sharesStore w) !! cellIdString with
      | Some cachedShares =>
          let w := updateShares (set_shares cachedShares) w in
          refreshInBackground cellIdString w
      | None =>
          let w := updateShares (set_loading true) w in
          let w := updateShares (set_shares []) w in
          fetchAndCacheShares cellIdString w
      end
  end.

(** [refresh] up to its [await client.getRecentShares()]. *)
Definition refresh (w : World) : World :=
  match acquireClient w with
  | None => w
  | Some w =>
      if negb (default false (hasCellId <$> getClient w)) then
        let w := updateShares (set_shares []) w in
        let w := updateShares (set_hasNetwork false) w in
        let w := updateShares (set_loading false) w in
        updateShares (set_currentNetworkId None) w
      else
        let w := updateShares (set_hasNetwork true) w in
        let w := updateShares (set_loading true) w in
        let w := updateShares (set_error None) w in
        await (AwaitRefresh (currentTarget w)) w
  end.

Definition refresh_resumed (outcome : Settled (list ShareItemInfo)) (w : World) : World :=
  let w :=
    match outcome with
    | Fulfilled shareInfos =>
        let shares := List.map toShareItem shareInfos in
        let w := updateShares (set_shares shares) w in
        match _currentNetworkId (sharesStore w) with
        | Some k => if truthy k then cachePut k shares w else w
        | None => w
        end
    | Rejected err =>
        updateShares (set_error (Some (messageOf err (js "Failed to load shares")))) w
    end in
  updateShares (set_loading false) w.

(** [createShare] up to its [await client.createShareItem(...)]. *)
Definition createShare (w : World) : World :=
  if negb (client (sharesStore w)) then w
  else await (AwaitCreateShare (currentTarget w)) w.

Definition createShare_resumed (outcome : Settled ()) (w : World) : World :=
  match outcome with
  | Fulfilled _ => refresh w
  | Rejected err =>
      updateShares (set_error (Some (messageOf err (js "Failed to create share")))) w
  end.

Definition otherShare (id : jsstring) (s : ShareItem) : bool :=
  negb (bool_decide (shareId s = id)).

(** [deleteShare] up to its [await client.deleteShareItem(...)]. *)
Definition deleteShare (id : jsstring) (w : World) : World :=
  if negb (client (sharesStore w)) then w
  else
    let currentShares := _shares (sharesStore w) in
    match List.find (fun s => bool_decide (shareId s = id)) currentShares with
    | None => w
    | Some share => await (AwaitDeleteShare id currentShares (currentTarget w)) w
    end.

Definition deleteShare_resumed (id : jsstring) (currentShares : list ShareItem)
    (outcome : Settled ()) (w : World) : World :=
  match outcome with
  | Fulfilled _ =>
      updateShares (set_shares (List.filter (otherShare id) currentShares)) w
  | Rejected err =>
      updateShares (set_error (Some (messageOf err (js "Failed to delete share")))) w
  end.

End Store.
End SharesStore.

(** ** The networks store: ui/src/lib/stores/networks.ts *)

Module NetworksStore.
Import JsString Registry Session.

(** [n.cellIdString === id] for an [id] that may be [null]. *)
Definition hasId (id : option jsstring) (n : Network) : bool :=
  bool_decide (Some (cellIdString n) = id).

(** [{ ...n, isActive: n.cellIdString === id }] *)
Definition markActive (id : option jsstring) (n : Network) : Network :=
  {| cellId := cellId n; cellIdString := cellIdString n; name := name n;
     passphrase := passphrase n; joinedAt := joinedAt n;
     isActive := hasId id n |}.

(** [{ ...n, name }] *)
Definition withName (newName : jsstring) (n : Network) : Network :=
  {| cellId := cellId n; cellIdString := cellIdString n; name := newName;
     passphrase := passphrase n; joinedAt := joinedAt n;
     isActive := isActive n |}.

(** Truthiness of a [string | null]. *)
Definition truthyId (id : option jsstring) : bool :=
  match id with Some k => truthy k | None => false end.

Definition set_networks (v : list Network) (s : NetworksStoreState) :=
  {| networks := v; activeNetworkId := activeNetworkId s;
     loading := loading s; error := error s |}.
Definition set_activeNetworkId (v : option jsstring) (s : NetworksStoreState) :=
  {| networks := networks s; activeNetworkId := v;
     loading := loading s; error := error s |}.
Definition set_loading (v : bool) (s : NetworksStoreState) :=
  {| networks := networks s; activeNetworkId := activeNetworkId s;
     loading := v; error := error s |}.
Definition set_error (v : option jsstring) (s : NetworksStoreState) :=
  {| networks := networks s; activeNetworkId := activeNetworkId s;
     loading := loading s; error := v |}.

Section Store.
Context {ShareItem : Type}.
Variable browser : bool.       (* [typeof window !== 'undefined'] *)

Local Abbreviation World := (World ShareItem).

(** [localStorage.setItem(ACTIVE_NETWORK_KEY, value)] *)
Definition persistActive (value : jsstring) (w : World) : World :=
  with_localStorage (setActive value (localStorage w)) w.

(** [setActiveNetwork]; it suspends only inside [sharesStore.switchNetwork]. *)
Definition setActiveNetwork (cellIdString : jsstring) (w : World) : World :=
  let state := _state w in
  match List.find (hasId (Some cellIdString)) (networks state) with
  | None => w
  | Some network =>
      let w := clientSetCellId (Some (cellId network)) w in
      let w := persistActive cellIdString w in
      let w := update (fun s =>
                 set_networks (List.map (markActive (Some cellIdString)) (networks s))
                   (set_activeNetworkId (Some cellIdString) s)) w in
      SharesStore.switchNetwork cellIdString w
  end.

(** [init] up to its [await getNetworksApi(appClient)]. *)
Definition init (w : World) : World :=
  if negb browser then w
  else
    let w := update (fun s => set_error None (set_loading true s)) w in
    if getAppClient w then await AwaitGetNetworks w
    else update (fun s =>
           set_error (Some (js "Not connected to Holochain")) (set_loading false s)) w.

(** [appClient.appInfo()] has settled; [now] is the clock of
    [getNetworks]. *)
Definition init_resumed (outcome : Settled (option AppInfo)) (now : nat → N)
    (w : World) : World :=
  match outcome with
  | Rejected err =>
      update (fun s =>
        set_error (Some (messageOf err (js "Failed to load networks")))
                  (set_loading false s)) w
  | Fulfilled appInfo =>
      let networks := getNetworks appInfo (localStorage w) now in
      let activeNetworkId := sharefeed_active_network (localStorage w) in
      let activeNetworkId :=
        if truthyId activeNetworkId
           && negb (bool_decide (is_Some (List.find (hasId activeNetworkId) networks)))
        then None else activeNetworkId in
      let activeNetworkId :=
        if negb (truthyId activeNetworkId) && Nat.ltb 0 (length networks)
        then cellIdString <$> head networks else activeNetworkId in
      let networksWithActive := List.map (markActive activeNetworkId) networks in
      let w := with_state
                 {| networks := networksWithActive; activeNetworkId := activeNetworkId;
                    loading := false; error := None |} w in
      match activeNetworkId with
      | Some id =>
          if truthy id then
            match List.find (hasId activeNetworkId) networksWithActive with
            | Some activeNet =>
                let w := clientSetCellId (Some (cellId activeNet)) w in
                SharesStore.switchNetwork id w
            | None => w
            end
          else w
      | None => w
      end
  end.

(** [createNetwork] up to its [await createNetworkApi(...)]. *)
Definition createNetwork (name : jsstring) (passphrase : option jsstring) (w : World)
  : World :=
  if negb (getAppClient w) then
    update (set_error (Some (js "Not connected to Holochain"))) w
  else
    let w := update (fun s => set_error None (set_loading true s)) w in
    await (AwaitCreateNetwork name passphrase) w.

(** The conductor has answered [createCloneCell] with [clonedCell];
    [generated] is the passphrase drawn when none was given, [now] the
    clock. *)
Definition createNetwork_resumed (name : jsstring) (passphrase : option jsstring)
    (outcome : Settled (jsstring * ClonedCell * N)) (w : World) : World :=
  match outcome with
  | Fulfilled (generated, clonedCell, now) =>
      let '(network, ls) :=
        Registry.createNetwork name passphrase generated clonedCell now (localStorage w) in
      let w := with_localStorage ls w in
      let w := update (fun s =>
                 set_loading false (set_networks (networks s ++ [network]) s)) w in
      setActiveNetwork (cellIdString network) w
  | Rejected err =>
      update (fun s =>
        set_error (Some (messageOf err (js "Failed to create network")))
                  (set_loading false s)) w
  end.

(** [joinNetwork] up to its [await joinNetworkApi(...)]. *)
Definition joinNetwork (passphrase : jsstring) (name : option jsstring) (w : World)
  : World :=
  if negb (getAppClient w) then
    update (set_error (Some (js "Not connected to Holochain"))) w
  else
    let w := update (fun s => set_error None (set_loading true s)) w in
    await (AwaitJoinNetwork passphrase name) w.

Definition joinNetwork_resumed (passphrase : jsstring) (name : option jsstring)
    (outcome : Settled (ClonedCell * N)) (w : World) : World :=
  match outcome with
  | Fulfilled (clonedCell, now) =>
      let '(network, ls) :=
        Registry.joinNetwork passphrase name clonedCell now (localStorage w) in
      let w := with_localStorage ls w in
      let w := update (fun s =>
                 set_loading false (set_networks (networks s ++ [network]) s)) w in
      setActiveNetwork (cellIdString network) w
  | Rejected err =>
      update (fun s =>
        set_error (Some (messageOf err (js "Failed to join network")))
                  (set_loading false s)) w
  end.

(** [leaveNetwork] up to its [await disableNetworkApi(...)]. *)
Definition leaveNetwork (cellIdString : jsstring) (w : World) : World :=
  if negb (getAppClient w) then w
  else
    match List.find (hasId (Some cellIdString)) (networks (_state w)) with
    | None => w
    | Some network => await (AwaitDisableNetwork cellIdString network) w
    end.

(** [remaining[0]?.cellIdString || null] *)
Definition firstId (remaining : list Network) : option jsstring :=
  match head remaining with
  | Some n => if truthy (Registry.cellIdString n) then Some (Registry.cellIdString n) else None
  | None => None
  end.

(** The conductor has answered [disableCloneCell] for the captured
    [network]. *)
Definition leaveNetwork_resumed (cellIdString : jsstring) (network : Network)
    (outcome : Settled ()) (w : World) : World :=
  match outcome with
  | Fulfilled _ =>
      let w := with_localStorage
                 (disableNetwork (cellId network) (localStorage w)) w in
      let s := _state w in
      let remaining :=
        List.filter (fun n => negb (hasId (Some cellIdString) n)) (networks s) in
      if bool_decide (activeNetworkId s = Some cellIdString) then
        let newActiveId := firstId remaining in
        let w := persistActive (default [] newActiveId) w in
        let newActive := List.find (hasId newActiveId) remaining in
        let w := clientSetCellId (cellId <$> newActive) w in
        update (fun s =>
          set_activeNetworkId newActiveId
            (set_networks (List.map (markActive newActiveId) remaining) s)) w
      else
        let newActiveId := activeNetworkId s in
        update (fun s =>
          set_activeNetworkId newActiveId
            (set_networks (List.map (markActive newActiveId) remaining) s)) w
  | Rejected err =>
      update (set_error (Some (messageOf err (js "Failed to leave network")))) w
  end.

(** [updateName]: its only [await] is on the durable store. *)
Definition updateName (cellIdString newName : jsstring) (w : World) : World :=
  let w := with_localStorage
             (updateNetworkName cellIdString newName (localStorage w)) w in
  update (fun s =>
    set_networks
      (List.map (fun n => if hasId (Some cellIdString) n then withName newName n else n)
                (networks s)) s) w.

Definition refresh (w : World) : World := init w.

Definition reset (w : World) : World := with_state initialState w.

End Store.
End NetworksStore.

(** ** Runs of the session

    The session is single-threaded and cooperative: a turn is either a call
    of a store operation, run up to its first suspension, or the
    continuation of a suspended operation once the conductor has answered.
    Turns of different operations interleave freely.  [disconnect] of
    [connection.ts], which neither store calls, is not among the turns:
    the runs are those of a session whose connection is not closed. *)

Module Run.
Import JsString Registry Session.

Section Run.
Context {ShareItemInfo ShareItem : Type}.
Variable toShareItem : ShareItemInfo → ShareItem.
Variable shareId : ShareItem → jsstring.
Variable browser : bool.

Local Abbreviation World := (World ShareItem).

(** The continuation of a suspended [getRecentShares] call. *)
Definition fetch_resumed (p : Pending ShareItem)
    (outcome : Settled (list ShareItemInfo)) (w : World) : World :=
  match p with
  | AwaitFetchAndCache k _ => SharesStore.fetchAndCacheShares_resumed toShareItem k outcome w
  | AwaitRefreshInBackground k _ =>
      SharesStore.refreshInBackground_resumed toShareItem k outcome w
  | AwaitRefresh _ => SharesStore.refresh_resumed toShareItem outcome w
  | _ => w
  end.

Definition isFetch (p : Pending ShareItem) : bool :=
  match p with
  | AwaitFetchAndCache _ _ | AwaitRefreshInBackground _ _ | AwaitRefresh _ => true
  | _ => false
  end.

(** The [i]-th pending operation, a fetch, settles with [outcome]. *)
Definition settleFetch (i : nat) (outcome : Settled (list ShareItemInfo)) (w : World)
  : World :=
  match pending w !! i with
  | Some p => if isFetch p then fetch_resumed p outcome (resume i w) else w
  | None => w
  end.

Inductive step : World → World → Prop :=
(* operations of the shares store *)
| call_shares_init w :
    step w (SharesStore.init browser w)
| call_shares_refresh w :
    step w (SharesStore.refresh w)
| call_switchNetwork k w :
    step w (SharesStore.switchNetwork k w)
| call_createShare w :
    step w (SharesStore.createShare w)
| call_deleteShare id w :
    step w (SharesStore.deleteShare shareId id w)
(* operations of the networks store *)
| call_init w :
    step w (NetworksStore.init browser w)
| call_createNetwork name passphrase w :
    step w (NetworksStore.createNetwork name passphrase w)
| call_joinNetwork passphrase name w :
    step w (NetworksStore.joinNetwork passphrase name w)
| call_setActiveNetwork k w :
    step w (NetworksStore.setActiveNetwork k w)
| call_leaveNetwork k w :
    step w (NetworksStore.leaveNetwork k w)
| call_updateName k name w :
    step w (NetworksStore.updateName k name w)
| call_reset w :
    step w (NetworksStore.reset w)
(* answers of the conductor *)
| settle_connect i connected outcome w :
    pending w !! i = Some (AwaitConnect connected) →
    step w (SharesStore.init_resumed connected outcome (resume i w))
| settle_fetch i p outcome w :
    pending w !! i = Some p → isFetch p = true →
    step w (fetch_resumed p outcome (resume i w))
| settle_createShare i target outcome w :
    pending w !! i = Some (AwaitCreateShare target) →
    step w (SharesStore.createShare_resumed outcome (resume i w))
| settle_deleteShare i id currentShares target outcome w :
    pending w !! i = Some (AwaitDeleteShare id currentShares target) →
    step w (SharesStore.deleteShare_resumed shareId id currentShares outcome (resume i w))
| settle_getNetworks i outcome now w :
    pending w !! i = Some AwaitGetNetworks →
    step w (NetworksStore.init_resumed outcome now (resume i w))
| settle_createNetwork i name passphrase outcome w :
    pending w !! i = Some (AwaitCreateNetwork name passphrase) →
    step w (NetworksStore.createNetwork_resumed name passphrase outcome (resume i w))
| settle_joinNetwork i passphrase name outcome w :
    pending w !! i = Some (AwaitJoinNetwork passphrase name) →
    step w (NetworksStore.joinNetwork_resumed passphrase name outcome (resume i w))
| settle_disableNetwork i k network outcome w :
    pending w !! i = Some (AwaitDisableNetwork k network) →
    step w (NetworksStore.leaveNetwork_resumed k network outcome (resume i w)).

(** The worlds a session can be in while its connection is not closed. *)
Definition reachable (w : World) : Prop :=
  ∃ ls, rtc step (initialWorld ls) w.

End Run.
End Run.

(** ** Properties named in the statements below *)

Module Props.
Import JsString Registry Session.

(** At most one entry of the sequence is flagged active. *)
Definition atMostOneActive (ns : list Network) : Prop :=
  ∀ i j n m, ns !! i = Some n → ns !! j = Some m →
             isActive n = true → isActive m = true → i = j.

(** The flag of every entry says whether its id is the selected one. *)
Definition activeIffSelected (s : NetworksStoreState) : Prop :=
  ∀ n, n ∈ networks s →
       (isActive n = true ↔ Some (cellIdString n) = activeNetworkId s).

(** The id of a network is the string form of its cell. *)
Definition wellFormed (n : Network) : Prop :=
  cellIdString n = cellIdToString (cellId n).

(** The cloned cells among what the conductor reports, in its order. *)
Definition clonedCells (cells : list CellInfo) : list ClonedCell :=
  omap (fun cell => match cell with cloned c => Some c | _ => None end) cells.

(** The seed the conductor exposes for a clone, if any. *)
Definition exposedSeed (c : ClonedCell) : option jsstring :=
  match dna_modifiers c ≫= network_seed with
  | Some seed => if truthy seed then Some seed else None
  | None => None
  end.

(** The passphrase the durable store holds for an id, if any. *)
Definition localPassphrase (localData : list NetworkLocalData) (k : jsstring)
  : option jsstring :=
  match List.find (sameId k) localData with
  | Some l => if truthy (local_passphrase l) then Some (local_passphrase l) else None
  | None => None
  end.

(** [p] is single-spaced: it is its own words joined by one space. *)
Definition singleSpaced (p : jsstring) : Prop :=
  join [Secrets.space] (splitWs (trim p)) = p.

(** What the join of [getNetworks] gives for the clone [c]: the id and the
    string form of its cell; the passphrase of the durable store, else the
    one decoded from the exposed seed, else the empty string; the name and
    the join time of the durable store when it has them, and without a
    stored record the name the conductor gives, if any; never the active
    flag. *)
Definition joined (localData : list NetworkLocalData) (c : ClonedCell) (n : Network)
  : Prop :=
  cellId n = cell_id c
  ∧ cellIdString n = cellIdToString (cell_id c)
  ∧ passphrase n =
      match localPassphrase localData (cellIdToString (cell_id c)) with
      | Some p => p
      | None =>
          match exposedSeed c with
          | Some seed => Secrets.networkSeedToPassphrase seed
          | None => []
          end
      end
  ∧ (∀ l, List.find (sameId (cellIdToString (cell_id c))) localData = Some l →
          (truthy (local_name l) = true → name n = local_name l)
          ∧ (local_joinedAt l ≠ 0 → joinedAt n = local_joinedAt l))
  ∧ (List.find (sameId (cellIdToString (cell_id c))) localData = None →
       name n = orElse (cloned_name c) (js "Unnamed Network"))
  ∧ isActive n = false.

Section Worlds.
Context {ShareItem : Type}.

(** The network id a fetch launched by the cache has captured. *)
Definition capturedId (p : Pending ShareItem) : option jsstring :=
  match p with
  | AwaitFetchAndCache k _ | AwaitRefreshInBackground k _ => Some k
  | _ => None
  end.

(** A store that has cached something, or has a fetch in flight, holds
    its client. *)
Definition clientHeld (w : World ShareItem) : Prop :=
  client (sharesStore w) = true
  ∨ (_cache (sharesStore w) = ∅ ∧ Forall (λ p, Run.isFetch p = false) (pending w)).

(** What a suspended [leaveNetwork] has captured: a network under its
    own id. *)
Definition leaveCaptured (p : Pending ShareItem) : Prop :=
  match p with
  | AwaitDisableNetwork k n => wellFormed n ∧ cellIdString n = k
  | _ => True
  end.



Definition sessionInvariant (w : World ShareItem) : Prop :=
  activeIffSelected (_state w)
  ∧ Forall wellFormed (networks (_state w))
  ∧ Forall leaveCaptured (pending w).

End Worlds.

(** A DNA hash and an agent key as Holochain forms them: 39 bytes, of
    which the first three tell the kind of hash. *)
Definition sampleDnaHash : list byte := [x84; x2d; x24] ++ repeat x07 36.
Definition sampleAgentKey : list byte := [x84; x20; x24] ++ repeat x09 36.

(** A word of a passphrase must have a character. *)
Definition nonEmptyWord (word : jsstring) : bool := Nat.ltb 0 (length word).

(** [s] is empty or its last code unit is not white space. *)
Fixpoint endsClean (s : jsstring) : bool :=
  match s with
  | [] => true
  | c :: s' =>
      match s' with
      | [] => negb (isWhiteSpace c)
      | _ :: _ => endsClean s'
      end
  end.

End Props.

(** ** Sample sessions *)

Module Examples.
Import JsString Registry Session Props.

(** Share records are numbers here, converted as they are. *)
Definition toItem (info : N) : N := info.
Definition itemId (item : N) : jsstring := [item].

Definition emptyStorage : LocalStorage :=
  {| sharefeed_networks := None; sharefeed_active_network := None |}.

(** The session once the shares store has connected. *)
Definition connected : World N :=
  SharesStore.init_resumed false (Fulfilled ())
    (resume 0 (SharesStore.init true (initialWorld emptyStorage))).

Definition booksClone : ClonedCell :=
  {| cell_id := (sampleDnaHash, sampleAgentKey);
     dna_modifiers :=
       Some {| network_seed := Some (js "sharefeed-alpha-beta-gamma-delta-omega") |};
     cloned_name := js "sharefeed.0" |}.

Definition booksId : jsstring := cellIdToString (cell_id booksClone).

Definition booksCreated : Settled (jsstring * ClonedCell * N) :=
  Fulfilled (js "alpha beta gamma delta omega", booksClone, 1700000000000).

(** [createNetwork("Books")] has run to its end. *)
Definition withBooks : World N :=
  NetworksStore.createNetwork_resumed (js "Books") None booksCreated
    (resume 0 (NetworksStore.createNetwork (js "Books") None connected)).

(** ... and the fetch of its shares has been answered. *)
Definition withBooksCached : World N :=
  Run.settleFetch toItem 0 (Fulfilled [1; 2]) withBooks.

Definition filmsClone : ClonedCell :=
  {| cell_id := ([x84; x2d; x24] ++ repeat x0b 36, sampleAgentKey);
     dna_modifiers :=
       Some {| network_seed := Some (js "sharefeed-one-two-three-four-five") |};
     cloned_name := js "sharefeed.1" |}.

Definition filmsId : jsstring := cellIdToString (cell_id filmsClone).

(** The network "Films" as the store holds it once it is selected. *)
Definition filmsNetwork : Network :=
  NetworksStore.markActive (Some filmsId)
    (networkOfClone filmsClone (js "Films") (js "one two three four five")
       1700000000001).

(** [joinNetwork("one two three four five", "Films")] has run to its end
    after "Books" was created: "Films" is the active network. *)
Definition withFilms : World N :=
  NetworksStore.joinNetwork_resumed (js "one two three four five") (Some (js "Films"))
    (Fulfilled (filmsClone, 1700000000001))
    (resume 1
       (NetworksStore.joinNetwork (js "one two three four five") (Some (js "Films"))
          withBooks)).

Definition booksListed : AppInfo :=
  {| cell_info :=
       {[ ROLE_NAME := [provisioned (sampleDnaHash, sampleAgentKey); cloned booksClone] ]} |}.

(** [createNetwork("Books")] is suspended on the conductor when the list
    of networks is refreshed; the conductor has made the clone and lists
    it, and the list is taken in before the creation is. *)
Definition listedThenCreated : World N :=
  let w1 := NetworksStore.createNetwork (js "Books") None connected in
  let w2 := NetworksStore.init true w1 in
  let w3 := NetworksStore.init_resumed (Fulfilled (Some booksListed))
              (λ _, 1700000000000) (resume 1 w2) in
  NetworksStore.createNetwork_resumed (js "Books") None booksCreated (resume 0 w3).

End Examples.

(** ** More of ui/src/lib/secrets.ts *)

Module Passphrases.
Import JsString Secrets.

(** [generatePassphrase()]: five draws of [randomWord()] of diceware-word,
    set in the template with one space between them; [randomWord i] is
    the [i]-th draw. *)
Definition generatePassphrase (randomWord : nat → jsstring) : jsstring :=
  randomWord 0%nat ++ [space] ++ randomWord 1%nat ++ [space] ++ randomWord 2%nat
  ++ [space] ++ randomWord 3%nat ++ [space] ++ randomWord 4%nat.

(** A word as a word list gives them: it has a character, and none of its
    characters is white space. *)
Definition cleanWord (word : jsstring) : Prop :=
  word ≠ [] ∧ Forall (λ c, isWhiteSpace c = false) word.

(** The words of a passphrase, joined by single spaces. *)
Definition normalise (p : jsstring) : jsstring :=
  join [space] (splitWs (trim p)).

End Passphrases.

(** ** What ui/src/lib/holochain/networks.ts asks of the conductor *)

Module Clones.
Import JsString Secrets Registry.

(** The argument of [appClient.createCloneCell]:
    [{ role_name: ROLE_NAME, modifiers: { network_seed: networkSeed } }]. *)
Record CreateCloneCellRequest := {
  role_name : jsstring;
  modifiers : DnaModifiers
}.

(** The argument of [disableCloneCell] and [enableCloneCell]:
    [{ clone_cell_id: { type: 'dna_hash', value: cellId[0] } }]. *)
Inductive CloneCellId :=
| dna_hash (value : list byte).

(** [passphrase || (await generatePassphrase())] *)
Definition finalPassphrase (passphrase : option jsstring) (generated : jsstring)
  : jsstring :=
  match passphrase with
  | Some p => if truthy p then p else generated
  | None => generated
  end.

Definition cloneRequest (networkSeed : jsstring) : CreateCloneCellRequest :=
  {| role_name := ROLE_NAME; modifiers := {| network_seed := Some networkSeed |} |}.

(** What [createNetwork] sends to [createCloneCell]. *)
Definition createNetwork_request (passphrase : option jsstring) (generated : jsstring)
  : CreateCloneCellRequest :=
  let finalPassphrase := finalPassphrase passphrase generated in
  let networkSeed := passphraseToNetworkSeed finalPassphrase in
  cloneRequest networkSeed.

(** What [joinNetwork] sends to [createCloneCell]. *)
Definition joinNetwork_request (passphrase : jsstring) : CreateCloneCellRequest :=
  let networkSeed := passphraseToNetworkSeed passphrase in
  cloneRequest networkSeed.

(** What [disableNetwork] sends to [disableCloneCell], and [enableNetwork]
    to [enableCloneCell]; [enableNetwork] does nothing else. *)
Definition disableNetwork_request (cellId : CellId) : CloneCellId :=
  dna_hash (fst cellId).
Definition enableNetwork_request (cellId : CellId) : CloneCellId :=
  dna_hash (fst cellId).

(** [enableNetwork(appClient, cellId)] once [enableCloneCell] has
    answered: the function ends there, the durable store is not written. *)
Definition enableNetwork (cellId : CellId) (ls : LocalStorage) : LocalStorage := ls.

(** The record [saveNetworkLocally] writes for a network. *)
Definition localDataOf (network : Network) : NetworkLocalData :=
  {| local_cellIdString := cellIdString network;
     local_name := name network;
     local_passphrase := passphrase network;
     local_joinedAt := joinedAt network |}.

(** [{ ...network, name }] on a stored record. *)
Definition renamed (newName : jsstring) (n : NetworkLocalData) : NetworkLocalData :=
  {| local_cellIdString := local_cellIdString n;
     local_name := newName;
     local_passphrase := local_passphrase n;
     local_joinedAt := local_joinedAt n |}.

(** [data.find(n => n.cellIdString === k)] on the durable store. *)
Definition storedRecord (k : jsstring) (ls : LocalStorage) : option NetworkLocalData :=
  List.find (sameId k) (loadNetworksLocally ls).

End Clones.

(** ** Reading a hash back from its URL-safe form *)

Module Decoding.
Import Base64.

(** The six bits a character of the URL-safe alphabet [A-Za-z0-9-_]
    stands for. *)
Definition urlValue (c : N) : N :=
  if c =? 45 then 62 else if c =? 95 then 63 else default 0 (b64Value c).

(** The bytes that [decodeSextets] reads from a string of that alphabet. *)
Definition bytesOfUrl (s : jsstring) : list N := decodeSextets (List.map urlValue s).

End Decoding.

(** ** The derived stores *)

Module Derived.
Import JsString Registry Session.

(** [derived(_state, $state => $state.networks.find(n => n.cellIdString ===
    $state.activeNetworkId) || null)] *)
Definition activeNetwork (s : NetworksStoreState) : option Network :=
  List.find (NetworksStore.hasId (activeNetworkId s)) (networks s).

(** [derived(activeNetwork, $active => $active?.cellId || null)] *)
Definition activeCellId (s : NetworksStoreState) : option CellId :=
  cellId <$> activeNetwork s.

End Derived.

(** ** What a subscriber of the shares store sees *)

Module Combined.
Import JsString Registry Session.

Section Shares.
Context {ShareItem : Type}.

(** What a subscriber of the shares store sees: [interface
    SharesStoreState] of [stores/shares.ts]. *)
Record SharesView := {
  shares : list ShareItem;
  loading : bool;
  error : option jsstring;
  connected : bool;
  isEmpty : bool;
  hasNetwork : bool
}.

(** The [combined] store. *)
Definition combined (s : SharesStoreState ShareItem) : SharesView :=
  {| shares := _shares s;
     loading := _loading s;
     error := _error s;
     connected := _connected s;
     isEmpty := negb (_loading s) && _hasNetwork s
                && Nat.eqb (length (_shares s)) 0;
     hasNetwork := _hasNetwork s |}.

End Shares.
Arguments SharesView : clear implicits.

End Combined.

(** ** The dialog that creates and joins networks: NetworkModal.svelte *)

Module NetworkModal.
Import JsString Secrets Registry Session.

(** The variables of the component that its handlers read and write. *)
Record Modal := {
  networkName : jsstring;
  passphrase : jsstring;
  generatedPassphrase : jsstring;
  loading : bool;
  error : option jsstring
}.

Definition set_loading_error (l : bool) (e : option jsstring) (m : Modal) : Modal :=
  {| networkName := networkName m; passphrase := passphrase m;
     generatedPassphrase := generatedPassphrase m; loading := l; error := e |}.

Section Handlers.
Context {ShareItem : Type}.

Local Abbreviation World := (World ShareItem).

(** [handleCreate] up to its [await networksStore.createNetwork(...)],
    the store's operation run up to its own suspension. *)
Definition handleCreate (m : Modal) (w : World) : Modal * World :=
  if negb (truthy (trim (networkName m))) then
    (set_loading_error (loading m) (Some (js "Please enter a network name")) m, w)
  else
    let m := set_loading_error true None m in
    (m, NetworksStore.createNetwork (trim (networkName m))
          (Some (generatedPassphrase m)) w).

(** [handleJoin] up to its [await networksStore.joinNetwork(...)]. *)
Definition handleJoin (m : Modal) (w : World) : Modal * World :=
  let validation := validatePassphrase (passphrase m) in
  if negb (valid validation) then
    (set_loading_error (loading m)
       (Some (orElse (default [] (errorMessage <$> Secrets.error validation))
                     (js "Invalid passphrase"))) m, w)
  else
    let m := set_loading_error true None m in
    let name := orElse (trim (networkName m)) (js "Shared Feed") in
    (m, NetworksStore.joinNetwork (trim (passphrase m)) (Some name) w).

End Handlers.
End NetworkModal.

(** ** What holds of every session *)

Module Invariants.
Import JsString Registry Session Derived.

Section Worlds.
Context {ShareItem : Type}.

(** A suspended operation that has found the connection: a call made
    over it, or a [connect] that was handed the client at once. *)
Definition overConnection (p : Pending ShareItem) : bool :=
  match p with
  | AwaitConnect connected => connected
  | _ => true
  end.

(** Nothing is displayed as connected, and nothing waits on the
    conductor, without the connection: the shares store takes its client
    from the connection, it reports [connected] and [hasNetwork] only when
    it holds its client, and a call is in flight only when the connection
    has a client. *)
Definition connectionInvariant (w : World ShareItem) : Prop :=
  (client (sharesStore w) = true → is_Some (shareFeedClient w))
  ∧ (_connected (sharesStore w) = true → client (sharesStore w) = true)
  ∧ (_hasNetwork (sharesStore w) = true → client (sharesStore w) = true)
  ∧ (Exists (λ p, overConnection p = true) (pending w) → is_Some (shareFeedClient w)).

(** [disconnect()] of [ui/src/lib/holochain/connection.ts]:
    [if (client) { client = null; shareFeedClient = null; }].  Neither
    store calls it, and it is not among the turns of [Run.step]; the
    variables the stores have captured are left as they are. *)
Definition disconnect (w : World ShareItem) : World ShareItem :=
  if getAppClient w then with_shareFeedClient None w else w.

(** A suspended operation of the networks store that has raised its
    loading flag: [init], [createNetwork] or [joinNetwork] waiting for the
    conductor. *)
Definition raisesLoading (p : Pending ShareItem) : bool :=
  match p with
  | AwaitGetNetworks | AwaitCreateNetwork _ _ | AwaitJoinNetwork _ _ => true
  | _ => false
  end.

(** The loading flag of the networks store is raised only while such an
    operation is suspended. *)
Definition loadingPending (w : World ShareItem) : Prop :=
  loading (_state w) = true → Exists (λ p, raisesLoading p = true) (pending w).

End Worlds.

(** The selected id, when it is a string with a character, is the id of
    a listed network. *)
Definition selectionListed (s : NetworksStoreState) : Prop :=
  NetworksStore.truthyId (activeNetworkId s) = true → is_Some (activeNetwork s).

(** The selection [init] restores from the durable last-active value
    [stored] once the networks [ns] are listed:
    [if (activeNetworkId && !networks.find(...)) activeNetworkId = null;
     if (!activeNetworkId && networks.length > 0)
       activeNetworkId = networks[0].cellIdString]. *)
Definition restored (stored : option jsstring) (ns : list Network) : option jsstring :=
  let kept :=
    if NetworksStore.truthyId stored
       && negb (bool_decide (is_Some (List.find (NetworksStore.hasId stored) ns)))
    then None else stored in
  if negb (NetworksStore.truthyId kept) && Nat.ltb 0 (length ns)
  then cellIdString <$> head ns else kept.

End Invariants.

(** ** The storage adapter of the browser extension *)

Module Extension.
Import JsString Registry.

(** The keys of [chrome.storage.local] that the adapter uses for
    networks: [sharefeed_active_network_ext] and
    [sharefeed_networks_cache], a record of names by cell id string. *)
Record ChromeStorage := {
  sharefeed_active_network_ext : option jsstring;
  sharefeed_networks_cache : option (gmap jsstring jsstring)
}.

(** [HolochainStorageAdapter]: its field [activeCellId], with the storage
    it writes to. *)
Record Adapter := {
  activeCellId : option CellId;
  storage : ChromeStorage
}.

(** [interface NetworkInfo] of the extension *)
Record NetworkInfo := {
  cellIdString : jsstring;
  name : jsstring;
  isActive : bool
}.

(** The private [cellIdToString] and [cellIdFromString] of the adapter
    have the bodies of the ones in [ui/src/lib/holochain/networks.ts]. *)
Definition cellIdToString (cellId : CellId) : jsstring := Registry.cellIdToString cellId.
Definition cellIdFromString (cellIdString : jsstring) : option CellId :=
  Registry.cellIdFromString cellIdString.

(** [setActiveCellId]; [None] is the exception that [atob] throws, before
    anything is assigned or stored. *)
Definition setActiveCellId (cellIdString : jsstring) (a : Adapter) : option Adapter :=
  match cellIdFromString cellIdString with
  | None => None
  | Some cellId =>
      Some {| activeCellId := Some cellId;
              storage :=
                {| sharefeed_active_network_ext := Some cellIdString;
                   sharefeed_networks_cache := sharefeed_networks_cache (storage a) |} |}
  end.

(** [result[ACTIVE_NETWORK_KEY] || null] *)
Definition getActiveCellIdString (a : Adapter) : option jsstring :=
  match sharefeed_active_network_ext (storage a) with
  | Some k => if truthy k then Some k else None
  | None => None
  end.

(** [restoreActiveCellId]; [None] is the exception of [atob]. *)
Definition restoreActiveCellId (a : Adapter) : option Adapter :=
  match getActiveCellIdString a with
  | Some cellIdString =>
      match cellIdFromString cellIdString with
      | None => None
      | Some cellId => Some {| activeCellId := Some cellId; storage := storage a |}
      end
  | None => Some a
  end.

(** [result[NETWORKS_CACHE_KEY] || {}] *)
Definition loadNetworkNamesCache (a : Adapter) : gmap jsstring jsstring :=
  default ∅ (sharefeed_networks_cache (storage a)).

(** [updateNetworkName]: [cache[cellIdString] = name], stored back. *)
Definition updateNetworkName (cellIdString name : jsstring) (a : Adapter) : Adapter :=
  let cache := loadNetworkNamesCache a in
  {| activeCellId := activeCellId a;
     storage :=
       {| sharefeed_active_network_ext := sharefeed_active_network_ext (storage a);
          sharefeed_networks_cache := Some (<[cellIdString := name]> cache) |} |}.

(** How [callZome] addresses a call: by [cell_id] when the adapter has an
    active cell, else by [role_name]. *)
Inductive ZomeCallTarget :=
| by_cell_id (cell_id : CellId)
| by_role_name (role_name : jsstring).

Definition callZome_target (a : Adapter) : ZomeCallTarget :=
  match activeCellId a with
  | Some cellId => by_cell_id cellId
  | None => by_role_name ROLE_NAME
  end.

(** What the loop of the adapter's [getNetworks] pushes for a clone:
    [{ cellIdString, name: cachedNames[cellIdString] || cloned.name ||
       'Shared Feed', isActive: cellIdString === activeCellIdString }]. *)
Definition networkInfoOf (activeCellIdString : option jsstring)
    (cachedNames : gmap jsstring jsstring) (clonedCell : ClonedCell) : NetworkInfo :=
  let cellId := cell_id clonedCell in
  let cellIdString := cellIdToString cellId in
  {| cellIdString := cellIdString;
     name := orElse (default [] (cachedNames !! cellIdString))
                    (orElse (cloned_name clonedCell) (js "Shared Feed"));
     isActive := bool_decide (Some cellIdString = activeCellIdString) |}.

(** One turn of that loop. *)
Definition pushNetworkInfo (activeCellIdString : option jsstring)
    (cachedNames : gmap jsstring jsstring) (networks : list NetworkInfo) (cell : CellInfo)
  : list NetworkInfo :=
  match cell with
  | cloned clonedCell =>
      networks ++ [networkInfoOf activeCellIdString cachedNames clonedCell]
  | _ => networks
  end.

(** [networks[0].isActive = true] *)
Definition activateFirst (networks : list NetworkInfo) : list NetworkInfo :=
  match networks with
  | n :: rest =>
      {| cellIdString := cellIdString n; name := name n; isActive := true |} :: rest
  | [] => []
  end.

(** The adapter's [getNetworks] once [client.appInfo()] has answered with
    [appInfo].  An exception of [setActiveCellId] is caught: the result is
    then the empty list. *)
Definition getNetworks (appInfo : option AppInfo) (a : Adapter)
  : list NetworkInfo * Adapter :=
  match appInfo with
  | None => ([], a)
  | Some appInfo =>
      let cells := default [] (cell_info appInfo !! ROLE_NAME) in
      let activeCellIdString := getActiveCellIdString a in
      let cachedNames := loadNetworkNamesCache a in
      let networks :=
        foldl (pushNetworkInfo activeCellIdString cachedNames) [] cells in
      if Nat.ltb 0 (length networks) && negb (existsb isActive networks) then
        match setActiveCellId (default [] (cellIdString <$> head networks)) a with
        | None => ([], a)
        | Some a' => (activateFirst networks, a')
        end
      else (networks, a)
  end.

End Extension.

(** ** Answers that are rejections *)

Module Failures.
Import JsString Registry Session Run.

Section Run.
Context {ShareItemInfo ShareItem : Type}.
Variable toShareItem : ShareItemInfo → ShareItem.
Variable shareId : ShareItem → jsstring.

Local Abbreviation World := (World ShareItem).

(** The turns of a session in which a suspended operation is taken up
    again with a rejected promise: its [catch] branch runs. *)
Inductive rejected : World → World → Prop :=
| rejected_connect i connected err w :
    pending w !! i = Some (AwaitConnect connected) →
    rejected w (SharesStore.init_resumed connected (Rejected err) (resume i w))
| rejected_fetch i p err w :
    pending w !! i = Some p → isFetch p = true →
    rejected w (fetch_resumed toShareItem p (Rejected err) (resume i w))
| rejected_createShare i target err w :
    pending w !! i = Some (AwaitCreateShare target) →
    rejected w (SharesStore.createShare_resumed (Rejected err) (resume i w))
| rejected_deleteShare i id currentShares target err w :
    pending w !! i = Some (AwaitDeleteShare id currentShares target) →
    rejected w (SharesStore.deleteShare_resumed shareId id currentShares (Rejected err)
                  (resume i w))
| rejected_getNetworks i err now w :
    pending w !! i = Some AwaitGetNetworks →
    rejected w (NetworksStore.init_resumed (Rejected err) now (resume i w))
| rejected_createNetwork i name passphrase err w :
    pending w !! i = Some (AwaitCreateNetwork name passphrase) →
    rejected w (NetworksStore.createNetwork_resumed name passphrase (Rejected err)
                  (resume i w))
| rejected_joinNetwork i passphrase name err w :
    pending w !! i = Some (AwaitJoinNetwork passphrase name) →
    rejected w (NetworksStore.joinNetwork_resumed passphrase name (Rejected err)
                  (resume i w))
| rejected_disableNetwork i k network err w :
    pending w !! i = Some (AwaitDisableNetwork k network) →
    rejected w (NetworksStore.leaveNetwork_resumed k network (Rejected err) (resume i w)).

End Run.
End Failures.

(** * Properties *)

(** ** The secret codec *)

Module SecretsFacts.
Import JsString Secrets Props.

(** The string functions on small inputs, as JavaScript evaluates them. *)
Example trim_sample : trim (js "  a b  ") = js "a b".
Proof. reflexivity. Qed.

Example split_whitespace_sample :
  splitWs (js "one  two three") = [js "one"; js "two"; js "three"]
  ∧ splitWs (js " a  b ") = [js ""; js "a"; js "b"; js ""]
  ∧ splitWs (js "") = [js ""].
Proof. repeat split; reflexivity. Qed.

Example split_join_sample :
  splitOn hyphen (js "a--b-") = [js "a"; js ""; js "b"; js ""]
  ∧ join [hyphen] [js "a"; js "b"; js "c"] = js "a-b-c"
  ∧ replace (js "sharefeed-") [] (js "my-sharefeed-sharefeed-x") = js "my-sharefeed-x".
Proof. repeat split; reflexivity. Qed.

Example validate_sample :
  validatePassphrase (js "one two three") =
    {| valid := false; error := Some (WrongWordCount 3) |}
  ∧ errorMessage (WrongWordCount 3) = js "Passphrase must be exactly 5 words (got 3)"
  ∧ validatePassphrase (js " one two  three four five ") =
      {| valid := true; error := None |}.
Proof. repeat split; vm_compute; reflexivity. Qed.

Example seed_sample :
  passphraseToNetworkSeed (js "word1 word2 word3 word4 word5")
  = js "sharefeed-word1-word2-word3-word4-word5"
  ∧ networkSeedToPassphrase (js "sharefeed-word1-word2-word3-word4-word5")
    = js "word1 word2 word3 word4 word5".
Proof. split; reflexivity. Qed.

Lemma trimStart_head s :
  match trimStart s with [] => True | c :: _ => isWhiteSpace c = false end.
Proof.
  induction s as [|c s IH]; simpl; [done|].
  destruct (isWhiteSpace c) eqn:E; [done|]. exact E.
Qed.

Lemma trimEnd_endsClean s : endsClean (trimEnd s) = true.
Proof.
  induction s as [|c s IH]; simpl; [done|].
  destruct (trimEnd s) as [|d t] eqn:E.
  - destruct (isWhiteSpace c) eqn:Ec; simpl; [done|]. by rewrite Ec.
  - exact IH.
Qed.

Lemma trimEnd_cons c s :
  isWhiteSpace c = false → ∃ t, trimEnd (c :: s) = c :: t.
Proof.
  intros Hc. simpl. destruct (trimEnd s) as [|d t].
  - rewrite Hc. by exists [].
  - by exists (d :: t).
Qed.

(** What [trim] returns is empty, or starts and ends outside white space. *)
Lemma trim_shape p :
  trim p = [] ∨
  ∃ c t, trim p = c :: t ∧ isWhiteSpace c = false ∧ endsClean (c :: t) = true.
Proof.
  unfold trim. pose proof (trimStart_head p) as Hh.
  destruct (trimStart p) as [|c r] eqn:E; [by left|].
  right. destruct (trimEnd_cons c r Hh) as [t Ht].
  exists c, t. split; [done|]. split; [done|].
  rewrite <- Ht. apply trimEnd_endsClean.
Qed.

Lemma splitWs_cons s : ∃ t ts, splitWs s = t :: ts.
Proof.
  induction s as [|c s [t [ts IH]]]; simpl; [by eexists _, _|].
  destruct (isWhiteSpace c); [by eexists _, _|].
  rewrite IH. by eexists _, _.
Qed.

(** Past the first piece, a string that ends cleanly splits into words
    that all have a character. *)
Lemma split_words_nonempty s :
  endsClean s = true →
  (s ≠ [] → forallb nonEmptyWord (afterWs s) = true)
  ∧ forallb nonEmptyWord (tail (splitWs s)) = true.
Proof.
  induction s as [|c s IH]; [done|].
  intros Hend. destruct s as [|d s'].
  - simpl in Hend. apply negb_true_iff in Hend. simpl. by rewrite Hend.
  - assert (endsClean (d :: s') = true) as Hend' by exact Hend.
    destruct (IH Hend') as [IHa IHs]. specialize (IHa ltac:(done)).
    destruct (splitWs_cons (d :: s')) as [t [ts Hsp]].
    change (afterWs (c :: d :: s')) with
      (if isWhiteSpace c then afterWs (d :: s') else consHead c (splitWs (d :: s'))).
    change (splitWs (c :: d :: s')) with
      (if isWhiteSpace c then [] :: afterWs (d :: s')
       else consHead c (splitWs (d :: s'))).
    rewrite Hsp in *. destruct (isWhiteSpace c); simpl; simpl in IHs; auto.
Qed.

Lemma trimmed_words_nonempty c t :
  isWhiteSpace c = false → endsClean (c :: t) = true →
  forallb nonEmptyWord (splitWs (c :: t)) = true.
Proof.
  intros Hc Hend.
  destruct (split_words_nonempty (c :: t) Hend) as [Ha _].
  specialize (Ha ltac:(done)). simpl in *. by rewrite Hc in *.
Qed.

Lemma validatePassphrase_trimmed_empty p :
  trim p = [] →
  validatePassphrase p = {| valid := false; error := Some PassphraseRequired |}.
Proof. intros H. unfold validatePassphrase. by rewrite H. Qed.

Lemma validatePassphrase_trimmed p c t :
  trim p = c :: t →
  validatePassphrase p =
    if negb (Nat.eqb (length (splitWs (c :: t))) 5)
    then {| valid := false; error := Some (WrongWordCount (length (splitWs (c :: t)))) |}
    else {| valid := true; error := None |}.
Proof.
  intros H. unfold validatePassphrase. rewrite H.
  destruct (trim_shape p) as [He|[c' [t' [Ht [Hc Hend]]]]]; [congruence|].
  rewrite H in Ht. injection Ht as <- <-.
  destruct (negb _); [done|].
  pose proof (trimmed_words_nonempty c t Hc Hend) as Hw.
  unfold nonEmptyWord in Hw. by rewrite Hw.
Qed.

(** C10. The 'Each word must have at least one character' branch of
    [validatePassphrase] is never taken: [validatePassphrase] returns that
    error for no input, because the trimmed input, when it is not empty,
    splits on white space into pieces that all have a character. *)
Theorem empty_word_error_unreachable (p : jsstring) :
  error (validatePassphrase p) ≠ Some EmptyWord
  ∧ (trim p = [] ∨ forallb nonEmptyWord (splitWs (trim p)) = true).
Proof.
  destruct (trim_shape p) as [He|[c [t [Ht [Hc Hend]]]]].
  - split; [|by left]. by rewrite (validatePassphrase_trimmed_empty p He).
  - split.
    + rewrite (validatePassphrase_trimmed p c t Ht). by destruct (negb _).
    + right. rewrite Ht. by apply trimmed_words_nonempty.
Qed.

(** C7, as amended.  [validatePassphrase] accepts exactly the inputs whose
    trimmed form splits on white space into 5 pieces, and these pieces then
    all have a character.  An input whose trimmed form is empty is rejected
    with 'Passphrase is required'; any other input whose trimmed form splits
    into a number of pieces other than 5 is rejected with the word-count
    reason, which reports that number; and a zero-length piece only arises
    for a blank input, rejected with 'Passphrase is required'. *)
Theorem validatePassphrase_shape (p : jsstring) :
  let words := splitWs (trim p) in
  (valid (validatePassphrase p) = true
     ↔ length words = 5%nat ∧ forallb nonEmptyWord words = true)
  ∧ (trim p = [] →
       validatePassphrase p = {| valid := false; error := Some PassphraseRequired |})
  ∧ (trim p ≠ [] → length words ≠ 5%nat →
       validatePassphrase p =
         {| valid := false; error := Some (WrongWordCount (length words)) |})
  ∧ ([] ∈ words →
       validatePassphrase p = {| valid := false; error := Some PassphraseRequired |}).
Proof.
  intros words. unfold words.
  destruct (trim_shape p) as [He|[c [t [Ht [Hc Hend]]]]].
  - rewrite (validatePassphrase_trimmed_empty p He), He. simpl.
    split; [split; [done|by intros [? _]]|]. by repeat split.
  - rewrite (validatePassphrase_trimmed p c t Ht), Ht.
    pose proof (trimmed_words_nonempty c t Hc Hend) as Hw.
    destruct (Nat.eqb_spec (length (splitWs (c :: t))) 5) as [E|E]; simpl.
    + repeat split; try done.
      intros Hin. exfalso.
      rewrite forallb_forall in Hw. apply list_elem_of_In in Hin.
      by specialize (Hw _ Hin).
    + repeat split; try done; try by intros [? _].
      intros Hin. exfalso.
      rewrite forallb_forall in Hw. apply list_elem_of_In in Hin.
      by specialize (Hw _ Hin).
Qed.

(** C7, as first stated, fails at a blank input: its trimmed form splits
    into one piece, of length zero, yet the rejection carries neither the
    word-count reason nor the empty-word reason.  And an input that splits
    into a zero-length piece before it is trimmed is accepted when five
    words follow. *)
Lemma validatePassphrase_other_reasons :
  let p := js "   " in
  ¬ (length (splitWs (trim p)) ≠ 5%nat →
     ∃ got, error (validatePassphrase p) = Some (WrongWordCount got))
  ∧ ¬ ([] ∈ splitWs (trim p) → error (validatePassphrase p) = Some EmptyWord)
  ∧ ¬ ([] ∈ splitWs (js " a b c d e") →
       error (validatePassphrase (js " a b c d e")) = Some EmptyWord).
Proof.
  split; [|split].
  - intros H. destruct H as [got Hgot]; [by vm_compute|]. vm_compute in Hgot. done.
  - intros H. assert (([] : jsstring) ∈ splitWs (trim (js "   "))) as Hin.
    { vm_compute. apply list_elem_of_here. }
    specialize (H Hin). vm_compute in H. done.
  - intros H. assert (([] : jsstring) ∈ splitWs (js " a b c d e")) as Hin.
    { vm_compute. apply list_elem_of_here. }
    specialize (H Hin). vm_compute in H. done.
Qed.

(** *** Encoding and decoding *)

Lemma startsWith_app pat x : startsWith pat (pat ++ x) = true.
Proof.
  induction pat as [|c pat IH]; simpl; [by destruct x|].
  by rewrite N.eqb_refl, IH.
Qed.

(** [replace] removes a pattern the string starts with. *)
Lemma replace_prefix pat x : replace pat [] (pat ++ x) = x.
Proof.
  pose proof (startsWith_app pat x) as Hs.
  destruct (pat ++ x) as [|c r] eqn:E.
  - apply app_eq_nil in E as [-> ->]. done.
  - simpl replace. rewrite Hs. simpl. rewrite <- E.
    by rewrite drop_app_length.
Qed.

Lemma splitOn_without sep w :
  sep ∉ w → splitOn sep w = [w].
Proof.
  induction w as [|c w IH]; [done|].
  intros Hn. apply not_elem_of_cons in Hn as [Hc Hw].
  simpl. destruct (N.eqb_spec c sep) as [->|_]; [done|].
  by rewrite (IH Hw).
Qed.

Lemma splitOn_app sep w r :
  sep ∉ w → splitOn sep (w ++ sep :: r) = w :: splitOn sep r.
Proof.
  induction w as [|c w IH]; intros Hn; simpl.
  - by rewrite N.eqb_refl.
  - apply not_elem_of_cons in Hn as [Hc Hw].
    destruct (N.eqb_spec c sep) as [->|_]; [done|].
    by rewrite (IH Hw).
Qed.

(** Splitting on the separator undoes joining with it, for pieces that do
    not hold the separator. *)
Lemma splitOn_join sep w ws :
  Forall (λ t, sep ∉ t) (w :: ws) → splitOn sep (join [sep] (w :: ws)) = w :: ws.
Proof.
  revert w. induction ws as [|v ws IH]; intros w Hall.
  - simpl. apply splitOn_without. by inversion Hall.
  - inversion Hall as [|? ? Hw Hrest]; subst.
    change (join [sep] (w :: v :: ws)) with (w ++ sep :: join [sep] (v :: ws)).
    rewrite (splitOn_app _ _ _ Hw). by rewrite (IH v Hrest).
Qed.

Lemma trimStart_subseteq s c : c ∈ trimStart s → c ∈ s.
Proof.
  induction s as [|d s IH]; simpl; [done|].
  destruct (isWhiteSpace d); [|done].
  intros H. right. by apply IH.
Qed.

Lemma trimEnd_subseteq s c : c ∈ trimEnd s → c ∈ s.
Proof.
  induction s as [|d s IH]; simpl; [done|].
  destruct (trimEnd s) as [|e t].
  - destruct (isWhiteSpace d); [by intros ?%elem_of_nil|].
    intros ->%list_elem_of_singleton. left.
  - intros [->|H]%elem_of_cons; [left|right; by apply IH].
Qed.

(** The pieces of a split hold code units of the string only. *)
Lemma split_pieces_subseteq s :
  Forall (λ t, ∀ c, c ∈ t → c ∈ s) (splitWs s)
  ∧ Forall (λ t, ∀ c, c ∈ t → c ∈ s) (afterWs s).
Proof.
  induction s as [|d s [IHs IHa]]; simpl.
  - split; repeat constructor; by intros ? ?%elem_of_nil.
  - assert (Forall (λ t : list N, ∀ c : N, c ∈ t → c ∈ d :: s)
                   (consHead d (splitWs s))) as Hcons.
    { destruct (splitWs s) as [|t ts]; simpl.
      - constructor; [|constructor]. intros ? ->%list_elem_of_singleton. left.
      - inversion IHs as [|? ? Ht Hts]; subst. constructor.
        + intros c [->|H]%elem_of_cons; [left|right; by apply Ht].
        + eapply Forall_impl; [exact Hts|]. intros t' Ht' c Hc. right. by apply Ht'. }
    destruct (isWhiteSpace d); split; try done.
    + constructor; [by intros ? ?%elem_of_nil|].
      eapply Forall_impl; [exact IHa|]. intros t' Ht' c Hc. right. by apply Ht'.
    + eapply Forall_impl; [exact IHa|]. intros t' Ht' c Hc. right. by apply Ht'.
Qed.

Lemma words_without_hyphen p :
  hyphen ∉ p → Forall (λ t, hyphen ∉ t) (splitWs (trim p)).
Proof.
  intros Hp. destruct (split_pieces_subseteq (trim p)) as [H _].
  eapply Forall_impl; [exact H|]. intros t Ht Hin. apply Hp.
  apply trimStart_subseteq, trimEnd_subseteq. by apply Ht.
Qed.

(** Decoding an encoded passphrase gives its words joined by one space,
    when no word holds a hyphen. *)
Lemma decode_encode p :
  hyphen ∉ p →
  networkSeedToPassphrase (passphraseToNetworkSeed p)
  = join [space] (splitWs (trim p)).
Proof.
  intros Hp. unfold networkSeedToPassphrase, passphraseToNetworkSeed.
  rewrite replace_prefix.
  destruct (splitWs_cons (trim p)) as [w [ws Hsp]].
  pose proof (words_without_hyphen p Hp) as Hall. rewrite Hsp in *.
  by rewrite splitOn_join.
Qed.

(** C2, as amended.  For every passphrase [p] that [validatePassphrase]
    accepts and that holds no hyphen, decoding the seed of [p] gives the
    words of [p] joined by single spaces: [p] without the white space
    around it and with every run of white space turned into one space.  So
    [networkSeedToPassphrase (passphraseToNetworkSeed p) = p] when [p] is
    single-spaced already. *)
Theorem decode_encode_valid (p : jsstring) :
  valid (validatePassphrase p) = true →
  hyphen ∉ p →
  networkSeedToPassphrase (passphraseToNetworkSeed p) = join [space] (splitWs (trim p))
  ∧ (singleSpaced p → networkSeedToPassphrase (passphraseToNetworkSeed p) = p).
Proof.
  intros _ Hp. split; [by apply decode_encode|].
  intros Hs. rewrite (decode_encode p Hp). exact Hs.
Qed.

Lemma decode_encode_valid_witness :
  networkSeedToPassphrase (passphraseToNetworkSeed (js "correct horse battery staple again"))
  = js "correct horse battery staple again".
Proof.
  refine (proj2 (decode_encode_valid (js "correct horse battery staple again") _ _) _).
  - vm_compute. reflexivity.
  - vm_compute. intros H. repeat (apply elem_of_cons in H as [H|H]; [discriminate H|]).
    by apply elem_of_nil in H.
  - vm_compute. reflexivity.
Defined.

(** C2, as first stated, fails: [validatePassphrase] accepts a passphrase
    with two spaces between words, and one with a hyphen in a word, and
    neither comes back from its seed. *)
Lemma decode_encode_not_identity :
  (valid (validatePassphrase (js "alpha  beta gamma delta omega")) = true
   ∧ networkSeedToPassphrase (passphraseToNetworkSeed (js "alpha  beta gamma delta omega"))
     ≠ js "alpha  beta gamma delta omega")
  ∧ (valid (validatePassphrase (js "well-known beta gamma delta omega")) = true
     ∧ networkSeedToPassphrase
         (passphraseToNetworkSeed (js "well-known beta gamma delta omega"))
       ≠ js "well-known beta gamma delta omega").
Proof. vm_compute. repeat split; discriminate. Qed.

End SecretsFacts.

(** ** Cell identifiers and the registry *)

Module RegistryFacts.
Import JsString Secrets Base64 Registry Props.

(** *** Cell ids and their string form *)

Example base64_sample :
  fromUint8ArrayStd (uint8ArrayFromString (js "hello")) = js "aGVsbG8="
  ∧ fromUint8Array [xfb; xff] = js "-_8"
  ∧ atob (js "aGVsbG8=") = Some (js "hello")
  ∧ atob (js "aGVsbG8") = Some (js "hello")
  ∧ atob (js "-_8") = None
  ∧ atob (js "aGVsb") = None.
Proof. repeat split; reflexivity. Qed.

Lemma b64Char_std v :
  let c := b64Char v in
  c ≠ pad ∧ isUrlChar (urlSafe c) = true.
Proof.
  unfold b64Char, pad, isUrlChar, urlSafe.
  repeat (case_match;
          try rewrite ?N.ltb_lt, ?N.ltb_ge, ?N.eqb_eq, ?N.eqb_neq, ?N.leb_le,
                ?N.leb_gt in *);
    split; try lia;
    rewrite ?orb_true_iff, ?andb_true_iff, ?N.leb_le, ?N.eqb_eq; lia.
Qed.

Lemma mkUriSafe_app x y : mkUriSafe (x ++ y) = mkUriSafe x ++ mkUriSafe y.
Proof. unfold mkUriSafe. by rewrite List.filter_app, List.map_app. Qed.

Lemma mkUriSafe_b64Char v s :
  mkUriSafe (b64Char v :: s) = urlSafe (b64Char v) :: mkUriSafe s.
Proof.
  unfold mkUriSafe. simpl. destruct (b64Char_std v) as [Hp _].
  destruct (N.eqb_spec (b64Char v) pad); [done|]. done.
Qed.

Lemma mkUriSafe_pad s : mkUriSafe (pad :: s) = mkUriSafe s.
Proof. done. Qed.

Lemma urlSafe_b64Char v : isUrlChar (urlSafe (b64Char v)) = true.
Proof. apply b64Char_std. Qed.

Lemma list_ind3 {A} (P : list A → Prop) :
  P [] → (∀ a, P [a]) → (∀ a b, P [a; b]) →
  (∀ a b c r, P r → P (a :: b :: c :: r)) → ∀ l, P l.
Proof.
  intros H0 H1 H2 H3. fix IH 1.
  intros [|a [|b [|c r]]]; [exact H0|apply H1|apply H2|apply H3, IH].
Qed.

(** The URL-safe form of a hash: its characters and its length. *)
Lemma fromUint8Array_shape h :
  Forall (λ c, isUrlChar c = true) (fromUint8Array h)
  ∧ ∃ q, (length h = 3 * q ∧ length (fromUint8Array h) = 4 * q)%nat
         ∨ (length h = 3 * q + 1 ∧ length (fromUint8Array h) = 4 * q + 2)%nat
         ∨ (length h = 3 * q + 2 ∧ length (fromUint8Array h) = 4 * q + 3)%nat.
Proof.
  unfold fromUint8Array. induction h as [|a|a b|a b c r [IHc [q IHl]]] using list_ind3.
  - split; [constructor|]. exists 0%nat. by left.
  - simpl fromUint8ArrayStd. rewrite !mkUriSafe_b64Char, !mkUriSafe_pad.
    split; [repeat constructor; apply urlSafe_b64Char|].
    exists 0%nat. right. by left.
  - simpl fromUint8ArrayStd. rewrite !mkUriSafe_b64Char, !mkUriSafe_pad.
    split; [repeat constructor; apply urlSafe_b64Char|].
    exists 0%nat. right. by right.
  - change (fromUint8ArrayStd (a :: b :: c :: r)) with
      (let n := N.lor (N.lor (N.shiftl (Byte.to_N a) 16) (N.shiftl (Byte.to_N b) 8))
                      (Byte.to_N c) in
       [b64Char (N.land (N.shiftr n 18) 63); b64Char (N.land (N.shiftr n 12) 63);
        b64Char (N.land (N.shiftr n 6) 63); b64Char (N.land n 63)]
       ++ fromUint8ArrayStd r).
    cbv zeta. rewrite mkUriSafe_app, !mkUriSafe_b64Char.
    change (mkUriSafe []) with (@nil N). split.
    + repeat (constructor; [apply urlSafe_b64Char|]). exact IHc.
    + exists (S q). simpl. lia.
Qed.

Lemma urlChar_facts c :
  isUrlChar c = true → c ≠ pad ∧ c ≠ colon ∧ isAsciiWhitespace c = false.
Proof.
  unfold isUrlChar, pad, colon, isAsciiWhitespace.
  rewrite !orb_true_iff, !andb_true_iff, !N.leb_le, !N.eqb_eq.
  intros H. repeat split; try lia.
  rewrite !orb_false_iff, !N.eqb_neq. lia.
Qed.

Lemma encodeHashToBase64_chars h :
  Forall (λ c, isUrlChar c = true) (encodeHashToBase64 h).
Proof. constructor; [done|]. apply fromUint8Array_shape. Qed.

Lemma filter_all {A} (f : A → bool) l :
  Forall (λ c, f c = true) l → List.filter f l = l.
Proof. induction 1 as [|c l Hc _ IH]; simpl; [done|]. by rewrite Hc, IH. Qed.

Lemma stripPadding_none s : Forall (λ c, c ≠ pad) s → stripPadding s = s.
Proof.
  intros H. unfold stripPadding.
  destruct (rev s) as [|a [|b r]] eqn:E; try done.
  assert (a ∈ s) as Ha by (apply list_elem_of_In, in_rev; rewrite E; by left).
  rewrite Forall_forall in H. specialize (H a Ha).
  by destruct (N.eqb_spec a pad).
Qed.

Lemma sextets_length s vs : sextets s = Some vs → length vs = length s.
Proof.
  revert vs. induction s as [|c s IH]; intros vs; simpl.
  - by intros [= <-].
  - destruct (b64Value c); [|done]. destruct (sextets s) as [vs'|]; [|done].
    intros [= <-]. simpl. by rewrite (IH vs').
Qed.

Lemma list_ind4 {A} (P : list A → Prop) :
  P [] → (∀ a, P [a]) → (∀ a b, P [a; b]) → (∀ a b c, P [a; b; c]) →
  (∀ a b c d r, P r → P (a :: b :: c :: d :: r)) → ∀ l, P l.
Proof.
  intros H0 H1 H2 H3 H4. fix IH 1.
  intros [|a [|b [|c [|d r]]]];
    [exact H0|apply H1|apply H2|apply H3|apply H4, IH].
Qed.

Lemma decodeSextets_length vs :
  ∃ q, (length vs = 4 * q ∧ length (decodeSextets vs) = 3 * q)%nat
       ∨ (length vs = 4 * q + 1 ∧ length (decodeSextets vs) = 3 * q)%nat
       ∨ (length vs = 4 * q + 2 ∧ length (decodeSextets vs) = 3 * q + 1)%nat
       ∨ (length vs = 4 * q + 3 ∧ length (decodeSextets vs) = 3 * q + 2)%nat.
Proof.
  induction vs as [|a|a b|a b c|a b c d r [q IH]] using list_ind4.
  - exists 0%nat. by left.
  - exists 0%nat. right. by left.
  - exists 0%nat. right. right. by left.
  - exists 0%nat. right. right. by right.
  - exists (S q).
    change (decodeSextets (a :: b :: c :: d :: r)) with
      (let n := N.lor (N.lor (N.shiftl a 18) (N.shiftl b 12)) (N.lor (N.shiftl c 6) d) in
       [N.land (N.shiftr n 16) 255; N.land (N.shiftr n 8) 255; N.land n 255]
       ++ decodeSextets r).
    cbv zeta. simpl length. lia.
Qed.

(** [atob] never gives back the bytes of a hash from its encoding. *)
Lemma atob_encodeHashToBase64 h :
  match atob (encodeHashToBase64 h) with
  | Some s => length s ≠ length h
  | None => True
  end.
Proof.
  pose proof (encodeHashToBase64_chars h) as Hc.
  assert (Forall (λ c, negb (isAsciiWhitespace c) = true) (encodeHashToBase64 h)) as Hw.
  { eapply Forall_impl; [exact Hc|]. intros c Hu.
    destruct (urlChar_facts c Hu) as (_ & _ & ->). done. }
  assert (Forall (λ c, c ≠ pad) (encodeHashToBase64 h)) as Hp.
  { eapply Forall_impl; [exact Hc|]. intros c Hu. by apply urlChar_facts. }
  unfold atob. rewrite (filter_all _ _ Hw).
  assert ((if Nat.eqb (length (encodeHashToBase64 h) mod 4) 0
           then stripPadding (encodeHashToBase64 h) else encodeHashToBase64 h)
          = encodeHashToBase64 h) as ->.
  { destruct (Nat.eqb _ 0); [by apply stripPadding_none|done]. }
  destruct (Nat.eqb_spec (length (encodeHashToBase64 h) mod 4) 1) as [|Hm]; [done|].
  destruct (sextets (encodeHashToBase64 h)) as [vs|] eqn:Es; [|done].
  apply sextets_length in Es.
  destruct (fromUint8Array_shape h) as [_ [q Hq]].
  destruct (decodeSextets_length vs) as [q' Hq'].
  assert (length (encodeHashToBase64 h) = S (length (fromUint8Array h))) as Hl by done.
  rewrite Hl in *.
  assert (∀ a r : nat, (r < 4 → (4 * a + r) mod 4 = r)%nat) as Hmod.
  { intros a r Hr. rewrite Nat.add_comm, Nat.mul_comm, Nat.Div0.mod_add.
    by apply Nat.mod_small. }
  destruct Hq as [[Hh Hs]|[[Hh Hs]|[Hh Hs]]].
  - exfalso. apply Hm. rewrite Hs. replace (S (4 * q)) with (4 * q + 1)%nat by lia.
    apply Hmod. lia.
  - lia.
  - lia.
Qed.

Lemma encodeHashToBase64_no_colon h : colon ∉ encodeHashToBase64 h.
Proof.
  intros Hin. pose proof (encodeHashToBase64_chars h) as Hc.
  rewrite Forall_forall in Hc. by destruct (urlChar_facts _ (Hc _ Hin)) as (_ & ? & _).
Qed.

Lemma uint8ArrayFromString_length s : length (uint8ArrayFromString s) = length s.
Proof. unfold uint8ArrayFromString. apply length_map. Qed.

(** For no cell id does [cellIdFromString] give back what
    [cellIdToString] was given. *)
Lemma cellIdFromString_never_inverts (c : CellId) :
  cellIdFromString (cellIdToString c) ≠ Some c.
Proof.
  destruct c as [d a]. unfold cellIdFromString, cellIdToString. simpl fst. simpl snd.
  change (encodeHashToBase64 d ++ [colon] ++ encodeHashToBase64 a)
    with (encodeHashToBase64 d ++ colon :: encodeHashToBase64 a).
  rewrite (SecretsFacts.splitOn_app _ _ _ (encodeHashToBase64_no_colon d)).
  rewrite (SecretsFacts.splitOn_without _ _ (encodeHashToBase64_no_colon a)).
  cbn [lookup list_lookup default from_option]. unfold id.
  pose proof (atob_encodeHashToBase64 d) as Hd.
  destruct (atob (encodeHashToBase64 d)) as [ds|]; [|done].
  destruct (atob (encodeHashToBase64 a)) as [as'|]; [|done].
  intros [= Heq _]. apply Hd. rewrite <- (uint8ArrayFromString_length ds). by rewrite Heq.
Qed.

(** C9 fails on the code.  The string form of a cell id carries the [u]
    prefix of [encodeHashToBase64] on both hashes, in the URL-safe alphabet
    and without padding, and [cellIdFromString] hands the pieces to [atob]
    as they are.  So [cellIdFromString] gives back the cell id for no cell
    id at all; for hashes of 39 bytes each piece has 53 characters, which
    [atob] refuses, and for shorter ones other bytes come back. *)
Theorem cellIdFromString_rejects_cellIdToString :
  (∀ c : CellId, cellIdFromString (cellIdToString c) ≠ Some c)
  ∧ cellIdToString (sampleDnaHash, sampleAgentKey)
  = js "uhC0kBwcHBwcHBwcHBwcHBwcHBwcHBwcHBwcHBwcHBwcHBwcHBwcH:uhCAkCQkJCQkJCQkJCQkJCQkJCQkJCQkJCQkJCQkJCQkJCQkJCQkJ"
  ∧ cellIdFromString (cellIdToString (sampleDnaHash, sampleAgentKey)) = None
  ∧ cellIdFromString (cellIdToString ([x01; x02], [x03]))
    = Some ([xb8; x04; x08], [xb8; x0c]).
Proof. split; [apply cellIdFromString_never_inverts|]. vm_compute. done. Qed.

(** *** getNetworks *)

Lemma pushNetwork_cloned localData now acc c :
  ∃ n, pushNetwork localData now acc (cloned c) = acc ++ [n] ∧ joined localData c n.
Proof.
  eexists. split; [reflexivity|].
  unfold joined, localPassphrase, exposedSeed. simpl.
  split; [done|]. split; [done|]. split; [|split; [|split; [|done]]].
  - destruct (List.find _ localData) as [l|]; simpl.
    + destruct (truthy (local_passphrase l)) eqn:Et; simpl.
      * by destruct (dna_modifiers c ≫= network_seed).
      * destruct (local_passphrase l) as [|? ?] eqn:El; [|done].
        destruct (dna_modifiers c ≫= network_seed) as [seed|]; [|done].
        by destruct (truthy seed).
    + destruct (dna_modifiers c ≫= network_seed) as [seed|]; [|done].
      by destruct (truthy seed).
  - intros l ->. simpl. split.
    + intros Ht. unfold orElse. by rewrite Ht.
    + intros Hj. by destruct (N.eqb_spec (local_joinedAt l) 0).
  - by intros ->.
Qed.

(** The loop appends to [acc] one joined network per cloned cell, in the
    order of the cells. *)
Lemma getNetworksLoop_joined localData now cells :
  ∀ i acc, ∃ ns,
    getNetworksLoop localData now i cells acc = acc ++ ns
    ∧ Forall2 (joined localData) (clonedCells cells) ns.
Proof.
  induction cells as [|cell cells IH]; intros i acc.
  - exists []. simpl. by rewrite app_nil_r.
  - simpl getNetworksLoop. destruct cell as [pc|c|].
    + destruct (IH (S i) acc) as [ns [Heq Hall]]. by exists ns.
    + destruct (pushNetwork_cloned localData (now i) acc c) as [n [Hn Hj]].
      rewrite Hn. destruct (IH (S i) (acc ++ [n])) as [ns [Heq Hall]].
      exists (n :: ns). split.
      * rewrite Heq. by rewrite <- app_assoc.
      * simpl. by constructor.
    + destruct (IH (S i) acc) as [ns [Heq Hall]]. by exists ns.
Qed.

Lemma elem_of_clonedCells c cells : c ∈ clonedCells cells ↔ cloned c ∈ cells.
Proof.
  unfold clonedCells. rewrite list_elem_of_omap. split.
  - intros [cell [Hin Hc]]. destruct cell; simplify_eq. done.
  - intros Hin. by exists (cloned c).
Qed.


End RegistryFacts.

(** ** The stores *)

Module StoreFacts.
Import JsString Registry Session Props Run.

(** Unfolds the operations of the two stores. *)
Ltac unfold_ops :=
  unfold SharesStore.init, SharesStore.init_resumed, SharesStore.refresh,
    SharesStore.refresh_resumed, SharesStore.createShare,
    SharesStore.createShare_resumed, SharesStore.deleteShare,
    SharesStore.deleteShare_resumed, fetch_resumed,
    SharesStore.fetchAndCacheShares_resumed,
    SharesStore.refreshInBackground_resumed,
    NetworksStore.init, NetworksStore.init_resumed, NetworksStore.createNetwork,
    NetworksStore.createNetwork_resumed, NetworksStore.joinNetwork,
    NetworksStore.joinNetwork_resumed, NetworksStore.leaveNetwork,
    NetworksStore.leaveNetwork_resumed, NetworksStore.updateName,
    NetworksStore.reset, NetworksStore.setActiveNetwork,
    NetworksStore.persistActive,
    SharesStore.switchNetwork, SharesStore.fetchAndCacheShares,
    SharesStore.refreshInBackground, SharesStore.acquireClient,
    SharesStore.cachePut, SharesStore.displayed,
    Registry.createNetwork, Registry.joinNetwork,
    clientSetCellId, getClient, getAppClient, update, updateShares, await, resume
    in *.

Ltac crush_ops :=
  repeat (progress (unfold_ops; simpl in *; try case_match; simplify_eq)).

Section Facts.
Context {ShareItemInfo ShareItem : Type}.
Variable toShareItem : ShareItemInfo → ShareItem.
Variable shareId : ShareItem → jsstring.
Variable browser : bool.

Local Abbreviation World := (World ShareItem).
Local Abbreviation step := (step toShareItem shareId browser).
Local Abbreviation reachable := (reachable toShareItem shareId browser).

(** *** Settling the fetches that were launched last *)

Lemma lookup_last_but_one {A} (l : list A) a b :
  ((l ++ [a]) ++ [b]) !! length l = Some a.
Proof. rewrite <- app_assoc. by apply list_lookup_middle. Qed.

Lemma lookup_last_of_two {A} (l : list A) a b :
  ((l ++ [a]) ++ [b]) !! S (length l) = Some b.
Proof.
  rewrite lookup_app_r; rewrite length_app; simpl; [|lia].
  by replace (S (length l) - (length l + 1))%nat with 0%nat by lia.
Qed.

Lemma lookup_last {A} (l : list A) a : (l ++ [a]) !! length l = Some a.
Proof. by apply list_lookup_middle. Qed.

Lemma delete_last_but_one {A} (l : list A) a b :
  delete (length l) ((l ++ [a]) ++ [b]) = l ++ [b].
Proof. rewrite <- app_assoc. apply delete_middle. Qed.

Lemma delete_last_of_two {A} (l : list A) a b :
  delete (S (length l)) ((l ++ [a]) ++ [b]) = l ++ [a].
Proof.
  replace (S (length l)) with (length (l ++ [a])) by (rewrite length_app; simpl; lia).
  rewrite (delete_middle (l ++ [a]) [] b). by rewrite app_nil_r.
Qed.

Lemma delete_last {A} (l : list A) a : delete (length l) (l ++ [a]) = l.
Proof. rewrite (delete_middle l [] a). by rewrite app_nil_r. Qed.

Ltac settle_lists :=
  repeat first
    [ rewrite lookup_last_but_one | rewrite lookup_last_of_two | rewrite lookup_last
    | rewrite delete_last_but_one | rewrite delete_last_of_two | rewrite delete_last ].

(** The store never lets go of its client. *)
Lemma step_client_kept (w w' : World) :
  step w w' → client (sharesStore w) = true → client (sharesStore w') = true.
Proof.
  intros Hstep Hc. destruct Hstep; crush_ops; done.
Qed.

(** *** The race rule *)

(** What a fetch launched by the cache does when it is fulfilled. *)
Lemma guarded_apply (p : Pending ShareItem) k infos (w : World) :
  capturedId p = Some k →
  let w' := fetch_resumed toShareItem p (Fulfilled infos) w in
  _cache (sharesStore w') = <[k := List.map toShareItem infos]> (_cache (sharesStore w))
  ∧ _currentNetworkId (sharesStore w') = _currentNetworkId (sharesStore w)
  ∧ _shares (sharesStore w') =
      if bool_decide (_currentNetworkId (sharesStore w) = Some k)
      then List.map toShareItem infos else _shares (sharesStore w).
Proof.
  intros Hp. destruct p; simplify_eq/=; crush_ops; done.
Qed.

Lemma capturedId_isFetch (p : Pending ShareItem) k :
  capturedId p = Some k → isFetch p = true.
Proof. by destruct p. Qed.

(** What a fetch launched by the cache leaves alone, however it settles. *)
Lemma fetch_resumed_frame (p : Pending ShareItem) k outcome (w : World) :
  capturedId p = Some k →
  let w' := fetch_resumed toShareItem p outcome w in
  pending w' = pending w
  ∧ _currentNetworkId (sharesStore w') = _currentNetworkId (sharesStore w)
  ∧ (_currentNetworkId (sharesStore w) ≠ Some k →
       _shares (sharesStore w') = _shares (sharesStore w)).
Proof.
  intros Hp. destruct p; simplify_eq/=; destruct outcome; crush_ops;
    repeat split; try done; intros Hne; by case_bool_decide.
Qed.

Lemma settleFetch_at i (p : Pending ShareItem) outcome (w : World) :
  pending w !! i = Some p → isFetch p = true →
  settleFetch toShareItem i outcome w = fetch_resumed toShareItem p outcome (resume i w).
Proof. intros Hi Hf. unfold settleFetch. by rewrite Hi, Hf. Qed.

(** A [switchNetwork] that finds a client launches one fetch for the id it
    is given, and displays that id. *)
Lemma switchNetwork_launch k (w : World) :
  is_Some (SharesStore.acquireClient w) →
  ∃ p, pending (SharesStore.switchNetwork k w) = pending w ++ [p]
       ∧ capturedId p = Some k
       ∧ client (sharesStore (SharesStore.switchNetwork k w)) = true
       ∧ _currentNetworkId (sharesStore (SharesStore.switchNetwork k w)) = Some k.
Proof.
  intros [w0 Hw0].
  destruct w as [conn ls st [sh ld er cn hn cache cur cl] pend].
  unfold SharesStore.acquireClient in Hw0. simpl in Hw0.
  destruct cl; [|destruct conn as [c|]; [|done]]; clear Hw0;
    unfold SharesStore.switchNetwork, SharesStore.acquireClient; simpl;
    destruct (cache !! k) as [cached|]; simpl; eexists; done.
Qed.

(** C1.  A fetch launched by the cache, in the foreground by
    [fetchAndCacheShares] or in the background by [refreshInBackground],
    with the captured network id [k]: when it is fulfilled its result is
    written into the cache under [k], the other entries being kept, and
    into the live view only if the displayed id is still [k]; otherwise the
    live view is left as it is.
    And when [switchNetwork A] is followed at once by [switchNetwork B], for
    [A] other than [B], the two calls launch one fetch each, and once both
    have settled, in either order and whatever comes of the fetch for [A],
    the live view holds what was fetched for [B]. *)
Theorem race_rule :
  (∀ (p : Pending ShareItem) k infos (w : World),
     capturedId p = Some k →
     let w' := fetch_resumed toShareItem p (Fulfilled infos) w in
     _cache (sharesStore w') = <[k := List.map toShareItem infos]> (_cache (sharesStore w))
     ∧ (_currentNetworkId (sharesStore w) = Some k →
          _shares (sharesStore w') = List.map toShareItem infos)
     ∧ (_currentNetworkId (sharesStore w) ≠ Some k →
          _shares (sharesStore w') = _shares (sharesStore w)))
  ∧ (∀ A B infosB outcomeA (w : World),
       A ≠ B → is_Some (SharesStore.acquireClient w) →
       let n := length (pending w) in
       let w2 := SharesStore.switchNetwork B (SharesStore.switchNetwork A w) in
       ∃ pA pB,
         pending w2 = pending w ++ [pA; pB]
         ∧ capturedId pA = Some A ∧ capturedId pB = Some B
         ∧ _shares (sharesStore
              (settleFetch toShareItem n (Fulfilled infosB)
                 (settleFetch toShareItem n outcomeA w2)))
           = List.map toShareItem infosB
         ∧ _shares (sharesStore
              (settleFetch toShareItem n outcomeA
                 (settleFetch toShareItem (S n) (Fulfilled infosB) w2)))
           = List.map toShareItem infosB).
Proof.
  split.
  - intros p k infos w Hp w'.
    destruct (guarded_apply p k infos w Hp) as [Hc [_ Hs]]. fold w' in Hc, Hs.
    rewrite Hs. split; [done|].
    split; intros H; case_bool_decide; done.
  - intros A B infosB outcomeA w HAB Hcl n w2.
    destruct (switchNetwork_launch A w Hcl) as [pA [HpA [HcA [HclA _]]]].
    assert (is_Some (SharesStore.acquireClient (SharesStore.switchNetwork A w)))
      as Hcl1 by (unfold SharesStore.acquireClient; rewrite HclA; eauto).
    destruct (switchNetwork_launch B _ Hcl1) as [pB [HpB [HcB [_ HcurB]]]].
    fold w2 in HpB, HcurB. rewrite HpA in HpB. fold n.
    exists pA, pB. split; [by rewrite HpB, <- app_assoc|].
    split; [done|]. split; [done|].
    assert (Some B ≠ Some A) as HBA by congruence.
    split.
    + (* the fetch for A settles first *)
      rewrite (settleFetch_at n pA outcomeA w2);
        [|rewrite HpB; apply lookup_last_but_one|by eapply capturedId_isFetch].
      destruct (fetch_resumed_frame pA A outcomeA (resume n w2) HcA) as [Hp1 [Hc1 _]].
      set (w3 := fetch_resumed toShareItem pA outcomeA (resume n w2)) in *.
      assert (pending w3 = pending w ++ [pB]) as Hp3.
      { rewrite Hp1. simpl. rewrite HpB. apply delete_last_but_one. }
      rewrite (settleFetch_at n pB (Fulfilled infosB) w3);
        [|rewrite Hp3; apply lookup_last|by eapply capturedId_isFetch].
      destruct (guarded_apply pB B infosB (resume n w3) HcB) as [_ [_ ->]].
      simpl. rewrite Hc1. simpl. rewrite HcurB. by rewrite bool_decide_eq_true_2.
    + (* the fetch for B settles first *)
      rewrite (settleFetch_at (S n) pB (Fulfilled infosB) w2);
        [|rewrite HpB; apply lookup_last_of_two|by eapply capturedId_isFetch].
      destruct (guarded_apply pB B infosB (resume (S n) w2) HcB) as [_ [Hc1 Hs1]].
      destruct (fetch_resumed_frame pB B (Fulfilled infosB) (resume (S n) w2) HcB)
        as [Hp1 _].
      set (w3 := fetch_resumed toShareItem pB (Fulfilled infosB) (resume (S n) w2)) in *.
      simpl in Hc1, Hs1. rewrite HcurB in Hc1, Hs1.
      rewrite bool_decide_eq_true_2 in Hs1 by done.
      assert (pending w3 = pending w ++ [pA]) as Hp3.
      { rewrite Hp1. simpl. rewrite HpB. apply delete_last_of_two. }
      rewrite (settleFetch_at n pA outcomeA w3);
        [|rewrite Hp3; apply lookup_last|by eapply capturedId_isFetch].
      destruct (fetch_resumed_frame pA A outcomeA (resume n w3) HcA) as [_ [_ ->]].
      * exact Hs1.
      * simpl. by rewrite Hc1.
Qed.

(** *** The cache and the client *)

Ltac held_closer :=
  first
    [ left; done
    | right; split; [done|];
      repeat first
        [ done
        | apply Forall_delete
        | apply Forall_app; split
        | apply Forall_cons; split; [done|]
        | apply Forall_nil ] ].

Lemma step_clientHeld (w w' : World) :
  step w w' → clientHeld w → clientHeld w'.
Proof.
  intros Hstep [Hc|[Hcache Hnf]]; [left; by eapply step_client_kept|].
  destruct (client (sharesStore w)) eqn:Hc; [left; by eapply step_client_kept|].
  destruct Hstep;
    try (match goal with
         | Hp : pending _ !! _ = Some ?p, Hf : isFetch ?p = true |- _ =>
             pose proof (Forall_lookup_1 _ _ _ _ Hnf Hp) as Hno; simpl in Hno; congruence
         end);
    unfold clientHeld in *; crush_ops; held_closer.
Qed.

Lemma reachable_clientHeld (w : World) : reachable w → clientHeld w.
Proof.
  intros [ls Hrtc].
  assert (clientHeld (initialWorld (ShareItem:=ShareItem) ls)) as Hinit.
  { right. split; [done|]. simpl. constructor. }
  induction Hrtc as [|w1 w2 w3 Hstep _ IH]; [done|].
  apply IH. by eapply step_clientHeld.
Qed.

(** C3.  In every world the session can be in, for a network id [k] with a
    cache entry, [switchNetwork k] puts the cached entry in the live view
    before it suspends, leaves the loading flag as it was, and suspends on a
    background refresh for [k].  If that refresh is rejected, the rejection
    changes nothing: the error state stays unset and the live view still
    holds the cached entry; whenever the rejection arrives, it leaves the
    session as it finds it. *)
Theorem cached_switch (k : jsstring) (cached : list ShareItem) (w : World) :
  reachable w →
  _cache (sharesStore w) !! k = Some cached →
  let w' := SharesStore.switchNetwork k w in
  _shares (sharesStore w') = cached
  ∧ _loading (sharesStore w') = _loading (sharesStore w)
  ∧ _error (sharesStore w') = None
  ∧ _currentNetworkId (sharesStore w') = Some k
  ∧ pending w' = pending w ++ [AwaitRefreshInBackground k (currentTarget w)]
  ∧ ∀ err,
      let w'' := settleFetch toShareItem (length (pending w)) (Rejected err) w' in
      _shares (sharesStore w'') = cached
      ∧ _loading (sharesStore w'') = _loading (sharesStore w)
      ∧ _error (sharesStore w'') = None
      ∧ _cache (sharesStore w'') = _cache (sharesStore w)
      ∧ pending w'' = pending w
      ∧ ∀ v : World,
          SharesStore.refreshInBackground_resumed toShareItem k (Rejected err) v = v.
Proof.
  intros Hreach Hk.
  destruct (reachable_clientHeld w Hreach) as [Hc|[Hcache _]];
    [|by rewrite Hcache, lookup_empty in Hk].
  destruct w as [conn ls st [sh ld er cn hn cache cur cl] pend].
  simpl in Hc, Hk. subst cl.
  unfold SharesStore.switchNetwork, SharesStore.acquireClient. simpl.
  rewrite Hk. simpl. repeat (split; [done|]).
  intros err. unfold settleFetch. simpl. settle_lists. simpl. settle_lists.
  done.
Qed.

(** *** The networks of the session *)

Lemma activeIffSelected_markActive a ns l e :
  activeIffSelected
    {| networks := List.map (NetworksStore.markActive a) ns; activeNetworkId := a;
       loading := l; error := e |}.
Proof.
  intros n Hn. simpl in *. apply list_elem_of_In, in_map_iff in Hn as [n0 [<- _]].
  simpl. unfold NetworksStore.hasId. apply bool_decide_eq_true.
Qed.

Lemma wellFormed_markActive a ns :
  Forall wellFormed ns → Forall wellFormed (List.map (NetworksStore.markActive a) ns).
Proof. intros H. induction H; simpl; constructor; done. Qed.

Lemma wellFormed_filter (f : Network → bool) ns :
  Forall wellFormed ns → Forall wellFormed (List.filter f ns).
Proof.
  intros H. induction H as [|n ns Hn _ IH]; simpl; [done|].
  destruct (f n); [by constructor|done].
Qed.

Lemma wellFormed_getNetworks appInfo ls now :
  Forall wellFormed (getNetworks appInfo ls now).
Proof.
  destruct appInfo as [appInfo|]; simpl; [|done].
  destruct (RegistryFacts.getNetworksLoop_joined (loadNetworksLocally ls) now
              (default [] (cell_info appInfo !! ROLE_NAME)) 0%nat [])
    as [ns [-> Hall]].
  simpl. induction Hall as [|c n cs ns' Hj _ IH]; constructor; [|done].
  destruct Hj as [Hid [Hs _]]. unfold wellFormed. by rewrite Hs, Hid.
Qed.

Lemma find_hasId_app ns n :
  is_Some (List.find (NetworksStore.hasId (Some (cellIdString n))) (ns ++ [n])).
Proof.
  destruct (List.find _ _) eqn:E; [eauto|].
  pose proof (find_none _ _ E n) as Hn.
  rewrite in_app_iff in Hn. specialize (Hn ltac:(right; by left)).
  unfold NetworksStore.hasId in Hn. by rewrite bool_decide_eq_true_2 in Hn.
Qed.

Ltac inv_closer :=
  repeat first
    [ done
    | apply Forall_delete
    | apply Forall_app; split
    | apply Forall_cons; split; [done|]
    | apply Forall_nil
    | split ].

(** The shares store does not touch the networks. *)
Lemma sessionInvariant_switchNetwork k (w : World) :
  sessionInvariant w → sessionInvariant (SharesStore.switchNetwork k w).
Proof.
  intros (Ha & Hw & Hp). unfold sessionInvariant in *. crush_ops; inv_closer.
Qed.

Lemma sessionInvariant_refresh_shares (w : World) :
  sessionInvariant w → sessionInvariant (SharesStore.refresh w).
Proof.
  intros (Ha & Hw & Hp). unfold sessionInvariant in *. crush_ops; inv_closer.
Qed.

Lemma sessionInvariant_setActiveNetwork k (w : World) :
  Forall wellFormed (networks (_state w)) → Forall leaveCaptured (pending w) →
  (activeIffSelected (_state w)
   ∨ is_Some (List.find (NetworksStore.hasId (Some k)) (networks (_state w)))) →
  sessionInvariant (NetworksStore.setActiveNetwork k w).
Proof.
  intros Hw Hp Ha. unfold NetworksStore.setActiveNetwork.
  destruct (List.find _ _) as [network|] eqn:E.
  - apply sessionInvariant_switchNetwork. split; [|split]; simpl.
    + apply activeIffSelected_markActive.
    + by apply wellFormed_markActive.
    + done.
  - destruct Ha as [Ha|[? ?]]; done.
Qed.

Lemma step_sessionInvariant (w w' : World) :
  step w w' → sessionInvariant w → sessionInvariant w'.
Proof.
  intros Hstep Hinv. pose proof Hinv as (Ha & Hw & Hp). destruct Hstep.
  - (* shares init *) unfold sessionInvariant in *. crush_ops; inv_closer.
  - unfold sessionInvariant in *. crush_ops; inv_closer.
  - by apply sessionInvariant_switchNetwork.
  - unfold sessionInvariant in *. crush_ops; inv_closer.
  - unfold sessionInvariant in *. crush_ops; inv_closer.
  - (* networks init *) unfold sessionInvariant in *. crush_ops; inv_closer.
  - unfold sessionInvariant in *. crush_ops; inv_closer.
  - unfold sessionInvariant in *. crush_ops; inv_closer.
  - apply sessionInvariant_setActiveNetwork; auto.
  - (* leaveNetwork *)
    unfold NetworksStore.leaveNetwork. destruct (negb _); [done|].
    destruct (List.find _ _) as [network|] eqn:E; [|done].
    apply find_some in E as [Hin Hid].
    split; [done|split; [done|]]. simpl. apply Forall_app. split; [done|].
    constructor; [|done]. simpl. split.
    + rewrite Forall_forall in Hw. by apply Hw, list_elem_of_In.
    + unfold NetworksStore.hasId in Hid. apply bool_decide_eq_true in Hid. congruence.
  - (* updateName *)
    unfold NetworksStore.updateName. split; [|split]; simpl; [| |done].
    + intros n Hn. simpl in Hn. apply list_elem_of_In, in_map_iff in Hn as [n0 [<- Hn0]].
      apply list_elem_of_In in Hn0. specialize (Ha n0 Hn0).
      by destruct (NetworksStore.hasId (Some k) n0).
    + clear Ha. induction Hw as [|n ns Hn _ IH]; simpl; constructor; [|done].
      by destruct (NetworksStore.hasId (Some k) n).
  - (* reset *)
    split; [|split]; simpl; [|done|done]. by intros n Hn%elem_of_nil.
  - unfold sessionInvariant in *. crush_ops; inv_closer.
  - (* a fetch settles *)
    unfold sessionInvariant in *. destruct p; try done; destruct outcome;
      crush_ops; inv_closer.
  - unfold sessionInvariant in *. destruct outcome; [|crush_ops; inv_closer].
    apply sessionInvariant_refresh_shares. unfold sessionInvariant. simpl. inv_closer.
  - unfold sessionInvariant in *. crush_ops; inv_closer.
  - (* the networks are listed *)
    unfold NetworksStore.init_resumed. destruct outcome as [appInfo|err].
    + set (ns := getNetworks appInfo _ now).
      set (a' := if _ && _ then _ else _).
      assert (sessionInvariant
                (with_state
                   {| networks := List.map (NetworksStore.markActive a') ns;
                      activeNetworkId := a'; loading := false; error := None |}
                   (resume i w))) as Hinv'.
      { split; [|split]; simpl.
        - apply activeIffSelected_markActive.
        - apply wellFormed_markActive, wellFormed_getNetworks.
        - by apply Forall_delete. }
      destruct a' as [id|]; [|done]. destruct (truthy id); [|done].
      destruct (List.find _ _); [|done].
      apply sessionInvariant_switchNetwork. exact Hinv'.
    + split; [done|split; [done|]]. by apply Forall_delete.
  - (* a network is created *)
    unfold NetworksStore.createNetwork_resumed.
    destruct outcome as [[[generated clonedCell] now]|err].
    + simpl. apply sessionInvariant_setActiveNetwork; simpl.
      * apply Forall_app. split; [done|]. by repeat constructor.
      * by apply Forall_delete.
      * right. apply (find_hasId_app _ (networkOfClone clonedCell _ _ now)).
    + split; [done|split; [done|]]. by apply Forall_delete.
  - (* a network is joined *)
    unfold NetworksStore.joinNetwork_resumed.
    destruct outcome as [[clonedCell now]|err].
    + simpl. apply sessionInvariant_setActiveNetwork; simpl.
      * apply Forall_app. split; [done|]. by repeat constructor.
      * by apply Forall_delete.
      * right. apply (find_hasId_app _ (networkOfClone clonedCell _ _ now)).
    + split; [done|split; [done|]]. by apply Forall_delete.
  - (* a network is left *)
    unfold NetworksStore.leaveNetwork_resumed. destruct outcome as [[]|err].
    + simpl. case_bool_decide; (split; [|split]); simpl;
        try apply activeIffSelected_markActive;
        try (by apply wellFormed_markActive, wellFormed_filter);
        by apply Forall_delete.
    + split; [done|split; [done|]]. by apply Forall_delete.
Qed.

Lemma reachable_sessionInvariant (w : World) : reachable w → sessionInvariant w.
Proof.
  intros [ls Hrtc].
  assert (sessionInvariant (initialWorld (ShareItem:=ShareItem) ls)) as Hinit.
  { split; [|split]; simpl; [|done|done]. by intros n Hn%elem_of_nil. }
  induction Hrtc as [|w1 w2 w3 Hstep _ IH]; [done|].
  apply IH. by eapply step_sessionInvariant.
Qed.

(** C8, as amended.  In every world the session can be in, a network of
    the sequence is flagged active exactly when its id is the selected one.
    Hence any two flagged entries carry the same id, and at most one entry
    is flagged whenever no two entries of the sequence share an id. *)
Theorem active_flag_invariant (w : World) :
  reachable w →
  activeIffSelected (_state w)
  ∧ (∀ n m, n ∈ networks (_state w) → m ∈ networks (_state w) →
            isActive n = true → isActive m = true → cellIdString n = cellIdString m)
  ∧ (NoDup (List.map cellIdString (networks (_state w))) →
       atMostOneActive (networks (_state w))).
Proof.
  intros Hreach. destruct (reachable_sessionInvariant w Hreach) as (Ha & _ & _).
  assert (∀ n m, n ∈ networks (_state w) → m ∈ networks (_state w) →
            isActive n = true → isActive m = true → cellIdString n = cellIdString m)
    as Hsame.
  { intros n m Hn Hm Han Ham. apply (Ha n Hn) in Han. apply (Ha m Hm) in Ham.
    congruence. }
  split; [done|]. split; [done|].
  intros Hnd i j n m Hi Hj Han Ham.
  change (List.map cellIdString (networks (_state w)))
    with (cellIdString <$> networks (_state w)) in Hnd.
  eapply (NoDup_lookup _ i j (cellIdString n) Hnd).
  - by rewrite list_lookup_fmap, Hi.
  - rewrite list_lookup_fmap, Hj. simpl. f_equal. symmetry.
    apply Hsame; try done; by eapply list_elem_of_lookup_2.
Qed.

(** *** Leaving the active network *)

Lemma resume_await (p : Pending ShareItem) (w : World) :
  resume (length (pending w)) (await p w) = w.
Proof. destruct w. unfold resume, await. simpl. by rewrite delete_last. Qed.

Lemma wellFormed_truthy n : wellFormed n → truthy (cellIdString n) = true.
Proof. unfold wellFormed. by intros ->. Qed.

Lemma firstId_wellFormed ns :
  Forall wellFormed ns → NetworksStore.firstId ns = cellIdString <$> head ns.
Proof.
  intros H. unfold NetworksStore.firstId. destruct H as [|n ns Hn _]; [done|].
  simpl. by rewrite (wellFormed_truthy n Hn).
Qed.

Lemma filter_other_ids k data :
  Forall (λ l, local_cellIdString l ≠ k)
         (List.filter (λ l, negb (sameId k l)) data).
Proof.
  induction data as [|l data IH]; simpl; [done|].
  destruct (sameId k l) eqn:E; simpl; [done|]. constructor; [|done].
  unfold sameId in E. by apply bool_decide_eq_false in E.
Qed.

(** C5.  In a world the session can be in, let [leaveNetwork k] be called
    for the active network [k], known as [network], with the conductor
    connected, and let the conductor accept to disable the clone.  Then the
    selected id becomes the id of the first network that remains, or none
    when no network remains; the durable last-active value is set to that id,
    or to the empty string when there is none; and the durable store holds
    no record under [k] any more: its records are the former ones without
    those of [k]. *)
Theorem leave_active_network (k : jsstring) (network : Network) (w : World) :
  reachable w →
  getAppClient w = true →
  activeNetworkId (_state w) = Some k →
  List.find (NetworksStore.hasId (Some k)) (networks (_state w)) = Some network →
  let remaining :=
    List.filter (λ n, negb (NetworksStore.hasId (Some k) n)) (networks (_state w)) in
  let w1 := NetworksStore.leaveNetwork k w in
  let w' := NetworksStore.leaveNetwork_resumed k network (Fulfilled ())
              (resume (length (pending w)) w1) in
  pending w1 !! length (pending w) = Some (AwaitDisableNetwork k network)
  ∧ activeNetworkId (_state w') = cellIdString <$> head remaining
  ∧ sharefeed_active_network (localStorage w')
    = Some (default [] (cellIdString <$> head remaining))
  ∧ sharefeed_networks (localStorage w')
    = Some (List.filter (λ l, negb (sameId k l)) (loadNetworksLocally (localStorage w)))
  ∧ Forall (λ l, local_cellIdString l ≠ k) (loadNetworksLocally (localStorage w'))
  ∧ networks (_state w')
    = List.map (NetworksStore.markActive (cellIdString <$> head remaining)) remaining.
Proof.
  intros Hreach Hconn Hact Hfind remaining w1 w'.
  destruct (reachable_sessionInvariant w Hreach) as (_ & Hwf & _).
  pose proof (find_some _ _ Hfind) as [Hin Hid].
  unfold NetworksStore.hasId in Hid. apply bool_decide_eq_true in Hid.
  assert (cellIdString network = k) as Hk by congruence.
  assert (cellIdToString (cellId network) = k) as Hk'.
  { rewrite Forall_forall in Hwf. rewrite <- Hk. symmetry.
    by apply Hwf, list_elem_of_In. }
  assert (w1 = await (AwaitDisableNetwork k network) w) as Hw1.
  { unfold w1, NetworksStore.leaveNetwork. by rewrite Hconn, Hfind. }
  split; [rewrite Hw1; apply lookup_last|].
  unfold w'. rewrite Hw1, resume_await.
  unfold NetworksStore.leaveNetwork_resumed. simpl.
  rewrite Hact, bool_decide_eq_true_2 by done. fold remaining.
  rewrite (firstId_wellFormed remaining) by (by apply wellFormed_filter).
  simpl. unfold disableNetwork. simpl. rewrite Hk'. repeat (split; [done|]).
  split; [|done]. apply filter_other_ids.
Qed.

(** *** Selecting a network *)

(** *** Selecting a network *)





End Facts.
End StoreFacts.

(** ** The statements at sample sessions *)

Module SampleFacts.
Import JsString Registry Session Props Run Examples StoreFacts.

Local Abbreviation step := (step toItem itemId true).
Local Abbreviation reachable := (reachable toItem itemId true).

Lemma connected_reachable : reachable connected.
Proof.
  exists emptyStorage. unfold connected.
  eapply rtc_l; [apply call_shares_init|].
  eapply rtc_l;
    [eapply (settle_connect _ _ _ 0 false (Fulfilled ())); vm_compute; reflexivity|].
  apply rtc_refl.
Qed.

Lemma withBooks_reachable : reachable withBooks.
Proof.
  destruct connected_reachable as [ls Hrtc]. exists ls.
  eapply rtc_trans; [exact Hrtc|]. unfold withBooks.
  eapply rtc_l; [apply (call_createNetwork _ _ _ (js "Books") None)|].
  eapply rtc_l;
    [eapply (settle_createNetwork _ _ _ 0 (js "Books") None booksCreated);
     vm_compute; reflexivity|].
  apply rtc_refl.
Qed.

Lemma withBooksCached_reachable : reachable withBooksCached.
Proof.
  destruct withBooks_reachable as [ls Hrtc]. exists ls.
  eapply rtc_trans; [exact Hrtc|].
  apply rtc_once. unfold withBooksCached.
  rewrite (settleFetch_at toItem 0
             (AwaitFetchAndCache booksId (Some (cell_id booksClone)))
             (Fulfilled [1; 2]) withBooks) by (vm_compute; reflexivity).
  eapply settle_fetch; vm_compute; reflexivity.
Qed.

Lemma withFilms_reachable : reachable withFilms.
Proof.
  destruct withBooks_reachable as [ls Hrtc]. exists ls.
  eapply rtc_trans; [exact Hrtc|]. unfold withFilms.
  eapply rtc_l; [apply (call_joinNetwork _ _ _ (js "one two three four five")
                          (Some (js "Films")))|].
  eapply rtc_l; [|apply rtc_refl].
  eapply (settle_joinNetwork _ _ _ 1 (js "one two three four five") (Some (js "Films"))
            (Fulfilled (filmsClone, 1700000000001))).
  vm_compute. reflexivity.
Qed.

Lemma listedThenCreated_reachable : reachable listedThenCreated.
Proof.
  destruct connected_reachable as [ls Hrtc]. exists ls.
  eapply rtc_trans; [exact Hrtc|]. unfold listedThenCreated.
  eapply rtc_l; [apply (call_createNetwork _ _ _ (js "Books") None)|].
  eapply rtc_l; [apply call_init|].
  eapply rtc_l;
    [eapply (settle_getNetworks _ _ _ 1 (Fulfilled (Some booksListed))
               (λ _, 1700000000000)); vm_compute; reflexivity|].
  eapply rtc_l; [|apply rtc_refl].
  eapply (settle_createNetwork _ _ _ 0 (js "Books") None booksCreated).
  vm_compute. reflexivity.
Qed.

(** C8, as first stated, fails: the store appends what the conductor
    returns without looking for the id in the sequence.  When the list of
    networks is refreshed while a creation is under way and already lists
    the new clone, the clone is entered twice, and both entries are flagged
    active. *)
Lemma duplicate_network_both_active :
  reachable listedThenCreated
  ∧ ¬ atMostOneActive (networks (_state listedThenCreated)).
Proof.
  split; [apply listedThenCreated_reachable|]. intros H.
  assert (∃ n m, networks (_state listedThenCreated) = [n; m]
                 ∧ isActive n = true ∧ isActive m = true)
    as (n & m & Hn & Ha & Hb).
  { vm_compute. eexists _, _. split; [reflexivity|]. split; reflexivity. }
  specialize (H 0%nat 1%nat n m). rewrite Hn in H.
  specialize (H eq_refl eq_refl Ha Hb). discriminate.
Qed.

Lemma active_flag_invariant_witness :
  activeIffSelected (_state withFilms)
  ∧ atMostOneActive (networks (_state withFilms)).
Proof.
  destruct (active_flag_invariant toItem itemId true withFilms withFilms_reachable)
    as (Hiff & _ & Hone).
  split; [exact Hiff|]. apply Hone.
  vm_compute. repeat constructor; intros H;
    repeat (apply elem_of_cons in H as [H|H]; [discriminate H|]);
    by apply elem_of_nil in H.
Defined.

Lemma race_rule_witness :
  let w2 := SharesStore.switchNetwork (js "B") (SharesStore.switchNetwork (js "A") connected) in
  ∃ pA pB,
    pending w2 = pending connected ++ [pA; pB]
    ∧ capturedId pA = Some (js "A") ∧ capturedId pB = Some (js "B")
    ∧ _shares (sharesStore
         (settleFetch toItem 0 (Fulfilled [7])
            (settleFetch toItem 0 (Fulfilled [5]) w2))) = [7]
    ∧ _shares (sharesStore
         (settleFetch toItem 0 (Fulfilled [5])
            (settleFetch toItem 1 (Fulfilled [7]) w2))) = [7].
Proof.
  apply (proj2 (race_rule toItem) (js "A") (js "B") [7] (Fulfilled [5]) connected).
  - vm_compute. discriminate.
  - vm_compute. eauto.
Defined.

Lemma cached_switch_witness :
  _shares (sharesStore (SharesStore.switchNetwork booksId withBooksCached)) = [1; 2].
Proof.
  refine (proj1 (cached_switch toItem itemId true booksId [1; 2] withBooksCached
                   withBooksCached_reachable _)).
  vm_compute. reflexivity.
Defined.

(** The loading flag is not touched by a switch to a cached network: a
    flag that an earlier foreground fetch has raised stays up, also after
    that fetch has settled for a network that is no longer displayed. *)
Remark loading_flag_left_raised :
  let w1 := SharesStore.switchNetwork filmsId withBooksCached in
  let w2 := SharesStore.switchNetwork booksId w1 in
  let w3 := settleFetch toItem 0 (Fulfilled [3]) w2 in
  _loading (sharesStore withBooksCached) = false
  ∧ _shares (sharesStore w2) = [1; 2] ∧ _loading (sharesStore w2) = true
  ∧ _shares (sharesStore w3) = [1; 2] ∧ _loading (sharesStore w3) = true.
Proof. vm_compute. done. Qed.


Lemma leave_active_network_witness :
  let w' := NetworksStore.leaveNetwork_resumed filmsId filmsNetwork (Fulfilled ())
              (resume (length (pending withFilms))
                 (NetworksStore.leaveNetwork filmsId withFilms)) in
  activeNetworkId (_state w') = Some booksId
  ∧ sharefeed_active_network (localStorage w') = Some booksId.
Proof.
  destruct (leave_active_network toItem itemId true filmsId filmsNetwork withFilms)
    as (_ & Hact & Hls & _).
  - apply withFilms_reachable.
  - vm_compute. reflexivity.
  - vm_compute. reflexivity.
  - vm_compute. reflexivity.
  - split; [exact Hact|exact Hls].
Defined.

End SampleFacts.

(** * Further properties *)

(** ** Passphrases and seeds *)

Module PassphraseFacts.
Import JsString Secrets Props Passphrases.

(** Closes [c ∉ s] for a literal [s]. *)
Ltac not_member :=
  vm_compute;
  let H := fresh in
  intros H; repeat (apply elem_of_cons in H as [H|H]; [discriminate H|]);
  by apply elem_of_nil in H.

Lemma splitWs_app_word w r :
  Forall (λ c, isWhiteSpace c = false) w →
  splitWs (w ++ r) =
    match splitWs r with
    | t :: ts => (w ++ t) :: ts
    | [] => [w]
    end.
Proof.
  intros Hw. induction Hw as [|c w Hc _ IH]; simpl.
  - by destruct (SecretsFacts.splitWs_cons r) as [t [ts ->]].
  - rewrite Hc, IH. by destruct (splitWs r).
Qed.

Lemma afterWs_word c s :
  isWhiteSpace c = false → afterWs (c :: s) = splitWs (c :: s).
Proof. intros Hc. simpl. by rewrite Hc. Qed.

Lemma join_cons_cons sep w v ws :
  join sep (w :: v :: ws) = w ++ sep ++ join sep (v :: ws).
Proof. done. Qed.

Lemma join_head sep c w ws : ∃ r, join sep ((c :: w) :: ws) = c :: r.
Proof. destruct ws; simpl; eauto. Qed.

(** Splitting on white space undoes joining clean words with a space. *)
Lemma splitWs_join_words w ws :
  Forall cleanWord (w :: ws) → splitWs (join [space] (w :: ws)) = w :: ws.
Proof.
  revert w. induction ws as [|v ws IH]; intros w Hall.
  - apply Forall_cons in Hall as [[_ Hw] _].
    change (join [space] [w]) with w.
    pose proof (splitWs_app_word w [] Hw) as Hsp. simpl in Hsp.
    by rewrite !app_nil_r in Hsp.
  - apply Forall_cons in Hall as [[_ Hw] Hrest].
    rewrite join_cons_cons, (splitWs_app_word _ _ Hw).
    change (splitWs ([space] ++ join [space] (v :: ws)))
      with ([] :: afterWs (join [space] (v :: ws))).
    cbv beta iota. rewrite app_nil_r. f_equal.
    pose proof Hrest as Hrest'. apply Forall_cons in Hrest' as [[Hne Hv] _].
    destruct v as [|c v']; [done|].
    destruct (join_head [space] c v' ws) as [r Hr].
    assert (isWhiteSpace c = false) as Hc by (by apply Forall_cons in Hv as [? _]).
    rewrite Hr, (afterWs_word c r Hc), <- Hr. by apply IH.
Qed.

Lemma trimEnd_clean s : endsClean s = true → trimEnd s = s.
Proof.
  induction s as [|c s IH]; [done|]. intros Hend. destruct s as [|d s'].
  - simpl in *. apply negb_true_iff in Hend. by rewrite Hend.
  - assert (endsClean (d :: s') = true) as Hend' by exact Hend.
    specialize (IH Hend').
    assert (trimEnd (c :: d :: s') =
      match trimEnd (d :: s') with
      | [] => if isWhiteSpace c then [] else [c]
      | t => c :: t
      end) as -> by done.
    by rewrite IH.
Qed.

Lemma endsClean_app x y : y ≠ [] → endsClean (x ++ y) = endsClean y.
Proof.
  intros Hy. induction x as [|c x IH]; [done|].
  simpl. destruct (x ++ y) as [|d r] eqn:E; [|done].
  by apply app_eq_nil in E as [_ ->].
Qed.

Lemma endsClean_word w :
  Forall (λ c, isWhiteSpace c = false) w → endsClean w = true.
Proof.
  induction 1 as [|c w Hc _ IH]; [done|]. simpl. destruct w; [by rewrite Hc|done].
Qed.

Lemma join_words_nonempty w ws : cleanWord w → join [space] (w :: ws) ≠ [].
Proof.
  intros [Hne _]. destruct w as [|c w]; [done|].
  by destruct (join_head [space] c w ws) as [r ->].
Qed.

Lemma endsClean_join_words w ws :
  Forall cleanWord (w :: ws) → endsClean (join [space] (w :: ws)) = true.
Proof.
  revert w. induction ws as [|v ws IH]; intros w Hall.
  - apply Forall_cons in Hall as [[_ Hw] _]. by apply endsClean_word.
  - apply Forall_cons in Hall as [_ Hrest].
    rewrite join_cons_cons, endsClean_app.
    + change ([space] ++ join [space] (v :: ws)) with (space :: join [space] (v :: ws)).
      pose proof (IH v Hrest) as Hend.
      apply Forall_cons in Hrest as [Hv _].
      pose proof (join_words_nonempty v ws Hv) as Hne.
      revert Hend Hne. generalize (join [space] (v :: ws)).
      by intros [|d r] Hend Hne.
    + done.
Qed.

(** [trim] leaves clean words joined by single spaces as they are. *)
Lemma trim_join_words w ws :
  Forall cleanWord (w :: ws) → trim (join [space] (w :: ws)) = join [space] (w :: ws).
Proof.
  intros Hall. unfold trim.
  assert (trimStart (join [space] (w :: ws)) = join [space] (w :: ws)) as ->.
  { pose proof Hall as Hall'. apply Forall_cons in Hall' as [[Hne Hw] _].
    destruct w as [|c w']; [done|].
    destruct (join_head [space] c w' ws) as [r ->].
    apply Forall_cons in Hw as [Hc _]. simpl. by rewrite Hc. }
  by apply trimEnd_clean, endsClean_join_words.
Qed.

(** No piece of a split holds white space. *)
Lemma split_pieces_clean s :
  Forall (Forall (λ c, isWhiteSpace c = false)) (splitWs s)
  ∧ Forall (Forall (λ c, isWhiteSpace c = false)) (afterWs s).
Proof.
  induction s as [|d s [IHs IHa]]; simpl.
  - split; by repeat constructor.
  - destruct (isWhiteSpace d) eqn:Hd.
    + split; [by constructor|done].
    + assert (Forall (Forall (λ c, isWhiteSpace c = false)) (consHead d (splitWs s))).
      { destruct IHs as [|t ts Ht Hts]; simpl; by repeat constructor. }
      done.
Qed.

(** The words of a passphrase that is not blank are clean. *)
Lemma words_clean p c t :
  trim p = c :: t → Forall cleanWord (splitWs (trim p)).
Proof.
  intros Ht.
  destruct (SecretsFacts.trim_shape p) as [He|[c' [t' [Ht' [Hc Hend]]]]]; [congruence|].
  rewrite Ht'.
  pose proof (SecretsFacts.trimmed_words_nonempty c' t' Hc Hend) as Hne.
  destruct (split_pieces_clean (c' :: t')) as [Hcl _].
  rewrite forallb_forall in Hne. rewrite Forall_forall in Hcl |- *.
  intros w Hw. split; [|by apply Hcl].
  specialize (Hne w ltac:(by apply list_elem_of_In)). by destruct w.
Qed.

(** The words of the normal form are the words. *)
Lemma words_normalise p :
  trim (normalise p) = normalise p
  ∧ splitWs (trim (normalise p)) = splitWs (trim p).
Proof.
  unfold normalise. destruct (trim p) as [|c t] eqn:Ht; [done|].
  pose proof (words_clean p c t Ht) as Hall. rewrite Ht in Hall.
  destruct (SecretsFacts.splitWs_cons (c :: t)) as [w [ws Hsp]]. rewrite Hsp in *.
  rewrite (trim_join_words w ws Hall). split; [done|].
  by apply splitWs_join_words.
Qed.


Lemma normalise_empty p : trim p = [] → normalise p = [].
Proof. unfold normalise. by intros ->. Qed.

Lemma normalise_nonempty p c t : trim p = c :: t → normalise p ≠ [].
Proof.
  intros Ht. pose proof (words_clean p c t Ht) as Hall. unfold normalise.
  destruct (SecretsFacts.splitWs_cons (trim p)) as [w [ws Hsp]]. rewrite Hsp in *.
  apply join_words_nonempty. by apply Forall_cons in Hall as [? _].
Qed.

Lemma validatePassphrase_normalise p :
  validatePassphrase (normalise p) = validatePassphrase p.
Proof.
  destruct (words_normalise p) as [Htrim Hwords].
  unfold validatePassphrase. rewrite Hwords. rewrite Htrim.
  destruct (trim p) as [|c t] eqn:Ht.
  - by rewrite (normalise_empty p Ht).
  - pose proof (normalise_nonempty p c t Ht). by destruct (normalise p).
Qed.

Lemma seed_normalise p :
  passphraseToNetworkSeed (normalise p) = passphraseToNetworkSeed p.
Proof.
  unfold passphraseToNetworkSeed. by destruct (words_normalise p) as [_ ->].
Qed.

Lemma elem_of_join c sep ws :
  c ∈ join sep ws → c ∈ sep ∨ ∃ w, w ∈ ws ∧ c ∈ w.
Proof.
  induction ws as [|w ws IH]; [by intros ?%elem_of_nil|].
  destruct ws as [|v ws].
  - intros Hc. right. exists w. split; [constructor|done].
  - rewrite join_cons_cons, !elem_of_app. intros [Hc|[Hc|Hc]].
    + right. exists w. split; [constructor|done].
    + by left.
    + destruct (IH Hc) as [?|[u [Hu ?]]]; [by left|].
      right. exists u. split; [by constructor|done].
Qed.

Lemma splitOn_pieces sep s : Forall (λ t, sep ∉ t) (splitOn sep s).
Proof.
  induction s as [|c s IH]; simpl.
  - repeat constructor. by intros ?%elem_of_nil.
  - destruct (N.eqb_spec c sep) as [->|Hne].
    + constructor; [by intros ?%elem_of_nil|done].
    + destruct IH as [|t ts Ht Hts]; simpl.
      * repeat constructor. rewrite list_elem_of_singleton. congruence.
      * constructor; [|done]. rewrite elem_of_cons. intros [?|?]; [congruence|done].
Qed.

(** The words of a passphrase, one to a draw. *)
Lemma generatePassphrase_join randomWord :
  generatePassphrase randomWord
  = join [space] (randomWord <$> [0; 1; 2; 3; 4]%nat).
Proof. done. Qed.

(** X1.  A passphrase that [generatePassphrase] builds from five words,
    each with a character and without white space, is single-spaced, splits
    into these five words and is accepted by [validatePassphrase]; when no
    word holds a hyphen, decoding its network seed gives it back. *)
Theorem generated_passphrase_accepted (randomWord : nat → jsstring) :
  (∀ i, (i < 5)%nat → cleanWord (randomWord i)) →
  let g := generatePassphrase randomWord in
  splitWs (trim g) = randomWord <$> [0; 1; 2; 3; 4]%nat
  ∧ singleSpaced g
  ∧ validatePassphrase g = {| valid := true; error := None |}
  ∧ isValidPassphrase g = true
  ∧ ((∀ i, (i < 5)%nat → hyphen ∉ randomWord i) →
     networkSeedToPassphrase (passphraseToNetworkSeed g) = g).
Proof.
  intros Hwords g.
  assert (Forall cleanWord (randomWord <$> [0; 1; 2; 3; 4]%nat)) as Hall.
  { repeat constructor; apply Hwords; lia. }
  assert (trim g = g) as Htrim.
  { unfold g. rewrite generatePassphrase_join. by apply trim_join_words. }
  assert (splitWs (trim g) = randomWord <$> [0; 1; 2; 3; 4]%nat) as Hsplit.
  { rewrite Htrim. unfold g. rewrite generatePassphrase_join.
    by apply splitWs_join_words. }
  assert (singleSpaced g) as Hsingle.
  { unfold singleSpaced. by rewrite Hsplit. }
  assert (validatePassphrase g = {| valid := true; error := None |}) as Hvalid.
  { assert (g ≠ []) as Hne.
    { unfold g. rewrite generatePassphrase_join.
      apply join_words_nonempty, Hwords. lia. }
    destruct g as [|c t] eqn:Hg; [done|].
    rewrite (SecretsFacts.validatePassphrase_trimmed (c :: t) c t Htrim).
    rewrite <- Htrim at 1. by rewrite Hsplit. }
  split_and!; [done..| |].
  - unfold isValidPassphrase. by rewrite Hvalid.
  - intros Hhyphen. rewrite SecretsFacts.decode_encode; [exact Hsingle|].
    unfold g. rewrite generatePassphrase_join.
    intros [Hsp|[w [Hw Hin]]]%elem_of_join.
    + by apply list_elem_of_singleton in Hsp.
    + apply list_elem_of_fmap in Hw as [i [-> Hi]].
      apply (Hhyphen i); [|done].
      repeat (apply elem_of_cons in Hi as [->|Hi]; [lia|]).
      by apply elem_of_nil in Hi.
Qed.

Lemma generated_passphrase_accepted_witness :
  let randomWord := λ i : nat, js "word" ++ js (pretty i) in
  isValidPassphrase (generatePassphrase randomWord) = true
  ∧ networkSeedToPassphrase (passphraseToNetworkSeed (generatePassphrase randomWord))
    = generatePassphrase randomWord.
Proof.
  intros randomWord.
  assert (∀ i, (i < 5)%nat → cleanWord (randomWord i)) as Hclean.
  { intros i Hi. do 5 (destruct i as [|i]; [split; [done|by vm_compute; repeat constructor]|]).
    lia. }
  destruct (generated_passphrase_accepted randomWord Hclean) as (_ & _ & _ & Hv & Hrt).
  split; [exact Hv|]. apply Hrt.
  intros i Hi. do 5 (destruct i as [|i]; [not_member|]). lia.
Defined.

(** X2.  The passphrase that [networkSeedToPassphrase] recovers from the
    seed of a passphrase without hyphen names the same network: it encodes
    to the same seed, and [validatePassphrase] judges it as it judges the
    original. *)
Theorem recovered_passphrase_same_seed (p : jsstring) :
  hyphen ∉ p →
  let q := networkSeedToPassphrase (passphraseToNetworkSeed p) in
  passphraseToNetworkSeed q = passphraseToNetworkSeed p
  ∧ validatePassphrase q = validatePassphrase p.
Proof.
  intros Hp q. unfold q. rewrite (SecretsFacts.decode_encode p Hp).
  split; [apply seed_normalise|apply validatePassphrase_normalise].
Qed.

Lemma recovered_passphrase_same_seed_witness :
  let p := js "  correct   horse battery staple  again " in
  let q := networkSeedToPassphrase (passphraseToNetworkSeed p) in
  q = js "correct horse battery staple again"
  ∧ passphraseToNetworkSeed q = passphraseToNetworkSeed p
  ∧ validatePassphrase q = validatePassphrase p.
Proof.
  intros p q. split; [by vm_compute|].
  apply (recovered_passphrase_same_seed p). not_member.
Defined.

(** X3.  Two passphrases without hyphen encode to the same network seed
    exactly when they have the same words: spacing does not matter, and
    nothing else is lost. *)
Theorem seed_determines_words (p q : jsstring) :
  hyphen ∉ p → hyphen ∉ q →
  passphraseToNetworkSeed p = passphraseToNetworkSeed q
  ↔ splitWs (trim p) = splitWs (trim q).
Proof.
  intros Hp Hq. unfold passphraseToNetworkSeed. split; [|by intros ->].
  intros Heq%app_inv_head.
  pose proof (SecretsFacts.words_without_hyphen p Hp) as Hwp.
  pose proof (SecretsFacts.words_without_hyphen q Hq) as Hwq.
  destruct (SecretsFacts.splitWs_cons (trim p)) as [w [ws Hsp]].
  destruct (SecretsFacts.splitWs_cons (trim q)) as [v [vs Hsq]].
  rewrite Hsp, Hsq in *.
  rewrite <- (SecretsFacts.splitOn_join hyphen w ws Hwp).
  rewrite <- (SecretsFacts.splitOn_join hyphen v vs Hwq).
  by rewrite Heq.
Qed.

Lemma seed_determines_words_witness :
  let p := js "alpha beta gamma delta echo" in
  let q := js " alpha  beta gamma delta   echo" in
  passphraseToNetworkSeed p = passphraseToNetworkSeed q
  ↔ splitWs (trim p) = splitWs (trim q).
Proof.
  intros p q. apply (seed_determines_words p q); not_member.
Defined.

(** With hyphens, two accepted passphrases of different words share a
    seed. *)
Remark hyphenated_words_collide :
  let p := js "a-b c d e f" in
  let q := js "a b-c d e f" in
  isValidPassphrase p = true ∧ isValidPassphrase q = true
  ∧ splitWs (trim p) ≠ splitWs (trim q)
  ∧ passphraseToNetworkSeed p = passphraseToNetworkSeed q.
Proof. by vm_compute. Qed.

(** X4.  A network seed starts with the [sharefeed-] prefix and holds no
    white space, whatever the passphrase. *)
Theorem seed_shape (p : jsstring) :
  startsWith (js "sharefeed-") (passphraseToNetworkSeed p) = true
  ∧ Forall (λ c, isWhiteSpace c = false) (passphraseToNetworkSeed p).
Proof.
  split; [apply SecretsFacts.startsWith_app|].
  unfold passphraseToNetworkSeed. apply Forall_app. split.
  - by vm_compute; repeat constructor.
  - destruct (split_pieces_clean (trim p)) as [Hcl _].
    apply Forall_forall. intros c [Hc|[w [Hw Hin]]]%elem_of_join.
    + apply list_elem_of_singleton in Hc as ->. done.
    + rewrite Forall_forall in Hcl. specialize (Hcl w Hw).
      rewrite Forall_forall in Hcl. by apply Hcl.
Qed.

(** X5.  [networkSeedToPassphrase] never returns a hyphen, so a passphrase
    that holds one is never what decoding its seed gives. *)
Theorem decoded_passphrase_has_no_hyphen (seed : jsstring) :
  (hyphen ∉ networkSeedToPassphrase seed)
  ∧ (∀ p, hyphen ∈ p → networkSeedToPassphrase (passphraseToNetworkSeed p) ≠ p).
Proof.
  assert (∀ s, hyphen ∉ networkSeedToPassphrase s) as Hno.
  { intros s. unfold networkSeedToPassphrase.
    intros [Hc|[w [Hw Hin]]]%elem_of_join.
    - by apply list_elem_of_singleton in Hc.
    - pose proof (splitOn_pieces hyphen (replace (js "sharefeed-") [] s)) as Hall.
      rewrite Forall_forall in Hall. by apply (Hall w Hw). }
  split; [apply Hno|]. intros p Hp Heq. apply (Hno (passphraseToNetworkSeed p)).
  by rewrite Heq.
Qed.

End PassphraseFacts.

(** ** The durable store of networks *)

Module DurableFacts.
Import JsString Secrets Base64 Registry Props Passphrases Clones.

Lemma sameId_spec k l : sameId k l = true ↔ local_cellIdString l = k.
Proof. unfold sameId. by rewrite bool_decide_eq_true. Qed.

Lemma find_replaceOrPush k d data :
  List.find (sameId k) (replaceOrPush d data)
  = if bool_decide (k = local_cellIdString d) then Some d
    else List.find (sameId k) data.
Proof.
  induction data as [|n rest IH]; simpl.
  - unfold sameId at 1. repeat case_bool_decide; congruence.
  - destruct (sameId (local_cellIdString d) n) eqn:Hn; simpl.
    + apply sameId_spec in Hn. unfold sameId at 1 3.
      repeat case_bool_decide; congruence.
    + rewrite IH. unfold sameId in Hn |- *.
      repeat case_bool_decide; congruence.
Qed.

Lemma ids_replaceOrPush d data :
  local_cellIdString <$> replaceOrPush d data
  = if bool_decide (local_cellIdString d ∈ local_cellIdString <$> data)
    then local_cellIdString <$> data
    else (local_cellIdString <$> data) ++ [local_cellIdString d].
Proof.
  induction data as [|n rest IH].
  - case_bool_decide as H; [by apply elem_of_nil in H|done].
  - cbn [replaceOrPush].
    destruct (sameId (local_cellIdString d) n) eqn:Hn; rewrite !fmap_cons.
    + apply sameId_spec in Hn. rewrite bool_decide_eq_true_2; [by rewrite Hn|].
      rewrite Hn. constructor.
    + rewrite IH. assert (local_cellIdString n ≠ local_cellIdString d) as Hne.
      { intros E. apply sameId_spec in E. congruence. }
      case_bool_decide as H1; case_bool_decide as H2; try done.
      * exfalso. apply H2. by constructor.
      * exfalso. apply elem_of_cons in H2 as [?|?]; [congruence|done].
Qed.

Lemma find_filter_other k k' data :
  List.find (sameId k') (List.filter (λ n, negb (sameId k n)) data)
  = if bool_decide (k' = k) then None else List.find (sameId k') data.
Proof.
  induction data as [|n rest IH]; simpl; [by case_bool_decide|].
  destruct (sameId k n) eqn:Hn; simpl.
  - rewrite IH. apply sameId_spec in Hn. unfold sameId.
    repeat case_bool_decide; congruence.
  - rewrite IH. unfold sameId in Hn |- *.
    repeat case_bool_decide; congruence.
Qed.

Lemma filter_none k data :
  List.find (sameId k) data = None →
  List.filter (λ n, negb (sameId k n)) data = data.
Proof.
  induction data as [|n rest IH]; simpl; [done|].
  destruct (sameId k n); [done|]. simpl. intros H. by rewrite IH.
Qed.

Lemma find_renameFirst k k' newName data :
  List.find (sameId k') (renameFirst k newName data)
  = if bool_decide (k' = k) then renamed newName <$> List.find (sameId k) data
    else List.find (sameId k') data.
Proof.
  induction data as [|n rest IH]; simpl; [by case_bool_decide|].
  destruct (sameId k n) eqn:Hn; simpl.
  - apply sameId_spec in Hn. unfold sameId. simpl.
    repeat case_bool_decide; simplify_eq; done.
  - rewrite IH. unfold sameId in Hn |- *.
    repeat case_bool_decide; simplify_eq; done.
Qed.

Lemma ids_renameFirst k newName data :
  local_cellIdString <$> renameFirst k newName data = local_cellIdString <$> data.
Proof.
  induction data as [|n rest IH]; [done|]. cbn [renameFirst].
  destruct (sameId k n); rewrite !fmap_cons; [done|]. by rewrite IH.
Qed.

Lemma load_setNetworks data ls : loadNetworksLocally (setNetworks data ls) = data.
Proof. done. Qed.

Lemma load_save network ls :
  loadNetworksLocally (saveNetworkLocally network ls)
  = replaceOrPush (localDataOf network) (loadNetworksLocally ls).
Proof. done. Qed.

Lemma load_remove k ls :
  loadNetworksLocally (removeNetworkLocally k ls)
  = List.filter (λ n, negb (sameId k n)) (loadNetworksLocally ls).
Proof. done. Qed.

(** X6.  After [saveNetworkLocally network], looking up the id of the
    network in the durable store finds the record just written, and every
    other id finds what it found before.  The last-active value is not
    touched, and ids that were unique stay unique: a record of the same id
    is replaced, not doubled. *)
Theorem saveNetworkLocally_lookup (network : Network) (ls : LocalStorage) (k : jsstring) :
  let ls' := saveNetworkLocally network ls in
  storedRecord k ls'
  = (if bool_decide (k = cellIdString network) then Some (localDataOf network)
     else storedRecord k ls)
  ∧ sharefeed_active_network ls' = sharefeed_active_network ls
  ∧ (NoDup (local_cellIdString <$> loadNetworksLocally ls) →
     NoDup (local_cellIdString <$> loadNetworksLocally ls')).
Proof.
  intros ls'. unfold ls', storedRecord. rewrite load_save.
  split; [apply (find_replaceOrPush k (localDataOf network))|].
  split; [done|]. intros Hnd. rewrite ids_replaceOrPush.
  case_bool_decide as Hin; [done|].
  apply NoDup_app. split; [done|]. split; [|apply NoDup_singleton].
  intros x Hx ->%list_elem_of_singleton. done.
Qed.

(** X7.  After [removeNetworkLocally k] the durable store holds no record
    of id [k], not even a second one, and every other id finds what it found
    before; when there was no record of [k] the records are the same. *)
Theorem removeNetworkLocally_lookup (k k' : jsstring) (ls : LocalStorage) :
  let ls' := removeNetworkLocally k ls in
  storedRecord k' ls' = (if bool_decide (k' = k) then None else storedRecord k' ls)
  ∧ Forall (λ l, local_cellIdString l ≠ k) (loadNetworksLocally ls')
  ∧ sharefeed_active_network ls' = sharefeed_active_network ls
  ∧ (storedRecord k ls = None → loadNetworksLocally ls' = loadNetworksLocally ls).
Proof.
  intros ls'. unfold ls', storedRecord. rewrite load_remove.
  split; [apply find_filter_other|]. split; [apply StoreFacts.filter_other_ids|].
  split; [done|]. apply filter_none.
Qed.

Lemma updateNetworkName_found k newName ls l :
  Clones.storedRecord k ls = Some l →
  Clones.storedRecord k (updateNetworkName k newName ls) = Some (Clones.renamed newName l).
Proof.
  unfold Clones.storedRecord, updateNetworkName. intros Hfind. rewrite Hfind.
  rewrite load_setNetworks, find_renameFirst, Hfind. by rewrite bool_decide_eq_true_2.
Qed.

Lemma updateNetworkName_missing k newName ls :
  Clones.storedRecord k ls = None → updateNetworkName k newName ls = ls.
Proof. unfold Clones.storedRecord, updateNetworkName. by intros ->. Qed.

(** X8.  [updateNetworkName k newName] renames the record that a lookup of
    [k] finds and leaves every other lookup as it was; the ids of the
    records, their order and the last-active value do not change.  When the
    durable store has no record of [k], nothing is written at all. *)
Theorem updateNetworkName_lookup (k k' newName : jsstring) (ls : LocalStorage) :
  let ls' := updateNetworkName k newName ls in
  storedRecord k' ls'
  = (if bool_decide (k' = k) then renamed newName <$> storedRecord k ls
     else storedRecord k' ls)
  ∧ local_cellIdString <$> loadNetworksLocally ls'
    = local_cellIdString <$> loadNetworksLocally ls
  ∧ sharefeed_active_network ls' = sharefeed_active_network ls
  ∧ (storedRecord k ls = None → ls' = ls).
Proof.
  intros ls'. unfold ls', storedRecord, updateNetworkName.
  destruct (List.find (sameId k) (loadNetworksLocally ls)) as [l|] eqn:Hfind.
  - rewrite load_setNetworks. split; [|split; [apply ids_renameFirst|done]].
    rewrite find_renameFirst, Hfind. done.
  - split; [|done]. case_bool_decide; by simplify_eq.
Qed.

End DurableFacts.

(** ** The string form of a cell id names one cell *)

Module CellIdFacts.
Import JsString Secrets Base64 Registry Props Decoding.

Ltac euclid := zify; Z.to_euclidean_division_equations; lia.

Lemma lor_add a b k : b < 2 ^ k → N.lor (a * 2 ^ k) b = a * 2 ^ k + b.
Proof.
  intros Hb.
  assert (N.land (a * 2 ^ k) b = 0) as Hland.
  { apply N.bits_inj. intros i. rewrite N.land_spec, N.bits_0.
    destruct (N.lt_ge_cases i k) as [Hi|Hi].
    - by rewrite N.mul_pow2_bits_low.
    - rewrite <- (N.mod_small b (2 ^ k)) by done.
      rewrite N.mod_pow2_bits_high by done. apply andb_false_r. }
  rewrite <- N.lxor_lor by done. symmetry. by apply N.add_nocarry_lxor.
Qed.

Lemma land_63 x : N.land x 63 = x mod 64.
Proof. change 63 with (N.ones 6). by rewrite N.land_ones. Qed.

Lemma land_255 x : N.land x 255 = x mod 256.
Proof. change 255 with (N.ones 8). by rewrite N.land_ones. Qed.

Lemma pack2 a b :
  b < 256 → N.lor (N.shiftl a 16) (N.shiftl b 8) = a * 65536 + b * 256.
Proof.
  intros Hb. rewrite !N.shiftl_mul_pow2.
  change (a * 2 ^ 16) with (a * 2 ^ 16). rewrite lor_add; [done|].
  change (2 ^ 8) with 256. change (2 ^ 16) with 65536. lia.
Qed.

Lemma pack3 a b c :
  b < 256 → c < 256 →
  N.lor (N.lor (N.shiftl a 16) (N.shiftl b 8)) c = a * 65536 + b * 256 + c.
Proof.
  intros Hb Hc. rewrite pack2 by done.
  replace (a * 65536 + b * 256) with ((a * 256 + b) * 2 ^ 8)
    by (change (2 ^ 8) with 256; lia).
  rewrite lor_add by done. done.
Qed.

Lemma unpack2 a b : b < 64 → N.lor (N.shiftl a 6) b = a * 64 + b.
Proof. intros Hb. rewrite N.shiftl_mul_pow2. by rewrite lor_add. Qed.

Lemma unpack3 a b c :
  b < 64 → c < 64 →
  N.lor (N.lor (N.shiftl a 12) (N.shiftl b 6)) c = a * 4096 + b * 64 + c.
Proof.
  intros Hb Hc. rewrite !N.shiftl_mul_pow2.
  rewrite (lor_add a (b * 2 ^ 6) 12)
    by (change (2 ^ 6) with 64; change (2 ^ 12) with 4096; lia).
  replace (a * 2 ^ 12 + b * 2 ^ 6) with ((a * 64 + b) * 2 ^ 6)
    by (change (2 ^ 6) with 64; change (2 ^ 12) with 4096; lia).
  rewrite lor_add by done. change (2 ^ 6) with 64. lia.
Qed.

Lemma unpack4 a b c d :
  b < 64 → c < 64 → d < 64 →
  N.lor (N.lor (N.shiftl a 18) (N.shiftl b 12)) (N.lor (N.shiftl c 6) d)
  = a * 262144 + b * 4096 + c * 64 + d.
Proof.
  intros Hb Hc Hd. rewrite (unpack2 c d Hd). rewrite !N.shiftl_mul_pow2.
  rewrite (lor_add a (b * 2 ^ 12) 18)
    by (change (2 ^ 12) with 4096; change (2 ^ 18) with 262144; lia).
  replace (a * 2 ^ 18 + b * 2 ^ 12) with ((a * 64 + b) * 2 ^ 12)
    by (change (2 ^ 12) with 4096; change (2 ^ 18) with 262144; lia).
  rewrite lor_add by (change (2 ^ 12) with 4096; lia).
  change (2 ^ 12) with 4096. lia.
Qed.

Lemma mod_64_lt x : x mod 64 < 64.
Proof. by apply N.mod_lt. Qed.

Lemma to_N_lt a : Byte.to_N a < 256.
Proof. pose proof (Byte.to_N_bounded a). lia. Qed.

(** Four characters carry three bytes. *)
Lemma three_bytes A B C :
  A < 256 → B < 256 → C < 256 →
  let n := A * 65536 + B * 256 + C in
  let m := (n / 262144) mod 64 * 262144 + (n / 4096) mod 64 * 4096
           + (n / 64) mod 64 * 64 + n mod 64 in
  (m / 65536) mod 256 = A ∧ (m / 256) mod 256 = B ∧ m mod 256 = C.
Proof.
  intros HA HB HC n m.
  assert (m = n) as -> by (subst n m; euclid).
  subst n. repeat split; euclid.
Qed.

Lemma two_bytes A B :
  A < 256 → B < 256 →
  let n := A * 65536 + B * 256 in
  let m := (n / 262144) mod 64 * 4096 + (n / 4096) mod 64 * 64 + (n / 64) mod 64 in
  (m / 1024) mod 256 = A ∧ (m / 4) mod 256 = B.
Proof.
  intros HA HB n m.
  assert (m = n / 64) as -> by (subst n m; euclid).
  subst n. split; euclid.
Qed.

Lemma one_byte A :
  A < 256 →
  let n := A * 65536 in
  let m := (n / 262144) mod 64 * 64 + (n / 4096) mod 64 in
  (m / 16) mod 256 = A.
Proof.
  intros HA n m.
  assert (m = n / 4096) as -> by (subst n m; euclid).
  subst n. euclid.
Qed.

Lemma urlValue_b64Char v : v < 64 → urlValue (urlSafe (b64Char v)) = v.
Proof.
  intros Hv.
  assert (forallb (λ v, urlValue (urlSafe (b64Char v)) =? v)
            (List.map N.of_nat (seq 0 64)) = true) as Hall by (by vm_compute).
  rewrite forallb_forall in Hall. apply N.eqb_eq, Hall.
  apply in_map_iff. exists (N.to_nat v). split; [lia|]. apply in_seq. lia.
Qed.


Lemma urlValue_sextet x : urlValue (urlSafe (b64Char (N.land x 63))) = x mod 64.
Proof. rewrite land_63. apply urlValue_b64Char, mod_64_lt. Qed.

(** [decodeSextets] reads the bytes of a hash back from its URL-safe
    form. *)
Lemma bytesOfUrl_fromUint8Array h :
  bytesOfUrl (fromUint8Array h) = List.map Byte.to_N h.
Proof.
  unfold bytesOfUrl, fromUint8Array.
  induction h as [|a|a b|a b c r IH] using RegistryFacts.list_ind3.
  - done.
  - simpl fromUint8ArrayStd.
    rewrite !RegistryFacts.mkUriSafe_b64Char, !RegistryFacts.mkUriSafe_pad.
    change (mkUriSafe []) with (@nil N). cbn [List.map].
    rewrite !urlValue_sextet. cbn [decodeSextets].
    rewrite unpack2 by apply mod_64_lt. rewrite land_255.
    rewrite !N.shiftr_div_pow2, N.shiftl_mul_pow2.
    change (2 ^ 16) with 65536. change (2 ^ 18) with 262144.
    change (2 ^ 12) with 4096. change (2 ^ 4) with 16.
    by rewrite (one_byte _ (to_N_lt a)).
  - simpl fromUint8ArrayStd.
    rewrite !RegistryFacts.mkUriSafe_b64Char, !RegistryFacts.mkUriSafe_pad.
    change (mkUriSafe []) with (@nil N). cbn [List.map].
    rewrite !urlValue_sextet. cbn [decodeSextets].
    rewrite unpack3 by apply mod_64_lt. rewrite !land_255.
    rewrite (pack2 _ _ (to_N_lt b)). rewrite !N.shiftr_div_pow2.
    change (2 ^ 18) with 262144. change (2 ^ 12) with 4096.
    change (2 ^ 6) with 64. change (2 ^ 10) with 1024. change (2 ^ 2) with 4.
    destruct (two_bytes _ _ (to_N_lt a) (to_N_lt b)) as [-> ->]. done.
  - change (fromUint8ArrayStd (a :: b :: c :: r)) with
      (let n := N.lor (N.lor (N.shiftl (Byte.to_N a) 16) (N.shiftl (Byte.to_N b) 8))
                      (Byte.to_N c) in
       [b64Char (N.land (N.shiftr n 18) 63); b64Char (N.land (N.shiftr n 12) 63);
        b64Char (N.land (N.shiftr n 6) 63); b64Char (N.land n 63)]
       ++ fromUint8ArrayStd r).
    cbv zeta. rewrite RegistryFacts.mkUriSafe_app, !RegistryFacts.mkUriSafe_b64Char.
    change (mkUriSafe []) with (@nil N). rewrite List.map_app. cbn [List.map app].
    rewrite !urlValue_sextet.
    set (rest := List.map urlValue (mkUriSafe (fromUint8ArrayStd r))) in *.
    match goal with
    | |- decodeSextets (?s1 :: ?s2 :: ?s3 :: ?s4 :: rest) = _ =>
        change (decodeSextets (s1 :: s2 :: s3 :: s4 :: rest)) with
          (let n := N.lor (N.lor (N.shiftl s1 18) (N.shiftl s2 12))
                          (N.lor (N.shiftl s3 6) s4) in
           [N.land (N.shiftr n 16) 255; N.land (N.shiftr n 8) 255; N.land n 255]
           ++ decodeSextets rest)
    end.
    cbv zeta. rewrite IH. rewrite unpack4 by apply mod_64_lt. rewrite !land_255.
    rewrite (pack3 _ _ _ (to_N_lt b) (to_N_lt c)). rewrite !N.shiftr_div_pow2.
    change (2 ^ 18) with 262144. change (2 ^ 12) with 4096.
    change (2 ^ 6) with 64. change (2 ^ 16) with 65536. change (2 ^ 8) with 256.
    destruct (three_bytes _ _ _ (to_N_lt a) (to_N_lt b) (to_N_lt c)) as (-> & -> & ->).
    done.
Qed.

Lemma to_N_inj_list (x y : list byte) :
  List.map Byte.to_N x = List.map Byte.to_N y → x = y.
Proof.
  revert y. induction x as [|a x IH]; intros [|b y]; simpl; try done.
  intros [= Hab Hxy]. f_equal; [|by apply IH].
  apply (f_equal Byte.of_N) in Hab. rewrite !Byte.of_to_N in Hab. congruence.
Qed.

Lemma fromUint8Array_inj h h' : fromUint8Array h = fromUint8Array h' → h = h'.
Proof.
  intros Heq. apply to_N_inj_list. by rewrite <- !bytesOfUrl_fromUint8Array, Heq.
Qed.

Lemma encodeHashToBase64_inj h h' :
  encodeHashToBase64 h = encodeHashToBase64 h' → h = h'.
Proof. unfold encodeHashToBase64. by intros Heq%app_inv_head%fromUint8Array_inj. Qed.

Lemma cellIdToString_inj c c' : cellIdToString c = cellIdToString c' → c = c'.
Proof.
  destruct c as [d a], c' as [d' a']. unfold cellIdToString. simpl fst. simpl snd.
  change (?x ++ [colon] ++ ?y) with (x ++ colon :: y). intros Heq.
  apply (f_equal (splitOn colon)) in Heq.
  rewrite !(SecretsFacts.splitOn_app _ _ _ (RegistryFacts.encodeHashToBase64_no_colon _)),
    !(SecretsFacts.splitOn_without _ _ (RegistryFacts.encodeHashToBase64_no_colon _))
    in Heq.
  revert Heq. intros [= Hd Ha]. f_equal; by apply fromUint8Array_inj.
Qed.

(** X11.  The string form of a cell id names one cell: two cell ids have
    the same string exactly when they are the same, and the bytes of each
    hash can be read back from its [encodeHashToBase64] form with the
    URL-safe alphabet, without the leading [u]. *)
Theorem cellIdToString_names_one_cell :
  (∀ c c' : CellId, cellIdToString c = cellIdToString c' ↔ c = c')
  ∧ (∀ h h' : list byte, encodeHashToBase64 h = encodeHashToBase64 h' ↔ h = h')
  ∧ (∀ h : list byte,
       ∃ s, encodeHashToBase64 h = js "u" ++ s ∧ bytesOfUrl s = List.map Byte.to_N h).
Proof.
  split; [|split].
  - intros c c'. split; [apply cellIdToString_inj|by intros ->].
  - intros h h'. split; [apply encodeHashToBase64_inj|by intros ->].
  - intros h. exists (fromUint8Array h). split; [done|].
    apply bytesOfUrl_fromUint8Array.
Qed.

End CellIdFacts.

(** ** From the conductor and the durable store to the list of networks *)

Module ListingFacts.
Import JsString Secrets Base64 Registry Props Passphrases Clones.

Lemma getNetworks_joined appInfo ls now :
  Forall2 (joined (loadNetworksLocally ls))
    (clonedCells (default [] (cell_info appInfo !! ROLE_NAME)))
    (getNetworks (Some appInfo) ls now).
Proof.
  unfold getNetworks.
  destruct (RegistryFacts.getNetworksLoop_joined (loadNetworksLocally ls) now
              (default [] (cell_info appInfo !! ROLE_NAME)) 0%nat [])
    as [ns [-> Hall]].
  done.
Qed.

Lemma joined_stored localData c n l :
  joined localData c n →
  List.find (sameId (cellIdToString (cell_id c))) localData = Some l →
  truthy (local_name l) = true → truthy (local_passphrase l) = true →
  local_joinedAt l ≠ 0 →
  n = {| cellId := cell_id c; cellIdString := cellIdToString (cell_id c);
         name := local_name l; passphrase := local_passphrase l;
         joinedAt := local_joinedAt l; isActive := false |}.
Proof.
  intros (Hid & Hstr & Hpass & Hfound & _ & Hact) Hfind Hname Hp Ht.
  destruct (Hfound l Hfind) as [Hn Hj].
  unfold localPassphrase in Hpass. rewrite Hfind, Hp in Hpass.
  destruct n as [ci cs nm pp ja ia]. simpl in *.
  rewrite Hid, Hstr, Hpass, (Hn Hname), (Hj Ht), Hact. done.
Qed.

(** A network made from a clone and saved is what [getNetworks] lists for
    that clone. *)
Lemma saved_network_listed c nm p t ls appInfo now :
  truthy nm = true → truthy p = true → t ≠ 0 →
  let network := networkOfClone c nm p t in
  let result := getNetworks (Some appInfo) (saveNetworkLocally network ls) now in
  (cloned c ∈ default [] (cell_info appInfo !! ROLE_NAME) → network ∈ result)
  ∧ (∀ n, n ∈ result → cellIdString n = cellIdString network → n = network).
Proof.
  intros Hnm Hp Ht network result.
  pose proof (getNetworks_joined appInfo (saveNetworkLocally network ls) now) as Hall.
  fold result in Hall.
  assert (∀ c' n, joined (loadNetworksLocally (saveNetworkLocally network ls)) c' n →
                  cellIdToString (cell_id c') = cellIdString network → n = network)
    as Hsame.
  { intros c' n Hj Hk.
    assert (cell_id c' = cell_id c) as Hc by (by apply CellIdFacts.cellIdToString_inj).
    eapply (joined_stored _ c' n (localDataOf network)) in Hj; try done.
    - rewrite Hj, Hc. done.
    - rewrite DurableFacts.load_save, DurableFacts.find_replaceOrPush.
      by rewrite bool_decide_eq_true_2. }
  split.
  - intros Hin%RegistryFacts.elem_of_clonedCells.
    apply list_elem_of_lookup in Hin as [i Hi].
    destruct (Forall2_lookup_l _ _ _ _ _ Hall Hi) as (n & Hn & Hj).
    rewrite <- (Hsame c n Hj eq_refl). by eapply list_elem_of_lookup_2.
  - intros n [i Hi]%list_elem_of_lookup Hk.
    destruct (Forall2_lookup_r _ _ _ _ _ Hall Hi) as (c' & Hc' & Hj).
    apply (Hsame c' n Hj). destruct Hj as (_ & <- & _). done.
Qed.

(** X9.  A network that [createNetwork] or [joinNetwork] has made, with a
    name and a passphrase that are not empty and a clock that is not zero,
    is what [getNetworks] lists from then on for its clone: when the
    conductor reports the clone the network is in the list, with the cell,
    the name, the passphrase and the join time it was made with, and every
    listed network of that id is this one. *)
Theorem made_network_is_listed (made : Network * LocalStorage) (c : ClonedCell)
    (t : N) (ls : LocalStorage) (appInfo : AppInfo) (now : nat → N) :
  (∃ nm pp generated,
      made = createNetwork nm pp generated c t ls
      ∧ truthy nm = true ∧ truthy (finalPassphrase pp generated) = true)
  ∨ (∃ p nm,
      made = joinNetwork p nm c t ls
      ∧ truthy p = true ∧ truthy (default (js "Shared Feed") nm) = true) →
  t ≠ 0 →
  let result := getNetworks (Some appInfo) made.2 now in
  (cloned c ∈ default [] (cell_info appInfo !! ROLE_NAME) → made.1 ∈ result)
  ∧ (∀ n, n ∈ result → cellIdString n = cellIdString made.1 → n = made.1)
  ∧ cellId made.1 = cell_id c ∧ joinedAt made.1 = t.
Proof.
  intros [(nm & pp & generated & -> & Hnm & Hp)|(p & nm & -> & Hp & Hnm)] Ht result.
  - destruct (saved_network_listed c nm (finalPassphrase pp generated) t ls appInfo now
                Hnm Hp Ht) as [Hin Hsame].
    done.
  - destruct (saved_network_listed c (default (js "Shared Feed") nm) p t ls appInfo now
                Hnm Hp Ht) as [Hin Hsame].
    done.
Qed.

Lemma made_network_is_listed_witness :
  let c := Examples.booksClone in
  let appInfo := {| cell_info := {[ ROLE_NAME := [cloned c] ]} |} in
  let made := createNetwork (js "Books") None (js "alpha beta gamma delta echo") c 7
                Examples.emptyStorage in
  made.1 ∈ getNetworks (Some appInfo) made.2 (λ _, 9).
Proof.
  intros c appInfo made.
  refine (proj1 (made_network_is_listed made c 7 Examples.emptyStorage appInfo (λ _, 9)
                   _ _) _).
  - left. exists (js "Books"), None, (js "alpha beta gamma delta echo"). by vm_compute.
  - done.
  - vm_compute. constructor.
Defined.

(** X10.  On a device whose durable store has no record of a clone, for
    instance after the browser data was cleared, [getNetworks] recovers the
    passphrase from the seed that the conductor reports.  When the clone was
    made by [createNetwork] from a passphrase without hyphen, the recovered
    passphrase is the words of that passphrase joined by single spaces;
    [joinNetwork] with it asks the conductor for the very seed
    [createNetwork] had asked for, and [validatePassphrase] judges it as it
    judges the original. *)
Theorem recovered_passphrase_rejoins (pp : option jsstring) (generated : jsstring)
    (c : ClonedCell) (appInfo : AppInfo) (ls : LocalStorage) (now : nat → N) (i : nat) :
  hyphen ∉ finalPassphrase pp generated →
  dna_modifiers c = Some (modifiers (createNetwork_request pp generated)) →
  storedRecord (cellIdToString (cell_id c)) ls = None →
  clonedCells (default [] (cell_info appInfo !! ROLE_NAME)) !! i = Some c →
  ∃ n, getNetworks (Some appInfo) ls now !! i = Some n
       ∧ cellId n = cell_id c
       ∧ passphrase n = normalise (finalPassphrase pp generated)
       ∧ joinNetwork_request (passphrase n) = createNetwork_request pp generated
       ∧ validatePassphrase (passphrase n)
         = validatePassphrase (finalPassphrase pp generated).
Proof.
  intros Hhyphen Hmod Hnone Hi.
  pose proof (getNetworks_joined appInfo ls now) as Hall.
  destruct (Forall2_lookup_l _ _ _ _ _ Hall Hi) as (n & Hn & Hj).
  exists n. split; [done|].
  destruct Hj as (Hid & _ & Hpass & _).
  unfold storedRecord in Hnone. unfold localPassphrase in Hpass. rewrite Hnone in Hpass.
  unfold exposedSeed in Hpass. rewrite Hmod in Hpass. simpl in Hpass.
  assert (passphrase n = normalise (finalPassphrase pp generated)) as Hp.
  { rewrite Hpass. by apply SecretsFacts.decode_encode. }
  split; [done|]. split; [done|]. rewrite Hp. split.
  - unfold joinNetwork_request, createNetwork_request.
    by rewrite PassphraseFacts.seed_normalise.
  - apply PassphraseFacts.validatePassphrase_normalise.
Qed.

Lemma recovered_passphrase_rejoins_witness :
  let request := createNetwork_request (Some (js " alpha  beta gamma delta echo")) [] in
  let c := {| cell_id := cell_id Examples.booksClone;
              dna_modifiers := Some (modifiers request);
              cloned_name := js "sharefeed.0" |} in
  let appInfo := {| cell_info := {[ ROLE_NAME := [cloned c] ]} |} in
  ∃ n, getNetworks (Some appInfo) Examples.emptyStorage (λ _, 9) !! 0%nat = Some n
       ∧ passphrase n = js "alpha beta gamma delta echo"
       ∧ joinNetwork_request (passphrase n) = request.
Proof.
  intros request c appInfo.
  destruct (recovered_passphrase_rejoins (Some (js " alpha  beta gamma delta echo")) []
              c appInfo Examples.emptyStorage (λ _, 9) 0%nat)
    as (n & Hn & _ & Hp & Hreq & _).
  - PassphraseFacts.not_member.
  - done.
  - done.
  - by vm_compute.
  - exists n. split; [done|]. split; [|done]. rewrite Hp. by vm_compute.
Defined.

End ListingFacts.

Module SessionFacts.
Import JsString Secrets Registry Session Props Run Derived Invariants Clones.
Import StoreFacts.

Section Facts.
Context {ShareItemInfo ShareItem : Type}.
Variable toShareItem : ShareItemInfo → ShareItem.
Variable shareId : ShareItem → jsstring.
Variable browser : bool.

Local Abbreviation World := (World ShareItem).
Local Abbreviation step := (step toShareItem shareId browser).
Local Abbreviation reachable := (reachable toShareItem shareId browser).

Lemma Exists_delete {A} (P : A → Prop) i l : Exists P (delete i l) → Exists P l.
Proof.
  rewrite !Exists_exists. intros (x & Hx & HP). exists x. split; [|done].
  by eapply list_elem_of_delete_inv.
Qed.

Lemma Exists_snoc {A} (P : A → Prop) l x : Exists P (l ++ [x]) → Exists P l ∨ P x.
Proof.
  rewrite Exists_app. intros [?|H]; [by left|]. right.
  apply Exists_cons in H as [?|H]; [done|]. by apply Exists_nil in H.
Qed.

Lemma Exists_lookup {A} (P : A → Prop) i l x : l !! i = Some x → P x → Exists P l.
Proof. intros Hi HP. apply Exists_exists. exists x. split; [|done]. by eapply list_elem_of_lookup_2. Qed.

Ltac conn_closer :=
  repeat first
    [ done
    | progress intros
    | match goal with
      | H : Exists _ (delete _ _) |- _ => apply Exists_delete in H
      | H : Exists _ (_ ++ [_]) |- _ => apply Exists_snoc in H as [H|H]
      | H : ?P → is_Some None, H' : ?P |- _ => destruct (H H') as [? ?]
      | |- is_Some (Some _) => eexists; reflexivity
      | |- is_Some (_ <$> Some _) => eexists; reflexivity
      end
    | split ].

Lemma step_connectionInvariant (w w' : World) :
  step w w' → connectionInvariant w → connectionInvariant w'.
Proof.
  intros Hstep (Hc & Hn & Hh & Hp). unfold connectionInvariant.
  destruct Hstep;
    destruct w as [conn ls st [sh ld er cn hn cache cur cl] pend];
    simpl in Hc, Hn, Hh, Hp;
    (destruct conn as [c|];
     [ clear Hc Hp;
       destruct cl, cn, hn;
         try (by specialize (Hn eq_refl)); try (by specialize (Hh eq_refl));
         clear Hn Hh
     | destruct cl; [by destruct (Hc eq_refl) as [? ?]|];
       destruct cn; [by specialize (Hn eq_refl)|];
       destruct hn; [by specialize (Hh eq_refl)|]; clear Hc Hn Hh ]).
  1-24: try solve [crush_ops; conn_closer].
  all: try (destruct outcome).
  all: try solve [crush_ops; conn_closer].
  all: try match goal with
       | H : _ !! _ = Some ?p |- _ =>
           exfalso; simpl in H;
           destruct (Hp (Exists_lookup _ _ _ _ H eq_refl)) as [? ?]; done
       end.
  match goal with
  | H : _ !! _ = Some (AwaitConnect ?c) |- _ =>
      destruct c;
        [exfalso; simpl in H; by destruct (Hp (Exists_lookup _ _ _ _ H eq_refl)) as [? ?]|]
  end.
  crush_ops; conn_closer.
Qed.

Lemma reachable_connectionInvariant (w : World) : reachable w → connectionInvariant w.
Proof.
  intros [ls Hrtc].
  assert (connectionInvariant (initialWorld (ShareItem:=ShareItem) ls)) as Hinit.
  { repeat split; simpl; try done. by intros ?%Exists_nil. }
  induction Hrtc as [|w1 w2 w3 Hstep _ IH]; [done|].
  apply IH. by eapply step_connectionInvariant.
Qed.


(** *** The cache only grows *)

Lemma step_cache_kept (w w' : World) k :
  step w w' →
  is_Some (_cache (sharesStore w) !! k) → is_Some (_cache (sharesStore w') !! k).
Proof.
  intros Hstep Hk.
  assert (∀ (m : gmap jsstring (list ShareItem)) k' v,
            is_Some (m !! k) → is_Some (<[k' := v]> m !! k)) as Hins.
  { intros m k' v Hm. destruct (decide (k' = k)) as [->|Hne].
    - rewrite lookup_insert_eq. eauto.
    - by rewrite lookup_insert_ne. }
  destruct Hstep; try (destruct outcome); try (destruct p; try done);
    crush_ops; try done; by apply Hins.
Qed.

Lemma rtc_cache_kept (w w' : World) k :
  rtc step w w' →
  is_Some (_cache (sharesStore w) !! k) → is_Some (_cache (sharesStore w') !! k).
Proof.
  induction 1 as [|w1 w2 w3 Hstep _ IH]; [done|].
  intros Hk. apply IH. by eapply step_cache_kept.
Qed.

(** *** The selection is listed *)

Lemma hasId_markActive a b n :
  NetworksStore.hasId a (NetworksStore.markActive b n) = NetworksStore.hasId a n.
Proof. done. Qed.

Lemma find_map_ids (f : Network → Network) a ns :
  (∀ n, cellIdString (f n) = cellIdString n) →
  List.find (NetworksStore.hasId a) (List.map f ns)
  = f <$> List.find (NetworksStore.hasId a) ns.
Proof.
  intros Hf. induction ns as [|n ns IH]; [done|]. simpl.
  unfold NetworksStore.hasId at 1 3. rewrite Hf.
  case_bool_decide; [done|]. exact IH.
Qed.

Lemma find_markActive a b ns :
  List.find (NetworksStore.hasId a) (List.map (NetworksStore.markActive b) ns)
  = NetworksStore.markActive b <$> List.find (NetworksStore.hasId a) ns.
Proof. by apply find_map_ids. Qed.

Lemma find_filter_others a k ns :
  a ≠ Some k →
  List.find (NetworksStore.hasId a)
    (List.filter (λ n, negb (NetworksStore.hasId (Some k) n)) ns)
  = List.find (NetworksStore.hasId a) ns.
Proof.
  intros Hne. induction ns as [|n ns IH]; [done|]. simpl.
  destruct (NetworksStore.hasId (Some k) n) eqn:Hk; simpl.
  - rewrite IH. unfold NetworksStore.hasId in Hk |- *.
    apply bool_decide_eq_true in Hk. case_bool_decide; [congruence|done].
  - by rewrite IH.
Qed.

Lemma find_head a n ns :
  a = Some (cellIdString n) →
  is_Some (List.find (NetworksStore.hasId a) (n :: ns)).
Proof.
  intros ->. simpl. unfold NetworksStore.hasId. rewrite bool_decide_eq_true_2 by done.
  eauto.
Qed.

Lemma state_switchNetwork k (w : World) :
  _state (SharesStore.switchNetwork k w) = _state w
  ∧ localStorage (SharesStore.switchNetwork k w) = localStorage w.
Proof. crush_ops; done. Qed.

Lemma state_setActiveNetwork k (w : World) :
  _state (NetworksStore.setActiveNetwork k w)
  = match List.find (NetworksStore.hasId (Some k)) (networks (_state w)) with
    | Some _ =>
        NetworksStore.set_networks
          (List.map (NetworksStore.markActive (Some k)) (networks (_state w)))
          (NetworksStore.set_activeNetworkId (Some k) (_state w))
    | None => _state w
    end.
Proof.
  unfold NetworksStore.setActiveNetwork.
  destruct (List.find _ _); [|done].
  by rewrite (proj1 (state_switchNetwork k _)).
Qed.

Lemma selectionListed_setActiveNetwork k (w : World) :
  selectionListed (_state w) →
  selectionListed (_state (NetworksStore.setActiveNetwork k w)).
Proof.
  intros Hs. rewrite state_setActiveNetwork.
  destruct (List.find _ _) as [n|] eqn:E; [|done].
  intros _. unfold activeNetwork. simpl. rewrite find_markActive, E. simpl. eauto.
Qed.

Lemma selectionListed_added k n (w : World) :
  cellIdString n = k →
  let w1 := update (λ s, NetworksStore.set_loading false
                           (NetworksStore.set_networks (networks s ++ [n]) s)) w in
  selectionListed (_state (NetworksStore.setActiveNetwork k w1)).
Proof.
  intros <- w1. rewrite state_setActiveNetwork.
  destruct (find_hasId_app (networks (_state w)) n) as [n' Hn'].
  simpl. rewrite Hn'. intros _. unfold activeNetwork. simpl.
  rewrite find_markActive, Hn'. simpl. eauto.
Qed.

Lemma step_selectionListed (w w' : World) :
  step w w' → selectionListed (_state w) → selectionListed (_state w').
Proof.
  intros Hstep Hs. destruct Hstep.
  - crush_ops; done.
  - crush_ops; done.
  - by rewrite (proj1 (state_switchNetwork _ _)).
  - crush_ops; done.
  - crush_ops; done.
  - crush_ops; done.
  - crush_ops; done.
  - crush_ops; done.
  - by apply selectionListed_setActiveNetwork.
  - crush_ops; done.
  - (* updateName *)
    unfold NetworksStore.updateName, selectionListed, activeNetwork in *. simpl.
    intros Ht. rewrite find_map_ids; [|by intros n; destruct (NetworksStore.hasId _ n)].
    destruct (Hs Ht) as [n ->]. simpl. eauto.
  - done.
  - destruct outcome; crush_ops; done.
  - destruct p; try done; destruct outcome; crush_ops; done.
  - destruct outcome; crush_ops; done.
  - destruct outcome; crush_ops; done.
  - (* the networks are listed *)
    unfold NetworksStore.init_resumed. destruct outcome as [appInfo|err]; [|done].
    set (ns := getNetworks appInfo _ now).
    set (a0 := sharefeed_active_network _).
    set (a1 := if NetworksStore.truthyId a0 && _ then None else a0).
    set (a' := if negb (NetworksStore.truthyId a1) && _ then _ else a1).
    assert (selectionListed
              {| networks := List.map (NetworksStore.markActive a') ns;
                 activeNetworkId := a'; loading := false; error := None |}) as Hs'.
    { unfold selectionListed, activeNetwork. simpl. rewrite find_markActive.
      intros Ht. unfold a' in *.
      destruct (NetworksStore.truthyId a1) eqn:Ht1; simpl in *.
      - unfold a1 in *.
        destruct (NetworksStore.truthyId a0) eqn:Ht0; simpl in *; [|congruence].
        case_bool_decide as Hfound; simpl in *; [|done].
        destruct Hfound as [n ->]. simpl. eauto.
      - destruct ns as [|n ns']; simpl in *; [congruence|].
        unfold NetworksStore.hasId at 1. rewrite bool_decide_eq_true_2 by done.
        simpl. eauto. }
    destruct a' as [id|]; [|done]. destruct (truthy id); [|done].
    destruct (List.find _ (List.map _ _)); [|exact Hs'].
    rewrite (proj1 (state_switchNetwork _ _)). exact Hs'.
  - (* a network is created *)
    unfold NetworksStore.createNetwork_resumed.
    destruct outcome as [[[generated clonedCell] now]|err]; [|done].
    simpl. by apply (selectionListed_added _ (networkOfClone clonedCell _ _ now)).
  - unfold NetworksStore.joinNetwork_resumed.
    destruct outcome as [[clonedCell now]|err]; [|done].
    simpl. by apply (selectionListed_added _ (networkOfClone clonedCell _ _ now)).
  - (* a network is left *)
    unfold NetworksStore.leaveNetwork_resumed. destruct outcome as [[]|err]; [|done].
    simpl. case_bool_decide as Hact; unfold selectionListed, activeNetwork; simpl;
      rewrite find_markActive.
    + unfold NetworksStore.firstId.
      destruct (List.filter _ _) as [|n rest] eqn:E; simpl; [done|].
      destruct (truthy (cellIdString n)) eqn:Ht; simpl; [|done].
      intros _. unfold NetworksStore.hasId at 1. rewrite bool_decide_eq_true_2 by done.
      simpl. eauto.
    + intros Ht. rewrite find_filter_others by done.
      destruct (Hs Ht) as [n Hn]. unfold activeNetwork in Hn. rewrite Hn. simpl. eauto.
Qed.

Lemma reachable_selectionListed (w : World) : reachable w → selectionListed (_state w).
Proof.
  intros [ls Hrtc].
  assert (selectionListed (_state (initialWorld (ShareItem:=ShareItem) ls))) as Hinit
    by done.
  induction Hrtc as [|w1 w2 w3 Hstep _ IH]; [done|].
  apply IH. by eapply step_selectionListed.
Qed.

End Facts.
End SessionFacts.

Module SessionTheorems.
Import JsString Secrets Registry Session Props Run Derived Invariants Clones.
Import StoreFacts SessionFacts.

Section Facts.
Context {ShareItemInfo ShareItem : Type}.
Variable toShareItem : ShareItemInfo → ShareItem.
Variable shareId : ShareItem → jsstring.
Variable browser : bool.

Local Abbreviation World := (World ShareItem).
Local Abbreviation step := (step toShareItem shareId browser).
Local Abbreviation reachable := (reachable toShareItem shareId browser).

Lemma find_ext_in {A} (f g : A → bool) l :
  (∀ x, x ∈ l → f x = g x) → List.find f l = List.find g l.
Proof.
  induction l as [|x l IH]; [done|]. intros H. simpl.
  rewrite (H x) by constructor. destruct (g x); [done|].
  apply IH. intros y Hy. apply H. by constructor.
Qed.

Lemma flagged_is_selected (s : NetworksStoreState) n :
  activeIffSelected s → n ∈ networks s →
  NetworksStore.hasId (activeNetworkId s) n = isActive n.
Proof.
  intros Ha Hn. specialize (Ha n Hn). unfold NetworksStore.hasId.
  destruct (isActive n); case_bool_decide as H; try done.
  - exfalso. by apply H, Ha.
  - by apply Ha in H.
Qed.

(** X12.  In every world the session can be in, the derived store
    [activeNetwork] is the first network that is flagged active; it is
    there whenever the selected id is a string with a character; and the
    derived [activeCellId] is the cell whose string form is the selected
    id: it is the cell of every listed network that has the selected id. *)
Theorem active_network_is_the_flagged_one (w : World) :
  reachable w →
  let s := _state w in
  activeNetwork s = List.find isActive (networks s)
  ∧ (NetworksStore.truthyId (activeNetworkId s) = true → is_Some (activeNetwork s))
  ∧ (∀ c, activeCellId s = Some c → activeNetworkId s = Some (cellIdToString c))
  ∧ (∀ n, n ∈ networks s → activeNetworkId s = Some (cellIdString n) →
          activeCellId s = Some (cellId n)).
Proof.
  intros Hreach s.
  destruct (reachable_sessionInvariant _ _ _ w Hreach) as (Ha & Hwf & _).
  pose proof (reachable_selectionListed _ _ _ w Hreach) as Hsel. fold s in Ha, Hsel.
  rewrite Forall_forall in Hwf.
  assert (∀ m, activeNetwork s = Some m →
               m ∈ networks s ∧ activeNetworkId s = Some (cellIdString m)) as Hfound.
  { intros m Hm. apply find_some in Hm as [Hin Hid]. split; [by apply list_elem_of_In|].
    unfold NetworksStore.hasId in Hid. by apply bool_decide_eq_true in Hid. }
  split; [|split; [done|split]].
  - apply find_ext_in. intros n Hn. by apply flagged_is_selected.
  - intros c Hc. unfold activeCellId in Hc.
    destruct (activeNetwork s) as [m|] eqn:Hm; [|done]. injection Hc as <-.
    destruct (Hfound m eq_refl) as [Hin ->]. f_equal. by apply Hwf.
  - intros n Hn Hid. unfold activeCellId.
    destruct (activeNetwork s) as [m|] eqn:Hm.
    + destruct (Hfound m eq_refl) as [Hin Hid']. simpl. f_equal.
      apply CellIdFacts.cellIdToString_inj.
      rewrite <- (Hwf m Hin), <- (Hwf n Hn). congruence.
    + exfalso. unfold activeNetwork in Hm.
      pose proof (find_none _ _ Hm n ltac:(by apply list_elem_of_In)) as Hno.
      unfold NetworksStore.hasId in Hno. by rewrite bool_decide_eq_true_2 in Hno.
Qed.

(** X18.  As long as the connection is not closed, nothing waits on the
    conductor without it: when an operation is suspended on a call to the
    conductor, or on a [connect] that found the client at once, the
    connection has its client.  The shares store holds no client that the
    connection does not have, reports [connected] or [hasNetwork] only
    while it holds its client, and has cached nothing before it held it.
    [disconnect()] ends the first two: it takes the client from the
    connection and leaves the stores and the suspended operations as they
    are, so the shares store may then hold a client that the connection
    no longer has, and what was waiting for the conductor still is. *)
Theorem connection_held_until_disconnect (w : World) :
  reachable w →
  ((∀ p, p ∈ pending w → p ≠ AwaitConnect false → is_Some (shareFeedClient w))
   ∧ (client (sharesStore w) = true → is_Some (shareFeedClient w))
   ∧ (_connected (sharesStore w) = true → client (sharesStore w) = true)
   ∧ (_hasNetwork (sharesStore w) = true → client (sharesStore w) = true)
   ∧ (∀ k, is_Some (_cache (sharesStore w) !! k) → client (sharesStore w) = true))
  ∧ (let w' := disconnect w in
     shareFeedClient w' = None
     ∧ sharesStore w' = sharesStore w ∧ pending w' = pending w
     ∧ _state w' = _state w ∧ localStorage w' = localStorage w).
Proof.
  intros Hreach.
  destruct (reachable_connectionInvariant _ _ _ w Hreach) as (Hc & Hn & Hh & Hp).
  split; [split; [|split; [done|split; [done|split; [done|]]]]|].
  - intros p Hin Hne. apply Hp, Exists_exists. exists p. split; [done|].
    destruct p as [| | | |[|]| | | | |]; done.
  - intros k [v Hk].
    destruct (reachable_clientHeld _ _ _ w Hreach) as [?|[He _]]; [done|].
    by rewrite He in Hk.
  - unfold disconnect, getAppClient. by destruct (shareFeedClient w) eqn:Hs.
Qed.

(** X19.  The cache of the shares store only grows: whatever the session
    does next, switching, leaving a network, resetting the networks store,
    a network id that has a cache entry keeps one. *)
Theorem cache_never_evicts (w w' : World) (k : jsstring) :
  rtc step w w' →
  is_Some (_cache (sharesStore w) !! k) →
  is_Some (_cache (sharesStore w') !! k).
Proof. apply rtc_cache_kept. Qed.

(** *** Restoring the selection *)

Lemma init_resumed_state appInfo now (w : World) :
  let ns := getNetworks appInfo (localStorage w) now in
  let a := restored (sharefeed_active_network (localStorage w)) ns in
  let w' := NetworksStore.init_resumed (Fulfilled appInfo) now w in
  _state w' = {| networks := List.map (NetworksStore.markActive a) ns;
                 activeNetworkId := a; loading := false; error := None |}
  ∧ localStorage w' = localStorage w.
Proof.
  intros ns a w'. unfold w', NetworksStore.init_resumed. fold ns.
  set (a2 := if negb (NetworksStore.truthyId _) && _ then _ else _).
  replace a2 with a by reflexivity. clearbody a. clear a2.
  destruct a as [id|]; [|done]. destruct (truthy id); [|done].
  destruct (List.find _ (List.map _ _)); [|done].
  destruct (state_switchNetwork id
              (clientSetCellId (Some (cellId n))
                 (with_state
                    {| networks := List.map (NetworksStore.markActive (Some id)) ns;
                       activeNetworkId := Some id; loading := false; error := None |} w)))
    as [-> ->].
  done.
Qed.

Lemma find_hasId_elem k ns :
  k ∈ List.map cellIdString ns →
  is_Some (List.find (NetworksStore.hasId (Some k)) ns).
Proof.
  intros Hin. apply list_elem_of_In, in_map_iff in Hin as (n & Hn & Hin).
  destruct (List.find _ ns) eqn:E; [eauto|].
  pose proof (find_none _ _ E n Hin) as Hno.
  unfold NetworksStore.hasId in Hno. by rewrite Hn, bool_decide_eq_true_2 in Hno.
Qed.

Lemma find_hasId_not_elem k ns :
  k ∉ List.map cellIdString ns →
  List.find (NetworksStore.hasId (Some k)) ns = None.
Proof.
  intros Hin. destruct (List.find _ ns) as [n|] eqn:E; [|done].
  apply find_some in E as [Hn Hid]. exfalso. apply Hin.
  unfold NetworksStore.hasId in Hid. apply bool_decide_eq_true in Hid.
  injection Hid as <-. apply list_elem_of_In, in_map_iff. eauto.
Qed.

Lemma restored_listed stored ns k :
  stored = Some k → truthy k = true → k ∈ List.map cellIdString ns →
  restored stored ns = Some k.
Proof.
  intros -> Hk Hin. unfold restored. cbn [NetworksStore.truthyId]. rewrite Hk.
  rewrite bool_decide_eq_true_2 by (by apply find_hasId_elem).
  cbn [negb andb NetworksStore.truthyId]. by rewrite Hk.
Qed.

Lemma restored_first stored ns n ns' :
  ns = n :: ns' →
  (∀ k, stored = Some k → truthy k = true → k ∉ List.map cellIdString ns) →
  restored stored ns = Some (cellIdString n).
Proof.
  intros Hns Hno. unfold restored.
  assert ((if NetworksStore.truthyId stored
              && negb (bool_decide (is_Some (List.find (NetworksStore.hasId stored) ns)))
           then None else stored)
          = if NetworksStore.truthyId stored then None else stored) as ->.
  { destruct stored as [k|]; [|done]. cbn [NetworksStore.truthyId].
    destruct (truthy k) eqn:Hk; [|done].
    rewrite (find_hasId_not_elem k ns) by (by apply Hno).
    by rewrite bool_decide_eq_false_2 by (by intros [? ?]). }
  assert (NetworksStore.truthyId
            (if NetworksStore.truthyId stored then None else stored) = false) as ->.
  { by destruct (NetworksStore.truthyId stored) eqn:E. }
  by rewrite Hns.
Qed.

(** X13.  Once the networks are listed, [init] puts the list in the
    store with the flags of the selection it restores, raises no error and
    lowers the loading flag.  The selection is the durable last-active id
    when that is the id of a listed network; else it is the id of the first
    listed network; else, with nothing listed, none (or the stored empty
    string).  The durable store is left as it was: a selection that [init]
    falls back to is not written down. *)
Theorem init_restores_selection (appInfo : option AppInfo) (now : nat → N) (w : World) :
  let ns := getNetworks appInfo (localStorage w) now in
  let stored := sharefeed_active_network (localStorage w) in
  let w' := NetworksStore.init_resumed (Fulfilled appInfo) now w in
  let selected := activeNetworkId (_state w') in
  networks (_state w') = List.map (NetworksStore.markActive selected) ns
  ∧ loading (_state w') = false ∧ error (_state w') = None
  ∧ localStorage w' = localStorage w
  ∧ (∀ k, stored = Some k → truthy k = true → k ∈ List.map cellIdString ns →
          selected = Some k)
  ∧ (∀ n ns', ns = n :: ns' →
        (∀ k, stored = Some k → truthy k = true → k ∉ List.map cellIdString ns) →
        selected = Some (cellIdString n))
  ∧ (ns = [] → selected = if NetworksStore.truthyId stored then None else stored).
Proof.
  intros ns stored w' selected.
  destruct (init_resumed_state appInfo now w) as [Hst Hls].
  fold ns stored w' in Hst, Hls. unfold selected. rewrite Hst. simpl.
  split; [done|]. split; [done|]. split; [done|]. split; [done|].
  split; [|split].
  - intros k Hs Hk Hin. by apply restored_listed.
  - intros n ns' Hns Hno. by apply (restored_first _ _ n ns').
  - intros ->. unfold restored. destruct stored as [k|]; [|done].
    cbn [NetworksStore.truthyId List.find]. destruct (truthy k) eqn:Hk; [|by simpl; rewrite Hk].
    by rewrite bool_decide_eq_false_2 by (by intros [? ?]).
Qed.

(** X14.  The selection survives a restart.  After [setActiveNetwork k]
    for a listed network, [init] in any later session that starts from the
    durable store as it then is selects [k] again, whenever the conductor
    still reports a clone of that cell: [k] is the selected id, and the
    active cell is the cell of the clone. *)
Theorem selection_survives_restart (k : jsstring) (n : Network) (c : ClonedCell)
    (appInfo : AppInfo) (now : nat → N) (w w2 : World) :
  List.find (NetworksStore.hasId (Some k)) (networks (_state w)) = Some n →
  localStorage w2 = localStorage (NetworksStore.setActiveNetwork k w) →
  cloned c ∈ default [] (cell_info appInfo !! ROLE_NAME) →
  cellIdToString (cell_id c) = k →
  let w' := NetworksStore.init_resumed (Fulfilled (Some appInfo)) now w2 in
  activeNetworkId (_state w') = Some k
  ∧ activeCellId (_state w') = Some (cell_id c)
  ∧ ∃ m, activeNetwork (_state w') = Some m ∧ isActive m = true
         ∧ cellId m = cell_id c.
Proof.
  intros Hfind Hls Hc Hk w'.
  assert (sharefeed_active_network (localStorage w2) = Some k) as Hstored.
  { rewrite Hls. unfold NetworksStore.setActiveNetwork. rewrite Hfind.
    by rewrite (proj2 (state_switchNetwork k _)). }
  pose proof (ListingFacts.getNetworks_joined appInfo (localStorage w2) now) as Hall.
  set (ns := getNetworks (Some appInfo) (localStorage w2) now) in *.
  assert (k ∈ List.map cellIdString ns) as Hin.
  { apply RegistryFacts.elem_of_clonedCells, list_elem_of_lookup in Hc as [i Hi].
    destruct (Forall2_lookup_l _ _ _ _ _ Hall Hi) as (m & Hm & Hj).
    apply list_elem_of_In, in_map_iff. exists m. split.
    - destruct Hj as (_ & -> & _). done.
    - by eapply list_elem_of_In, list_elem_of_lookup_2. }
  assert (truthy k = true) as Ht by (by rewrite <- Hk).
  destruct (init_resumed_state (Some appInfo) now w2) as [Hst _]. fold ns w' in Hst.
  rewrite (restored_listed _ ns k Hstored Ht Hin) in Hst.
  assert (activeNetworkId (_state w') = Some k) as Hsel by (by rewrite Hst).
  assert (networks (_state w') = List.map (NetworksStore.markActive (Some k)) ns) as Hns
    by (by rewrite Hst).
  split; [done|].
  assert (∃ m, activeNetwork (_state w') = Some m ∧ isActive m = true
               ∧ cellId m = cell_id c) as (m & Hm & Hact & Hcell).
  { unfold activeNetwork. rewrite Hns, Hsel, find_markActive.
    destruct (find_hasId_elem k ns Hin) as [m Hm]. rewrite Hm. simpl.
    eexists. split; [done|]. apply find_some in Hm as [Hmin Hid].
    split; [exact Hid|]. simpl.
    apply list_elem_of_In, list_elem_of_lookup in Hmin as [i Hi].
    destruct (Forall2_lookup_r _ _ _ _ _ Hall Hi) as (c' & _ & Hj).
    destruct Hj as (-> & Hs & _). apply CellIdFacts.cellIdToString_inj.
    unfold NetworksStore.hasId in Hid. apply bool_decide_eq_true in Hid.
    rewrite <- Hs, Hk. congruence. }
  split; [|by exists m]. unfold activeCellId. by rewrite Hm, <- Hcell.
Qed.

(** *** Leaving a network that is not the active one *)

Lemma markActive_flagged a ns :
  Forall (λ n, NetworksStore.hasId a n = isActive n) ns →
  List.map (NetworksStore.markActive a) ns = ns.
Proof.
  induction 1 as [|n ns Hn _ IH]; [done|]. simpl. rewrite IH. f_equal.
  destruct n. unfold NetworksStore.markActive. simpl in *. by rewrite Hn.
Qed.

Lemma Forall_filter_keep {A} (P : A → Prop) f l :
  Forall P l → Forall P (List.filter f l).
Proof.
  induction 1 as [|x l Hx _ IH]; simpl; [done|]. destruct (f x); [by constructor|done].
Qed.

(** X15.  In a world the session can be in, let [leaveNetwork k] be
    called for a listed network [k] that is not the selected one, with the
    conductor connected, and let the conductor accept.  Then the network is
    taken out of the list and out of the durable store, and nothing else
    moves: the other networks stay as they are, flags included, the
    selection, the active network, the durable last-active value, the
    client and the whole shares store are those of before. *)
Theorem leave_inactive_network (k : jsstring) (network : Network) (w : World) :
  reachable w →
  getAppClient w = true →
  activeNetworkId (_state w) ≠ Some k →
  List.find (NetworksStore.hasId (Some k)) (networks (_state w)) = Some network →
  let w1 := NetworksStore.leaveNetwork k w in
  let w' := NetworksStore.leaveNetwork_resumed k network (Fulfilled ())
              (resume (length (pending w)) w1) in
  pending w1 = pending w ++ [AwaitDisableNetwork k network]
  ∧ networks (_state w')
    = List.filter (λ n, negb (NetworksStore.hasId (Some k) n)) (networks (_state w))
  ∧ activeNetworkId (_state w') = activeNetworkId (_state w)
  ∧ activeNetwork (_state w') = activeNetwork (_state w)
  ∧ sharefeed_active_network (localStorage w')
    = sharefeed_active_network (localStorage w)
  ∧ Forall (λ l, local_cellIdString l ≠ k) (loadNetworksLocally (localStorage w'))
  ∧ shareFeedClient w' = shareFeedClient w
  ∧ sharesStore w' = sharesStore w
  ∧ pending w' = pending w.
Proof.
  intros Hreach Hconn Hact Hfind w1 w'.
  destruct (reachable_sessionInvariant _ _ _ w Hreach) as (Ha & Hwf & _).
  pose proof (find_some _ _ Hfind) as [Hin Hid].
  unfold NetworksStore.hasId in Hid. apply bool_decide_eq_true in Hid.
  assert (cellIdString network = k) as Hk by congruence.
  assert (cellIdToString (cellId network) = k) as Hk'.
  { rewrite Forall_forall in Hwf. rewrite <- Hk. symmetry.
    by apply Hwf, list_elem_of_In. }
  assert (w1 = await (AwaitDisableNetwork k network) w) as Hw1.
  { unfold w1, NetworksStore.leaveNetwork. by rewrite Hconn, Hfind. }
  split; [by rewrite Hw1|].
  unfold w'. rewrite Hw1, resume_await.
  unfold NetworksStore.leaveNetwork_resumed. simpl.
  rewrite bool_decide_eq_false_2 by done. simpl.
  assert (List.map (NetworksStore.markActive (activeNetworkId (_state w)))
            (List.filter (λ n, negb (NetworksStore.hasId (Some k) n)) (networks (_state w)))
          = List.filter (λ n, negb (NetworksStore.hasId (Some k) n)) (networks (_state w)))
    as Hsame.
  { apply markActive_flagged, Forall_filter_keep, Forall_forall.
    intros n Hn. by apply flagged_is_selected. }
  rewrite Hsame. split; [done|]. split; [done|]. split.
  { unfold activeNetwork. simpl. by apply find_filter_others. }
  split; [done|]. split; [|by destruct w].
  unfold disableNetwork. rewrite Hk'. apply StoreFacts.filter_other_ids.
Qed.

(** *** Renaming *)

Lemma elem_of_map_ids (f : Network → Network) ns n :
  n ∈ List.map f ns → ∃ n0, n0 ∈ ns ∧ n = f n0.
Proof.
  intros (n0 & <- & Hin)%list_elem_of_In%in_map_iff. exists n0.
  split; [by apply list_elem_of_In|done].
Qed.

(** X16.  [updateName k newName] gives the new name to every listed
    network of id [k] and keeps the ids and their order.  The durable store
    follows only when it has a record of [k]: then, for a name that is not
    empty, every network of id [k] that [getNetworks] lists afterwards
    carries the new name; without a record nothing is written, so the next
    listing gives the names of before. *)
Theorem rename_reaches_durable_store (k newName : jsstring) (w : World)
    (appInfo : AppInfo) (now : nat → N) :
  let w' := NetworksStore.updateName k newName w in
  (∀ n, n ∈ networks (_state w') → cellIdString n = k → name n = newName)
  ∧ List.map cellIdString (networks (_state w'))
    = List.map cellIdString (networks (_state w))
  ∧ (is_Some (storedRecord k (localStorage w)) → truthy newName = true →
     ∀ n, n ∈ getNetworks (Some appInfo) (localStorage w') now →
          cellIdString n = k → name n = newName)
  ∧ (storedRecord k (localStorage w) = None →
     localStorage w' = localStorage w
     ∧ getNetworks (Some appInfo) (localStorage w') now
       = getNetworks (Some appInfo) (localStorage w) now).
Proof.
  intros w'. unfold w', NetworksStore.updateName. simpl.
  split; [|split; [|split]].
  - intros n (n0 & Hn0 & ->)%elem_of_map_ids Hk.
    unfold NetworksStore.hasId in *. case_bool_decide as Hid; [done|].
    exfalso. apply Hid. by rewrite Hk.
  - rewrite List.map_map. apply List.map_ext. intros n.
    by destruct (NetworksStore.hasId (Some k) n).
  - intros [l Hl] Ht n [i Hi]%list_elem_of_lookup Hk.
    pose proof (ListingFacts.getNetworks_joined appInfo
                  (updateNetworkName k newName (localStorage w)) now) as Hall.
    destruct (Forall2_lookup_r _ _ _ _ _ Hall Hi) as (c & _ & Hj).
    destruct Hj as (_ & Hs & _ & Hfound & _).
    pose proof (DurableFacts.updateNetworkName_found k newName _ l Hl) as Hlook.
    unfold storedRecord in Hlook.
    rewrite <- Hs, Hk in Hfound. destruct (Hfound _ Hlook) as [Hname _].
    by apply Hname.
  - intros Hnone. by rewrite (DurableFacts.updateNetworkName_missing k newName _ Hnone).
Qed.

(** *** A network that is made is selected *)

Lemma setActiveNetwork_found k n (w : World) :
  List.find (NetworksStore.hasId (Some k)) (networks (_state w)) = Some n →
  is_Some (shareFeedClient w) →
  let w' := NetworksStore.setActiveNetwork k w in
  activeNetworkId (_state w') = Some k
  ∧ networks (_state w')
    = List.map (NetworksStore.markActive (Some k)) (networks (_state w))
  ∧ loading (_state w') = loading (_state w)
  ∧ error (_state w') = error (_state w)
  ∧ localStorage w' = setActive k (localStorage w)
  ∧ _currentNetworkId (sharesStore w') = Some k
  ∧ _hasNetwork (sharesStore w') = true
  ∧ ∃ p, pending w' = pending w ++ [p] ∧ capturedId p = Some k.
Proof.
  intros Hfind [c Hc] w'. unfold w'.
  rewrite state_setActiveNetwork, Hfind. simpl.
  unfold NetworksStore.setActiveNetwork. rewrite Hfind.
  set (w0 := update _ _).
  assert (is_Some (SharesStore.acquireClient w0)) as Hacq.
  { unfold SharesStore.acquireClient, w0. simpl.
    destruct (client (sharesStore w)); [eauto|]. rewrite Hc. simpl. eauto. }
  destruct (switchNetwork_launch k w0 Hacq) as (p & Hp & Hcap & _ & Hcur).
  rewrite (proj2 (state_switchNetwork k w0)).
  repeat (split; [done|]). split.
  { clear Hp Hcap Hcur. unfold w0. crush_ops; done. }
  by exists p.
Qed.

(** X17.  When the conductor has made the clone that [createNetwork] or
    [joinNetwork] of the networks store asked for, the new network is
    appended to the list, written to the durable store, and selected at
    once: its id is the selected id and the durable last-active value, the
    shares store displays it and has launched a fetch for it, and the
    loading flag is lowered with no error raised. *)
Theorem made_network_is_selected (made : Network * LocalStorage) (c : ClonedCell)
    (w w' : World) :
  is_Some (shareFeedClient w) →
  (∃ nm pp generated t,
      made = Registry.createNetwork nm pp generated c t (localStorage w)
      ∧ w' = NetworksStore.createNetwork_resumed nm pp (Fulfilled (generated, c, t)) w)
  ∨ (∃ p nm t,
      made = Registry.joinNetwork p nm c t (localStorage w)
      ∧ w' = NetworksStore.joinNetwork_resumed p nm (Fulfilled (c, t)) w) →
  let k := cellIdToString (cell_id c) in
  cellIdString made.1 = k
  ∧ activeNetworkId (_state w') = Some k
  ∧ networks (_state w')
    = List.map (NetworksStore.markActive (Some k)) (networks (_state w) ++ [made.1])
  ∧ loading (_state w') = false
  ∧ error (_state w') = error (_state w)
  ∧ sharefeed_active_network (localStorage w') = Some k
  ∧ storedRecord k (localStorage w') = Some (localDataOf made.1)
  ∧ _currentNetworkId (sharesStore w') = Some k
  ∧ ∃ p, pending w' = pending w ++ [p] ∧ capturedId p = Some k.
Proof.
  intros Hconn Hmade k.
  assert (∃ n, made = (n, saveNetworkLocally n (localStorage w))
               ∧ cellIdString n = k
               ∧ w' = NetworksStore.setActiveNetwork k
                        (update (λ s, NetworksStore.set_loading false
                                        (NetworksStore.set_networks (networks s ++ [n]) s))
                           (with_localStorage (saveNetworkLocally n (localStorage w)) w)))
    as (n & -> & Hk & ->).
  { destruct Hmade as [(nm & pp & generated & t & -> & ->)|(p & nm & t & -> & ->)];
      eexists; (split; [reflexivity|]); split; done. }
  set (w0 := update _ _).
  destruct (find_hasId_app (networks (_state w)) n) as [n' Hn']. rewrite Hk in Hn'.
  destruct (setActiveNetwork_found k n' w0 Hn' Hconn)
    as (Hact & Hns & Hl & He & Hls & Hcur & _ & Hp).
  split; [done|]. split; [done|]. split; [done|]. split; [done|]. split; [done|].
  rewrite Hls. split; [done|]. split; [|done].
  unfold storedRecord.
  change (loadNetworksLocally (setActive k (localStorage w0)))
    with (replaceOrPush (localDataOf n) (loadNetworksLocally (localStorage w))).
  rewrite DurableFacts.find_replaceOrPush. by rewrite bool_decide_eq_true_2.
Qed.

(** *** The shares store *)

Lemma refresh_launch (w : World) :
  is_Some (SharesStore.acquireClient w) →
  default false (hasCellId <$> getClient w) = true →
  let w1 := SharesStore.refresh w in
  pending w1 = pending w ++ [AwaitRefresh (currentTarget w)]
  ∧ _currentNetworkId (sharesStore w1) = _currentNetworkId (sharesStore w)
  ∧ _cache (sharesStore w1) = _cache (sharesStore w)
  ∧ client (sharesStore w1) = true
  ∧ _loading (sharesStore w1) = true.
Proof.
  intros [w0 Hw0] Hcell.
  destruct w as [conn ls st [sh ld er cn hn cache cur cl] pend].
  unfold SharesStore.refresh. rewrite Hw0.
  unfold SharesStore.acquireClient in Hw0. simpl in *.
  destruct cl; [|destruct conn as [c|]; [|done]]; simplify_eq; simpl in *;
    rewrite Hcell; done.
Qed.

(** X20.  [refresh] does not look at the network its call was made for.
    When [refresh] is suspended on the conductor and [switchNetwork B] runs
    before the answer arrives, the answer is put in the live view, although
    [B] is displayed by then, and is written into the cache under [B]; the
    loading flag is lowered with the fetch for [B] still under way. *)
Theorem refresh_answer_lands_on_displayed_network (B : jsstring)
    (infos : list ShareItemInfo) (w : World) :
  is_Some (SharesStore.acquireClient w) →
  default false (hasCellId <$> getClient w) = true →
  truthy B = true →
  let n := length (pending w) in
  let w1 := SharesStore.refresh w in
  let w2 := SharesStore.switchNetwork B w1 in
  let w3 := settleFetch toShareItem n (Fulfilled infos) w2 in
  pending w1 = pending w ++ [AwaitRefresh (currentTarget w)]
  ∧ _currentNetworkId (sharesStore w2) = Some B
  ∧ _shares (sharesStore w3) = List.map toShareItem infos
  ∧ _cache (sharesStore w3) !! B = Some (List.map toShareItem infos)
  ∧ _loading (sharesStore w3) = false
  ∧ ∃ p, pending w3 = pending w ++ [p] ∧ capturedId p = Some B.
Proof.
  intros Hacq Hcell HB n w1 w2 w3.
  destruct (refresh_launch w Hacq Hcell) as (Hp1 & _ & _ & Hcl & _). fold w1 in Hp1, Hcl.
  split; [done|].
  assert (is_Some (SharesStore.acquireClient w1)) as Hacq1.
  { unfold SharesStore.acquireClient. rewrite Hcl. eauto. }
  destruct (switchNetwork_launch B w1 Hacq1) as (p & Hp2 & Hcap & _ & Hcur).
  fold w2 in Hp2, Hcur. split; [done|].
  assert (pending w2 !! n = Some (AwaitRefresh (currentTarget w))) as Hn.
  { rewrite Hp2, Hp1. apply lookup_last_but_one. }
  unfold w3. rewrite (settleFetch_at toShareItem n _ _ w2 Hn eq_refl).
  unfold fetch_resumed, SharesStore.refresh_resumed, resume. simpl.
  rewrite Hcur, HB. simpl. rewrite lookup_insert_eq.
  split; [done|]. split; [done|]. split; [done|].
  exists p. split; [|done]. rewrite Hp2, Hp1. unfold n. by rewrite delete_last_but_one.
Qed.

(** X21.  [deleteShare] takes the share out of the live view and leaves
    the cache alone.  With a network displayed whose cache entry is the live
    view, once the conductor has accepted the deletion the live view holds
    no share of the deleted id, the cache entry still holds it, and
    [switchNetwork] to the same network puts it back on display. *)
Theorem deleted_share_comes_back_from_cache (id k : jsstring) (share : ShareItem)
    (cached : list ShareItem) (w : World) :
  client (sharesStore w) = true →
  _cache (sharesStore w) !! k = Some cached →
  _shares (sharesStore w) = cached →
  List.find (λ s, bool_decide (shareId s = id)) cached = Some share →
  let n := length (pending w) in
  let w1 := SharesStore.deleteShare shareId id w in
  let w2 := SharesStore.deleteShare_resumed shareId id cached (Fulfilled ())
              (resume n w1) in
  let w3 := SharesStore.switchNetwork k w2 in
  pending w1 = pending w ++ [AwaitDeleteShare id cached (currentTarget w)]
  ∧ _shares (sharesStore w2) = List.filter (SharesStore.otherShare shareId id) cached
  ∧ Forall (λ s, shareId s ≠ id) (_shares (sharesStore w2))
  ∧ _cache (sharesStore w2) = _cache (sharesStore w)
  ∧ _shares (sharesStore w3) = cached
  ∧ share ∈ _shares (sharesStore w3).
Proof.
  intros Hcl Hcache Hshares Hfind n w1 w2 w3.
  assert (w1 = await (AwaitDeleteShare id cached (currentTarget w)) w) as Hw1.
  { unfold w1, SharesStore.deleteShare. by rewrite Hcl, Hshares, Hfind. }
  split; [by rewrite Hw1|].
  assert (w2 = updateShares
                 (set_shares (List.filter (SharesStore.otherShare shareId id) cached)) w)
    as Hw2.
  { unfold w2, n. by rewrite Hw1, resume_await. }
  split; [by rewrite Hw2|]. split.
  { rewrite Hw2. simpl. apply Forall_forall. intros s Hs%list_elem_of_In.
    apply filter_In in Hs as [_ Hs]. unfold SharesStore.otherShare in Hs.
    apply negb_true_iff in Hs. by apply bool_decide_eq_false in Hs. }
  split; [by rewrite Hw2|].
  assert (_shares (sharesStore w3) = cached) as H3.
  { unfold w3, SharesStore.switchNetwork, SharesStore.acquireClient.
    rewrite Hw2. simpl. rewrite Hcl. simpl. rewrite Hcache. simpl.
    unfold SharesStore.refreshInBackground. simpl. by rewrite Hcl. }
  split; [done|]. rewrite H3. apply find_some in Hfind as [Hin _].
  by apply list_elem_of_In.
Qed.

Lemma switchNetwork_uncached k (w : World) :
  is_Some (SharesStore.acquireClient w) →
  _cache (sharesStore w) !! k = None →
  let w1 := SharesStore.switchNetwork k w in
  _shares (sharesStore w1) = [] ∧ _loading (sharesStore w1) = true
  ∧ _error (sharesStore w1) = None ∧ _hasNetwork (sharesStore w1) = true
  ∧ _currentNetworkId (sharesStore w1) = Some k
  ∧ _cache (sharesStore w1) = _cache (sharesStore w)
  ∧ pending w1 = pending w ++ [AwaitFetchAndCache k (currentTarget w)].
Proof.
  intros [w0 Hw0] Hcache.
  destruct w as [conn ls st [sh ld er cn hn cache cur cl] pend].
  unfold SharesStore.switchNetwork. rewrite Hw0.
  unfold SharesStore.acquireClient in Hw0. simpl in *.
  destruct cl; [|destruct conn as [c|]; [|done]]; simplify_eq; simpl;
    rewrite Hcache; done.
Qed.

Lemma fetchAndCache_fulfilled k infos (w : World) :
  let w' := SharesStore.fetchAndCacheShares_resumed toShareItem k (Fulfilled infos) w in
  _shares (sharesStore w')
  = (if bool_decide (_currentNetworkId (sharesStore w) = Some k)
     then List.map toShareItem infos else _shares (sharesStore w))
  ∧ _loading (sharesStore w')
    = (if bool_decide (_currentNetworkId (sharesStore w) = Some k)
       then false else _loading (sharesStore w))
  ∧ _cache (sharesStore w') = <[k := List.map toShareItem infos]> (_cache (sharesStore w))
  ∧ _error (sharesStore w') = _error (sharesStore w)
  ∧ _hasNetwork (sharesStore w') = _hasNetwork (sharesStore w).
Proof.
  unfold SharesStore.fetchAndCacheShares_resumed, SharesStore.displayed.
  by case_bool_decide.
Qed.

Lemma fetchAndCache_rejected k err (w : World) :
  let w' := SharesStore.fetchAndCacheShares_resumed toShareItem k (Rejected err) w in
  _shares (sharesStore w') = _shares (sharesStore w)
  ∧ _loading (sharesStore w')
    = (if bool_decide (_currentNetworkId (sharesStore w) = Some k)
       then false else _loading (sharesStore w))
  ∧ _cache (sharesStore w') = _cache (sharesStore w)
  ∧ _error (sharesStore w')
    = (if bool_decide (_currentNetworkId (sharesStore w) = Some k)
       then Some (messageOf err (js "Failed to load shares"))
       else _error (sharesStore w))
  ∧ _hasNetwork (sharesStore w') = _hasNetwork (sharesStore w).
Proof.
  unfold SharesStore.fetchAndCacheShares_resumed, SharesStore.displayed.
  by case_bool_decide.
Qed.

(** X22.  The first visit of a network.  [switchNetwork k] for a network
    without cache entry empties the live view, raises the loading flag and
    launches a fetch.  When the fetch is fulfilled its result is displayed
    and cached, and the view counts as empty exactly when nothing was
    fetched; when it is rejected the error is shown, nothing is cached, and
    the view counts as empty although nothing was ever loaded. *)
Theorem first_visit_of_a_network (k : jsstring) (w : World) :
  is_Some (SharesStore.acquireClient w) →
  _cache (sharesStore w) !! k = None →
  let n := length (pending w) in
  let w1 := SharesStore.switchNetwork k w in
  (_shares (sharesStore w1) = [] ∧ _loading (sharesStore w1) = true
   ∧ _error (sharesStore w1) = None
   ∧ Combined.isEmpty (Combined.combined (sharesStore w1)) = false
   ∧ pending w1 = pending w ++ [AwaitFetchAndCache k (currentTarget w)])
  ∧ (∀ infos,
       let w2 := settleFetch toShareItem n (Fulfilled infos) w1 in
       _shares (sharesStore w2) = List.map toShareItem infos
       ∧ _loading (sharesStore w2) = false
       ∧ _cache (sharesStore w2) !! k = Some (List.map toShareItem infos)
       ∧ Combined.isEmpty (Combined.combined (sharesStore w2))
         = Nat.eqb (length infos) 0)
  ∧ (∀ err,
       let w2 := settleFetch toShareItem n (Rejected err) w1 in
       _shares (sharesStore w2) = []
       ∧ _loading (sharesStore w2) = false
       ∧ _error (sharesStore w2) = Some (messageOf err (js "Failed to load shares"))
       ∧ _cache (sharesStore w2) !! k = None
       ∧ Combined.isEmpty (Combined.combined (sharesStore w2)) = true).
Proof.
  intros Hacq Hcache n w1.
  destruct (switchNetwork_uncached k w Hacq Hcache)
    as (Hsh & Hld & Her & Hhn & Hcur & Hca & Hp).
  fold w1 in Hsh, Hld, Her, Hhn, Hcur, Hca, Hp.
  split.
  { repeat (split; [done|]). split; [|done].
    unfold Combined.combined. cbn [Combined.isEmpty]. by rewrite Hld. }
  assert (pending w1 !! n = Some (AwaitFetchAndCache k (currentTarget w))) as Hn.
  { rewrite Hp. apply lookup_last. }
  assert (sharesStore (resume n w1) = sharesStore w1) as Hres by done.
  split.
  - intros infos w2. unfold w2.
    rewrite (settleFetch_at toShareItem n _ _ w1 Hn eq_refl).
    destruct (fetchAndCache_fulfilled k infos (resume n w1))
      as (Hs2 & Hl2 & Hc2 & _ & Hh2).
    unfold fetch_resumed. rewrite Hres in *.
    rewrite Hcur, bool_decide_eq_true_2 in Hs2, Hl2 by done.
    split; [done|]. split; [done|]. split; [by rewrite Hc2, lookup_insert_eq|].
    unfold Combined.combined. cbn [Combined.isEmpty]. rewrite Hs2, Hl2, Hh2, Hhn.
    cbn [negb andb]. by rewrite length_map.
  - intros err w2. unfold w2.
    rewrite (settleFetch_at toShareItem n _ _ w1 Hn eq_refl).
    destruct (fetchAndCache_rejected k err (resume n w1))
      as (Hs2 & Hl2 & Hc2 & He2 & Hh2).
    unfold fetch_resumed. rewrite Hres in *.
    rewrite Hcur, bool_decide_eq_true_2 in Hl2, He2 by done.
    split; [by rewrite Hs2|]. split; [done|]. split; [done|].
    split; [by rewrite Hc2, Hca|].
    unfold Combined.combined. cbn [Combined.isEmpty].
    by rewrite Hs2, Hl2, Hh2, Hhn, Hsh.
Qed.

End Facts.
End SessionTheorems.

(** ** The dialog *)

Module ModalFacts.
Import JsString Secrets Registry Session Props Passphrases Clones.

Lemma trim_trim p : trim (trim p) = trim p.
Proof.
  destruct (SecretsFacts.trim_shape p) as [->|(c & t & -> & Hc & Hend)]; [done|].
  unfold trim. simpl trimStart. rewrite Hc. by apply PassphraseFacts.trimEnd_clean.
Qed.

Lemma validatePassphrase_trim p : validatePassphrase (trim p) = validatePassphrase p.
Proof. unfold validatePassphrase. by rewrite trim_trim. Qed.

Lemma seed_trim p : passphraseToNetworkSeed (trim p) = passphraseToNetworkSeed p.
Proof. unfold passphraseToNetworkSeed. by rewrite trim_trim. Qed.

Lemma invalid_has_reason p :
  valid (validatePassphrase p) = false →
  ∃ e, Secrets.error (validatePassphrase p) = Some e.
Proof.
  destruct (SecretsFacts.trim_shape p) as [He|(c & t & Ht & _)].
  - rewrite (SecretsFacts.validatePassphrase_trimmed_empty p He). eauto.
  - rewrite (SecretsFacts.validatePassphrase_trimmed p c t Ht).
    destruct (negb _); simpl; [eauto|done].
Qed.

Lemma errorMessage_truthy e : truthy (errorMessage e) = true.
Proof. by destruct e. Qed.

Section Handlers.
Context {ShareItem : Type}.
Local Abbreviation World := (World ShareItem).

(** X23.  [handleJoin] lets no passphrase through that [validatePassphrase]
    rejects: then the store is not called, the session stays as it is, and
    the dialog shows the message of the validation.  A passphrase that is
    accepted reaches [joinNetwork] of the store without the white space
    around it, and with the name [Shared Feed] when the name field is blank;
    what is then sent to the conductor, if the connection is there, is the
    request for the seed of the passphrase as typed, with a passphrase that
    [validatePassphrase] accepts. *)
Theorem handleJoin_lets_only_valid_passphrases_through (m : NetworkModal.Modal)
    (w : World) :
  let r := NetworkModal.handleJoin m w in
  (isValidPassphrase (NetworkModal.passphrase m) = false →
     r.2 = w
     ∧ NetworkModal.loading r.1 = NetworkModal.loading m
     ∧ ∃ e, Secrets.error (validatePassphrase (NetworkModal.passphrase m)) = Some e
            ∧ NetworkModal.error r.1 = Some (errorMessage e))
  ∧ (isValidPassphrase (NetworkModal.passphrase m) = true →
       NetworkModal.loading r.1 = true ∧ NetworkModal.error r.1 = None
       ∧ (getAppClient w = false → pending r.2 = pending w)
       ∧ (getAppClient w = true →
            ∃ p nm, pending r.2 = pending w ++ [AwaitJoinNetwork p (Some nm)]
                    ∧ p = trim (NetworkModal.passphrase m)
                    ∧ isValidPassphrase p = true
                    ∧ truthy nm = true
                    ∧ (truthy (trim (NetworkModal.networkName m)) = false →
                       nm = js "Shared Feed")
                    ∧ joinNetwork_request p
                      = joinNetwork_request (NetworkModal.passphrase m))).
Proof.
  intros r. unfold r, NetworkModal.handleJoin, isValidPassphrase. split.
  - intros Hv. rewrite Hv. simpl. split; [done|]. split; [done|].
    destruct (invalid_has_reason _ Hv) as [e He]. rewrite He.
    exists e. split; [done|]. simpl. unfold orElse. by rewrite errorMessage_truthy.
  - intros Hv. rewrite Hv. simpl. split; [done|]. split; [done|].
    unfold NetworksStore.joinNetwork. split.
    + intros ->. done.
    + intros ->. simpl. eexists _, _. split; [reflexivity|]. split; [done|].
      split; [by rewrite validatePassphrase_trim|]. split.
      * unfold orElse. by destruct (truthy (trim (NetworkModal.networkName m))) eqn:E.
      * split; [unfold orElse; by intros ->|].
        unfold joinNetwork_request. by rewrite seed_trim.
Qed.

(** X24.  [handleCreate] asks for a name: with a name field that is
    empty or blank the store is not called and the session stays as it is.
    Otherwise the store's [createNetwork] gets the name without the white
    space around it, which is not empty, and the passphrase the dialog has
    generated; when that one is still empty the registry falls back on a
    newly generated passphrase. *)
Theorem handleCreate_asks_for_a_name (m : NetworkModal.Modal) (w : World) :
  let r := NetworkModal.handleCreate m w in
  (truthy (trim (NetworkModal.networkName m)) = false →
     r.2 = w
     ∧ NetworkModal.error r.1 = Some (js "Please enter a network name")
     ∧ NetworkModal.loading r.1 = NetworkModal.loading m)
  ∧ (truthy (trim (NetworkModal.networkName m)) = true →
       NetworkModal.loading r.1 = true ∧ NetworkModal.error r.1 = None
       ∧ (getAppClient w = true →
            ∃ nm, pending r.2
                  = pending w
                    ++ [AwaitCreateNetwork nm (Some (NetworkModal.generatedPassphrase m))]
                  ∧ nm = trim (NetworkModal.networkName m)
                  ∧ truthy nm = true ∧ trim nm = nm
                  ∧ ∀ generated,
                      finalPassphrase (Some (NetworkModal.generatedPassphrase m)) generated
                      = orElse (NetworkModal.generatedPassphrase m) generated)).
Proof.
  intros r. unfold r, NetworkModal.handleCreate. split.
  - intros ->. done.
  - intros Ht. rewrite Ht. simpl. split; [done|]. split; [done|].
    unfold NetworksStore.createNetwork. intros ->. simpl.
    eexists. split; [reflexivity|]. split; [done|]. split; [done|].
    split; [apply trim_trim|done].
Qed.

End Handlers.
End ModalFacts.

(** ** More statements at sample sessions *)

Module SessionSamples.
Import JsString Registry Session Props Run Examples Derived Clones.
Import StoreFacts SampleFacts SessionTheorems.

(** "Books" as the store lists it while "Films" is selected. *)
Lemma books_listed_with_films :
  List.find (NetworksStore.hasId (Some booksId)) (networks (_state withFilms))
  = Some (networkOfClone booksClone (js "Books") (js "alpha beta gamma delta omega")
            1700000000000).
Proof. vm_compute. reflexivity. Qed.

Lemma localStorage_initialWorld {ShareItem} ls :
  localStorage (initialWorld (ShareItem:=ShareItem) ls) = ls.
Proof. reflexivity. Qed.

Lemma active_network_is_the_flagged_one_witness :
  activeNetwork (_state withFilms) = List.find isActive (networks (_state withFilms))
  ∧ activeCellId (_state withFilms) = Some (cell_id filmsClone).
Proof.
  destruct (active_network_is_the_flagged_one toItem itemId true withFilms
              withFilms_reachable) as (Hfirst & _ & _ & Hcell).
  split; [exact Hfirst|]. apply (Hcell filmsNetwork).
  - vm_compute. repeat constructor.
  - vm_compute. reflexivity.
Defined.

Lemma connection_held_until_disconnect_witness :
  is_Some (shareFeedClient withBooks)
  ∧ shareFeedClient (Invariants.disconnect withBooks) = None
  ∧ client (sharesStore (Invariants.disconnect withBooks)) = true
  ∧ pending (Invariants.disconnect withBooks) = pending withBooks.
Proof.
  destruct (connection_held_until_disconnect toItem itemId true withBooks
              withBooks_reachable)
    as ((_ & Hclient & _) & Hnone & Hstore & Hpending & _).
  split; [apply Hclient; vm_compute; reflexivity|].
  split; [exact Hnone|]. split; [|exact Hpending].
  rewrite Hstore. vm_compute. reflexivity.
Defined.

Lemma cache_never_evicts_witness :
  is_Some (_cache (sharesStore (NetworksStore.reset withBooksCached)) !! booksId).
Proof.
  apply (cache_never_evicts toItem itemId true withBooksCached
           (NetworksStore.reset withBooksCached) booksId).
  - apply rtc_once, call_reset.
  - vm_compute. eauto.
Defined.

Lemma selection_survives_restart_witness :
  let w2 := initialWorld (ShareItem:=N)
              (localStorage (NetworksStore.setActiveNetwork booksId withFilms)) in
  let w' := NetworksStore.init_resumed (Fulfilled (Some booksListed)) (λ _, 5) w2 in
  activeNetworkId (_state w') = Some booksId
  ∧ activeCellId (_state w') = Some (cell_id booksClone).
Proof.
  intros w2 w'.
  destruct (selection_survives_restart booksId _ booksClone booksListed (λ _, 5)
              withFilms w2 books_listed_with_films) as (Hid & Hcell & _).
  - apply localStorage_initialWorld.
  - vm_compute. repeat constructor.
  - reflexivity.
  - split; [exact Hid|exact Hcell].
Defined.

Lemma leave_inactive_network_witness :
  let w' := NetworksStore.leaveNetwork_resumed booksId
              (networkOfClone booksClone (js "Books") (js "alpha beta gamma delta omega")
                 1700000000000)
              (Fulfilled ())
              (resume (length (pending withFilms))
                 (NetworksStore.leaveNetwork booksId withFilms)) in
  activeNetworkId (_state w') = activeNetworkId (_state withFilms)
  ∧ sharesStore w' = sharesStore withFilms.
Proof.
  intros w'.
  destruct (leave_inactive_network toItem itemId true booksId
              (networkOfClone booksClone (js "Books") (js "alpha beta gamma delta omega")
                 1700000000000)
              withFilms withFilms_reachable)
    as (_ & _ & Hact & _ & _ & _ & _ & Hshares & _).
  - vm_compute. reflexivity.
  - vm_compute. discriminate.
  - exact books_listed_with_films.
  - split; [exact Hact|exact Hshares].
Defined.

Lemma made_network_is_selected_witness :
  activeNetworkId (_state withBooks) = Some booksId
  ∧ _currentNetworkId (sharesStore withBooks) = Some booksId.
Proof.
  set (w := resume 0 (NetworksStore.createNetwork (js "Books") None connected)).
  destruct (made_network_is_selected
              (Registry.createNetwork (js "Books") None (js "alpha beta gamma delta omega")
                 booksClone 1700000000000 (localStorage w))
              booksClone w withBooks)
    as (_ & Hact & _ & _ & _ & _ & _ & Hcur & _).
  - vm_compute. eauto.
  - left. exists (js "Books"), None, (js "alpha beta gamma delta omega"), 1700000000000.
    split; reflexivity.
  - split; [exact Hact|exact Hcur].
Defined.

Lemma refresh_answer_lands_on_displayed_network_witness :
  let w1 := SharesStore.refresh withBooks in
  let w2 := SharesStore.switchNetwork filmsId w1 in
  let w3 := settleFetch toItem (length (pending withBooks)) (Fulfilled [7]) w2 in
  _currentNetworkId (sharesStore w2) = Some filmsId
  ∧ _shares (sharesStore w3) = [7]
  ∧ _cache (sharesStore w3) !! filmsId = Some [7].
Proof.
  intros w1 w2 w3.
  destruct (refresh_answer_lands_on_displayed_network toItem filmsId [7] withBooks)
    as (_ & Hcur & Hshares & Hcache & _).
  - vm_compute. eauto.
  - vm_compute. reflexivity.
  - reflexivity.
  - split; [exact Hcur|]. split; [exact Hshares|exact Hcache].
Defined.

Lemma deleted_share_comes_back_from_cache_witness :
  let w1 := SharesStore.deleteShare itemId [1] withBooksCached in
  let w2 := SharesStore.deleteShare_resumed itemId [1] [1; 2] (Fulfilled ())
              (resume (length (pending withBooksCached)) w1) in
  _shares (sharesStore w2) = [2]
  ∧ _shares (sharesStore (SharesStore.switchNetwork booksId w2)) = [1; 2].
Proof.
  intros w1 w2.
  destruct (deleted_share_comes_back_from_cache itemId [1] booksId 1 [1; 2]
              withBooksCached) as (_ & Hgone & _ & _ & Hback & _).
  - vm_compute. reflexivity.
  - vm_compute. reflexivity.
  - vm_compute. reflexivity.
  - vm_compute. reflexivity.
  - split; [exact Hgone|exact Hback].
Defined.

Lemma first_visit_of_a_network_witness :
  let w1 := SharesStore.switchNetwork (js "A") connected in
  _loading (sharesStore w1) = true
  ∧ _shares (sharesStore (settleFetch toItem (length (pending connected))
                            (Fulfilled [5]) w1)) = [5].
Proof.
  intros w1.
  destruct (first_visit_of_a_network toItem (js "A") connected)
    as ((_ & Hloading & _) & Hfulfilled & _).
  - vm_compute. eauto.
  - vm_compute. reflexivity.
  - split; [exact Hloading|]. apply (Hfulfilled [5]).
Defined.

End SessionSamples.

(** ** The storage adapter of the extension *)

Module ExtensionFacts.
Import JsString Base64 Registry Props.

(** [atob] throws on the encoding of a hash whose length is a multiple of
    three, as the 39 bytes of a Holochain hash are: the [u] in front makes
    the length one more than a multiple of four. *)
Lemma atob_rejects_hash h :
  (length h mod 3 = 0)%nat → atob (encodeHashToBase64 h) = None.
Proof.
  intros Hlen.
  pose proof (RegistryFacts.encodeHashToBase64_chars h) as Hc.
  assert (Forall (λ c, negb (isAsciiWhitespace c) = true) (encodeHashToBase64 h)) as Hw.
  { eapply Forall_impl; [exact Hc|]. intros c Hu.
    destruct (RegistryFacts.urlChar_facts c Hu) as (_ & _ & ->). done. }
  assert (Forall (λ c, c ≠ pad) (encodeHashToBase64 h)) as Hp.
  { eapply Forall_impl; [exact Hc|]. intros c Hu. by apply RegistryFacts.urlChar_facts. }
  unfold atob. rewrite (RegistryFacts.filter_all _ _ Hw).
  assert ((if Nat.eqb (length (encodeHashToBase64 h) mod 4) 0
           then stripPadding (encodeHashToBase64 h) else encodeHashToBase64 h)
          = encodeHashToBase64 h) as ->.
  { destruct (Nat.eqb _ 0); [by apply RegistryFacts.stripPadding_none|done]. }
  assert (length (encodeHashToBase64 h) mod 4 = 1)%nat as ->; [|done].
  destruct (RegistryFacts.fromUint8Array_shape h) as [_ [q Hq]].
  assert (length (encodeHashToBase64 h) = S (length (fromUint8Array h))) as -> by done.
  assert (∀ a r : nat, (r < 3 → (3 * a + r) mod 3 = r)%nat) as Hmod3.
  { intros a r Hr. rewrite Nat.add_comm, Nat.mul_comm, Nat.Div0.mod_add.
    by apply Nat.mod_small. }
  assert (∀ a r : nat, (r < 4 → (4 * a + r) mod 4 = r)%nat) as Hmod4.
  { intros a r Hr. rewrite Nat.add_comm, Nat.mul_comm, Nat.Div0.mod_add.
    by apply Nat.mod_small. }
  destruct Hq as [[Hh Hs]|[[Hh Hs]|[Hh Hs]]].
  - rewrite Hs. replace (S (4 * q)) with (4 * q + 1)%nat by lia. apply Hmod4. lia.
  - rewrite Hh, Hmod3 in Hlen by lia. done.
  - rewrite Hh, Hmod3 in Hlen by lia. done.
Qed.

Lemma cellIdFromString_rejects c :
  (length (fst c) mod 3 = 0)%nat →
  Registry.cellIdFromString (Registry.cellIdToString c) = None.
Proof.
  intros Hlen. destruct c as [d a]. unfold Registry.cellIdFromString, Registry.cellIdToString.
  simpl fst in *. simpl snd.
  change (encodeHashToBase64 d ++ [colon] ++ encodeHashToBase64 a)
    with (encodeHashToBase64 d ++ colon :: encodeHashToBase64 a).
  rewrite (SecretsFacts.splitOn_app _ _ _ (RegistryFacts.encodeHashToBase64_no_colon d)).
  cbn [lookup list_lookup default from_option]. unfold id.
  by rewrite (atob_rejects_hash d Hlen).
Qed.

Lemma foldl_pushNetworkInfo active names cells acc :
  foldl (Extension.pushNetworkInfo active names) acc cells
  = acc ++ (Extension.networkInfoOf active names <$> clonedCells cells).
Proof.
  revert acc. induction cells as [|cell cells IH]; intros acc; simpl.
  - by rewrite app_nil_r.
  - rewrite IH. destruct cell as [pc|c|]; simpl; try done.
    by rewrite <- app_assoc.
Qed.

Lemma existsb_false {A} (f : A → bool) l :
  (∀ x, x ∈ l → f x = false) → existsb f l = false.
Proof.
  induction l as [|x l IH]; [done|]. intros H. simpl.
  rewrite (H x) by constructor. apply IH. intros y Hy. apply H. by constructor.
Qed.

(** X25.  The extension cannot select the network it lists.  When the
    conductor reports clones and none of them is the stored selection, the
    adapter's [getNetworks] selects the first one through [setActiveCellId],
    which reads the cell back from its string form with [atob].  Either that
    throws, and then [getNetworks] returns an empty list and stores nothing,
    or the adapter is left with a cell that is not the cell of the network
    it has stored as selected, and addresses its zome calls to it.  With
    hashes whose length is a multiple of three, as the 39 bytes of a
    Holochain hash, it always throws: the list is empty although the
    conductor reports networks. *)
Theorem extension_never_selects_the_listed_cell (appInfo : AppInfo)
    (a : Extension.Adapter) (c : ClonedCell) (rest : list ClonedCell) :
  clonedCells (default [] (cell_info appInfo !! ROLE_NAME)) = c :: rest →
  (∀ c', c' ∈ c :: rest →
         Some (Extension.cellIdToString (cell_id c')) ≠ Extension.getActiveCellIdString a) →
  let r := Extension.getNetworks (Some appInfo) a in
  (r = ([], a)
   ∨ ∃ wrong, Extension.activeCellId r.2 = Some wrong
              ∧ wrong ≠ cell_id c
              ∧ Extension.sharefeed_active_network_ext (Extension.storage r.2)
                = Some (Extension.cellIdToString (cell_id c))
              ∧ Extension.callZome_target r.2 = Extension.by_cell_id wrong
              ∧ length r.1 = S (length rest))
  ∧ ((length (fst (cell_id c)) mod 3 = 0)%nat → r = ([], a)).
Proof.
  intros Hcells Hnone r. unfold r, Extension.getNetworks.
  rewrite foldl_pushNetworkInfo, Hcells. cbn [app fmap list_fmap length Nat.ltb Nat.leb].
  cbn [andb head].
  assert (existsb Extension.isActive
            (Extension.networkInfoOf (Extension.getActiveCellIdString a)
               (Extension.loadNetworkNamesCache a) c
             :: (Extension.networkInfoOf (Extension.getActiveCellIdString a)
                   (Extension.loadNetworkNamesCache a) <$> rest)) = false) as ->.
  { apply existsb_false. intros n Hn.
    change (n ∈ Extension.networkInfoOf (Extension.getActiveCellIdString a)
                  (Extension.loadNetworkNamesCache a) <$> (c :: rest)) in Hn.
    apply list_elem_of_fmap in Hn as (c' & -> & Hc'). simpl.
    apply bool_decide_eq_false. by apply Hnone. }
  cbn [negb fmap option_fmap option_map default from_option]. unfold id.
  cbn [Extension.cellIdString Extension.networkInfoOf].
  unfold Extension.setActiveCellId, Extension.cellIdFromString, Extension.cellIdToString.
  split.
  - pose proof (RegistryFacts.cellIdFromString_never_inverts (cell_id c)) as Hnever.
    destruct (Registry.cellIdFromString _) as [wrong|]; [|by left].
    right. exists wrong. simpl.
    split; [done|]. split; [congruence|]. split; [done|]. split; [done|].
    by rewrite length_fmap.
  - intros Hlen. by rewrite (cellIdFromString_rejects _ Hlen).
Qed.

Lemma extension_never_selects_the_listed_cell_witness :
  let a := {| Extension.activeCellId := None;
              Extension.storage :=
                {| Extension.sharefeed_active_network_ext := None;
                   Extension.sharefeed_networks_cache := None |} |} in
  Extension.getNetworks (Some Examples.booksListed) a = ([], a).
Proof.
  intros a.
  refine (proj2 (extension_never_selects_the_listed_cell Examples.booksListed a
                   Examples.booksClone [] _ _) _).
  - vm_compute. reflexivity.
  - intros c' _. simpl. discriminate.
  - vm_compute. reflexivity.
Defined.

Lemma names_updateNetworkName k nm a :
  Extension.loadNetworkNamesCache (Extension.updateNetworkName k nm a)
  = <[k := nm]> (Extension.loadNetworkNamesCache a).
Proof. done. Qed.

(** X26.  A name given with the adapter's [updateNetworkName] is the name
    under which [getNetworks] lists the network from then on, when the name
    is not empty; the names of the other networks, the selection and the
    active cell are not touched. *)
Theorem extension_name_is_listed (k nm : jsstring) (a : Extension.Adapter)
    (appInfo : AppInfo) :
  let a' := Extension.updateNetworkName k nm a in
  Extension.loadNetworkNamesCache a' !! k = Some nm
  ∧ (∀ k', k' ≠ k →
       Extension.loadNetworkNamesCache a' !! k' = Extension.loadNetworkNamesCache a !! k')
  ∧ Extension.getActiveCellIdString a' = Extension.getActiveCellIdString a
  ∧ Extension.activeCellId a' = Extension.activeCellId a
  ∧ (truthy nm = true →
     ∀ n, n ∈ (Extension.getNetworks (Some appInfo) a').1 →
          Extension.cellIdString n = k → Extension.name n = nm).
Proof.
  intros a'. rewrite (names_updateNetworkName k nm a : Extension.loadNetworkNamesCache a' = _).
  split; [by rewrite lookup_insert_eq|]. split; [by intros k' Hk'; rewrite lookup_insert_ne|].
  split; [done|]. split; [done|]. intros Ht n Hn Hk.
  assert (∀ c, Extension.cellIdToString (cell_id c) = k →
               Extension.name
                 (Extension.networkInfoOf (Extension.getActiveCellIdString a')
                    (Extension.loadNetworkNamesCache a') c) = nm) as Hname.
  { intros c Hc. unfold Extension.networkInfoOf. cbn [Extension.name]. rewrite Hc.
    rewrite (names_updateNetworkName k nm a : Extension.loadNetworkNamesCache a' = _).
    rewrite lookup_insert_eq. unfold orElse. simpl. by rewrite Ht. }
  set (a2 := a') in *. clearbody a2.
  unfold Extension.getNetworks in Hn. rewrite foldl_pushNetworkInfo in Hn.
  cbn [app] in Hn.
  destruct (Nat.ltb 0 _ && negb _).
  - destruct (Extension.setActiveCellId _ a2) as [a3|]; [|by apply elem_of_nil in Hn].
    cbn [fst] in Hn.
    destruct (clonedCells _) as [|c rest]; [by apply elem_of_nil in Hn|].
    cbn [fmap list_fmap Extension.activateFirst] in Hn.
    apply elem_of_cons in Hn as [->|Hn].
    + cbn [Extension.name]. apply Hname. exact Hk.
    + apply list_elem_of_fmap in Hn as (c' & -> & _). by apply Hname.
  - cbn [fst] in Hn. apply list_elem_of_fmap in Hn as (c' & -> & _). by apply Hname.
Qed.

End ExtensionFacts.

(** ** Leaving and coming back, rejections, broken id strings *)

Module EdgeFacts.
Import JsString Secrets Base64 Registry Session Props Run Clones Failures.
Import StoreFacts.

(** X27.  Leaving forgets what the device knew of a network.  After
    [disableNetwork], and also after [enableNetwork] has brought the clone
    back, the durable store has no record of the cell; so when the conductor
    reports the clone again, [getNetworks] lists it under the name the
    conductor gives it, or [Unnamed Network], and with the passphrase decoded
    from the seed the conductor exposes, empty when it exposes none. *)
Theorem left_network_comes_back_bare (c : ClonedCell) (appInfo : AppInfo)
    (ls : LocalStorage) (now : nat → N) (i : nat) :
  clonedCells (default [] (cell_info appInfo !! ROLE_NAME)) !! i = Some c →
  let ls' := enableNetwork (cell_id c) (disableNetwork (cell_id c) ls) in
  storedRecord (cellIdToString (cell_id c)) ls' = None
  ∧ ∃ n, getNetworks (Some appInfo) ls' now !! i = Some n
         ∧ cellId n = cell_id c
         ∧ name n = orElse (cloned_name c) (js "Unnamed Network")
         ∧ passphrase n = match exposedSeed c with
                          | Some seed => networkSeedToPassphrase seed
                          | None => []
                          end.
Proof.
  intros Hi ls'.
  assert (storedRecord (cellIdToString (cell_id c)) ls' = None) as Hnone.
  { unfold ls', enableNetwork, disableNetwork, storedRecord.
    rewrite DurableFacts.load_remove, DurableFacts.find_filter_other.
    by rewrite bool_decide_eq_true_2. }
  split; [done|].
  pose proof (ListingFacts.getNetworks_joined appInfo ls' now) as Hall.
  destruct (Forall2_lookup_l _ _ _ _ _ Hall Hi) as (n & Hn & Hj).
  exists n. split; [done|].
  destruct Hj as (Hid & _ & Hpass & _ & Hname & _).
  unfold storedRecord in Hnone. unfold localPassphrase in Hpass. rewrite Hnone in Hpass.
  split; [done|]. split; [by apply Hname|done].
Qed.

Lemma left_network_comes_back_bare_witness :
  let ls' := enableNetwork (cell_id Examples.booksClone)
               (disableNetwork (cell_id Examples.booksClone)
                  (localStorage Examples.withBooks)) in
  ∃ n, getNetworks (Some Examples.booksListed) ls' (λ _, 9) !! 0%nat = Some n
       ∧ name n = js "sharefeed.0"
       ∧ passphrase n = js "alpha beta gamma delta omega".
Proof.
  intros ls'.
  destruct (left_network_comes_back_bare Examples.booksClone Examples.booksListed
              (localStorage Examples.withBooks) (λ _, 9) 0%nat)
    as (_ & n & Hn & _ & Hname & Hpass).
  - vm_compute. reflexivity.
  - exists n. split; [exact Hn|]. split; [exact Hname|]. rewrite Hpass.
    vm_compute. reflexivity.
Defined.

(** X29.  [cellIdFromString] needs both pieces.  For a string without a
    colon the second piece is [undefined], which [atob] reads as the nine
    characters of that word and refuses: the function throws, whatever the
    first piece is.  And what follows a second colon is ignored. *)
Theorem cellIdFromString_needs_two_pieces :
  (∀ s, colon ∉ s → Registry.cellIdFromString s = None)
  ∧ (∀ a b rest, colon ∉ a → colon ∉ b →
       Registry.cellIdFromString (a ++ colon :: b ++ colon :: rest)
       = Registry.cellIdFromString (a ++ colon :: b)).
Proof.
  split.
  - intros s Hs. unfold Registry.cellIdFromString.
    rewrite (SecretsFacts.splitOn_without _ _ Hs).
    cbn [lookup list_lookup default from_option]. unfold id.
    assert (atob (js "undefined") = None) as -> by (by vm_compute).
    by destruct (atob s).
  - intros a b rest Ha Hb. unfold Registry.cellIdFromString.
    rewrite !(SecretsFacts.splitOn_app _ _ _ Ha), (SecretsFacts.splitOn_app _ _ _ Hb),
      (SecretsFacts.splitOn_without _ _ Hb).
    done.
Qed.

Section Facts.
Context {ShareItemInfo ShareItem : Type}.
Variable toShareItem : ShareItemInfo → ShareItem.
Variable shareId : ShareItem → jsstring.
Variable browser : bool.

Local Abbreviation World := (World ShareItem).
Local Abbreviation step := (step toShareItem shareId browser).
Local Abbreviation rejected := (rejected toShareItem shareId).

(** X28.  A rejected answer changes flags only.  When a suspended
    operation of either store is taken up again with a rejection, the list
    of networks, the selection, the durable store, the connection and its
    client, the live view of shares, the cache and the displayed id are all
    left as they were; only the loading, error and connected flags may
    move.  The operation is over: no call is made again, and the other
    suspended operations stay as they are. *)
Theorem rejection_changes_flags_only (w w' : World) :
  rejected w w' →
  step w w'
  ∧ networks (_state w') = networks (_state w)
  ∧ activeNetworkId (_state w') = activeNetworkId (_state w)
  ∧ localStorage w' = localStorage w
  ∧ shareFeedClient w' = shareFeedClient w
  ∧ _shares (sharesStore w') = _shares (sharesStore w)
  ∧ _cache (sharesStore w') = _cache (sharesStore w)
  ∧ _currentNetworkId (sharesStore w') = _currentNetworkId (sharesStore w)
  ∧ _hasNetwork (sharesStore w') = _hasNetwork (sharesStore w)
  ∧ ∃ i, pending w' = delete i (pending w) ∧ is_Some (pending w !! i).
Proof.
  intros Hrej. split.
  { destruct Hrej; by econstructor. }
  destruct Hrej as [i connected err w Hi|i p err w Hi Hf|i target err w Hi
                    |i id currentShares target err w Hi|i err now w Hi
                    |i name passphrase err w Hi|i passphrase name err w Hi
                    |i k network err w Hi];
    try (destruct p; try done);
    (repeat (split; [crush_ops; done|]));
    exists i; (split; [crush_ops; done|eauto]).
Qed.

End Facts.

Lemma rejection_changes_flags_only_witness :
  let w' := fetch_resumed Examples.toItem
              (AwaitFetchAndCache Examples.booksId (Some (cell_id Examples.booksClone)))
              (Rejected None) (resume 0 Examples.withBooks) in
  networks (_state w') = networks (_state Examples.withBooks)
  ∧ _cache (sharesStore w') = _cache (sharesStore Examples.withBooks).
Proof.
  intros w'.
  destruct (rejection_changes_flags_only Examples.toItem Examples.itemId true
              Examples.withBooks w') as (_ & Hns & _ & _ & _ & _ & Hcache & _).
  - apply (rejected_fetch Examples.toItem Examples.itemId 0
             (AwaitFetchAndCache Examples.booksId (Some (cell_id Examples.booksClone)))
             None Examples.withBooks).
    + vm_compute. reflexivity.
    + reflexivity.
  - split; [exact Hns|exact Hcache].
Defined.

End EdgeFacts.

(** ** The loading flag of the networks store *)

Module LoadingFacts.
Import JsString Secrets Registry Session Props Run Invariants.
Import StoreFacts.

Section Facts.
Context {ShareItemInfo ShareItem : Type}.
Variable toShareItem : ShareItemInfo → ShareItem.
Variable shareId : ShareItem → jsstring.
Variable browser : bool.

Local Abbreviation World := (World ShareItem).
Local Abbreviation step := (step toShareItem shareId browser).
Local Abbreviation reachable := (reachable toShareItem shareId browser).

Lemma Exists_delete_other {A} (P : A → Prop) i l x :
  l !! i = Some x → ¬ P x → Exists P l → Exists P (delete i l).
Proof.
  intros Hi Hx. rewrite !Exists_exists. intros (y & Hy & HP).
  exists y. split; [|done].
  apply list_elem_of_lookup in Hy as [j Hj].
  destruct (decide (j = i)) as [->|Hne]; [congruence|].
  apply list_elem_of_lookup.
  destruct (decide (j < i)%nat).
  - exists j. by rewrite list_lookup_delete_lt.
  - exists (pred j). rewrite list_lookup_delete_ge by lia.
    by replace (S (pred j)) with j by lia.
Qed.

Ltac loading_closer Hinv :=
  repeat first
    [ done
    | progress intros
    | match goal with
      | H : _ !! _ = Some ?p |- Exists _ (delete _ _) =>
          apply (Exists_delete_other _ _ _ _ H); [by simpl|]
      | |- Exists _ (_ ++ [_]) => apply Exists_app; right; by repeat constructor
      end
    | apply Exists_app; left
    | by apply Hinv ].

Lemma step_loadingPending (w w' : World) :
  step w w' → loadingPending w → loadingPending w'.
Proof.
  intros Hstep Hinv. unfold loadingPending in *.
  destruct Hstep; try (destruct outcome); try (destruct p; try done);
    crush_ops; loading_closer Hinv.
Qed.

Lemma reachable_loadingPending (w : World) : reachable w → loadingPending w.
Proof.
  intros [ls Hrtc].
  assert (loadingPending (initialWorld (ShareItem:=ShareItem) ls)) as Hinit by done.
  induction Hrtc as [|w1 w2 w3 Hstep _ IH]; [done|].
  apply IH. by eapply step_loadingPending.
Qed.

(** X30.  The loading flag of the networks store never sticks: in every
    world the session can be in, the flag is raised only while an [init], a
    [createNetwork] or a [joinNetwork] of the store is suspended on the
    conductor.  So once these have all been answered, accepted or rejected,
    the flag is down. *)
Theorem networks_loading_flag_never_sticks (w : World) :
  reachable w →
  loading (_state w) = true →
  ∃ p, p ∈ pending w
       ∧ (p = AwaitGetNetworks
          ∨ (∃ name passphrase, p = AwaitCreateNetwork name passphrase)
          ∨ (∃ passphrase name, p = AwaitJoinNetwork passphrase name)).
Proof.
  intros Hreach Hloading.
  pose proof (reachable_loadingPending w Hreach Hloading) as Hex.
  apply Exists_exists in Hex as (p & Hin & Hp). exists p. split; [done|].
  destruct p; try done; eauto.
Qed.

End Facts.

Lemma networks_loading_flag_never_sticks_witness :
  let w := NetworksStore.createNetwork (js "Books") None Examples.connected in
  ∃ p, p ∈ pending w
       ∧ (p = AwaitGetNetworks
          ∨ (∃ name passphrase, p = AwaitCreateNetwork name passphrase)
          ∨ (∃ passphrase name, p = AwaitJoinNetwork passphrase name)).
Proof.
  intros w.
  apply (networks_loading_flag_never_sticks Examples.toItem Examples.itemId true w).
  - destruct SampleFacts.connected_reachable as [ls Hrtc]. exists ls.
    eapply rtc_r; [exact Hrtc|]. apply call_createNetwork.
  - vm_compute. reflexivity.
Defined.

End LoadingFacts.
